(** * KanjiComposer: the stroke graph evaluation engine

    A shallow embedding of [src/lib/rangeStroke.ts] (bake, range selection,
    stroke counter) and of the engine part of the application file (glyph
    resolution, the pure operations on documents, the graph evaluators),
    followed by the properties of the specification that concern them
    (Part II), by further properties of the same code, of the caches of
    the previews and of the functions that add nodes (Part III), and by
    the properties of the specification on range selection and on the
    character of a Glyph node, which rest on lemmas of Part III
    (Part IV).

    Conventions.
    - Text (SVG source, identifiers, URLs) is a Rocq [string], read as
      UTF-8.  Every pattern the code matches against text is ASCII, and an
      ASCII byte never occurs inside a multi-byte UTF-8 sequence, so prefix
      and suffix tests on bytes agree with the tests on UTF-16 code units.
    - The character of a Glyph node is a JavaScript string proper: a list of
      UTF-16 code units, because [codePointAt] and string iteration depend
      on surrogate pairs.
    - Stroke indices and counts are integer-valued JavaScript numbers:
      [jsnum] is an integer or NaN.  Indices are taken in the range where
      a double represents integers exactly.
    - A function that can raise runs in the exception monad [exc]; a promise
      is represented by the value it settles to. *)

From Stdlib Require Import ZArith String Ascii List.
From Stdlib Require Import DecimalString HexadecimalString DecimalN.
From Stdlib Require HexadecimalN.
From stdpp Require Import base list strings gmap sorting.

Open Scope Z_scope.

(* ================================================================== *)
(** * Part I. Definitions *)
(* ================================================================== *)

(** ** Exceptions *)

Inductive error : Type :=
| InvalidInput                 (* Error("invalid char") *)
| NotFound (c5 : string)       (* Error("KanjiVG not found ...: c5.svg") *)
| PlatformError.               (* anything raised by the DOM platform *)

Inductive exc (A : Type) : Type :=
| Throw (e : error)
| Ret (a : A).
Arguments Throw {A} e.
Arguments Ret {A} a.

#[global] Instance exc_ret : MRet exc := fun A a => Ret a.
#[global] Instance exc_bind : MBind exc := fun A B f m =>
  match m with
  | Throw e => Throw e
  | Ret a => f a
  end.

(** [try { c } catch { h }] *)
Definition try_catch {A} (c : exc A) (h : exc A) : exc A :=
  match c with
  | Throw _ => h
  | Ret a => Ret a
  end.

Definition throws {A} (c : exc A) : Prop :=
  match c with Throw _ => True | Ret _ => False end.

(** ** JavaScript values *)

Module Js.

(** Integer-valued numbers, with NaN. *)
Inductive jsnum : Type :=
| NaN
| Num (z : Z).

(** [Number.MAX_SAFE_INTEGER], 2^53 - 1: up to it a double holds every
    integer exactly, and its decimal text is the run of its digits. *)
Definition MAX_SAFE_INTEGER : Z := 9007199254740991.

(** [ToBoolean] on numbers: 0 and NaN are falsy. *)
Definition num_truthy (n : jsnum) : bool :=
  match n with
  | NaN => false
  | Num z => negb (z =? 0)
  end.

(** [a || b] on numbers. *)
Definition num_or (a b : jsnum) : jsnum := if num_truthy a then a else b.

(** [Math.max(a, b)]: NaN if either argument is NaN. *)
Definition Math_max (a b : jsnum) : jsnum :=
  match a, b with
  | Num x, Num y => Num (Z.max x y)
  | _, _ => NaN
  end.

Definition Math_min (a b : jsnum) : jsnum :=
  match a, b with
  | Num x, Num y => Num (Z.min x y)
  | _, _ => NaN
  end.

(** [a >= b] and [a <= b]: false as soon as one side is NaN. *)
Definition num_ge (a b : jsnum) : bool :=
  match a, b with
  | Num x, Num y => y <=? x
  | _, _ => false
  end.

Definition num_le (a b : jsnum) : bool := num_ge b a.

(** [string | null]; [ToBoolean] makes null and the empty string falsy. *)
Definition truthy (v : option string) : bool :=
  match v with
  | Some s => negb (String.eqb s "")
  | None => false
  end.

(** [a || b] on [string | null]. *)
Definition or_else (a b : option string) : option string :=
  if truthy a then a else b.

(** [value || dflt] where the result is used as a string. *)
Definition str_or (v : option string) (dflt : string) : string :=
  match v with
  | Some s => if String.eqb s "" then dflt else s
  | None => dflt
  end.

(** *** Decimal and hexadecimal text *)

(** [String(n)] for an integer [n]. *)
Definition String_of (z : Z) : string :=
  if z <? 0
  then String "-" (DecimalString.NilEmpty.string_of_uint (N.to_uint (Z.to_N (- z))))
  else DecimalString.NilEmpty.string_of_uint (N.to_uint (Z.to_N z)).

(** [n.toString(16)] for a non-negative integer; the digits are lower
    case already, so [.toLowerCase()] leaves them as they are. *)
Definition toString16 (z : Z) : string :=
  HexadecimalString.NilEmpty.string_of_uint (N.to_hex_uint (Z.to_N z)).

Fixpoint repeat_char (n : nat) (c : ascii) : string :=
  match n with
  | O => EmptyString
  | S k => String c (repeat_char k c)
  end.

(** [s.padStart(n, c)] *)
Definition padStart (n : nat) (c : ascii) (s : string) : string :=
  (repeat_char (n - String.length s) c ++ s)%string.

Definition isDigit (c : ascii) : bool :=
  let k := nat_of_ascii c in (48 <=? k)%nat && (k <=? 57)%nat.

(** StrWhiteSpaceChar, one byte: TAB, LF, VT, FF, CR, SP. *)
Definition isWhiteSpace1 (c : ascii) : bool :=
  let k := nat_of_ascii c in
  ((9 <=? k)%nat && (k <=? 13)%nat) || (k =? 32)%nat.

(** U+00A0 in UTF-8. *)
Definition isWhiteSpace2 (c1 c2 : ascii) : bool :=
  (nat_of_ascii c1 =? 194)%nat && (nat_of_ascii c2 =? 160)%nat.

(** U+1680, U+2000..U+200A, U+2028, U+2029, U+202F, U+205F, U+3000 and
    U+FEFF in UTF-8. *)
Definition isWhiteSpace3 (c1 c2 c3 : ascii) : bool :=
  let a := nat_of_ascii c1 in
  let b := nat_of_ascii c2 in
  let c := nat_of_ascii c3 in
  ((a =? 225) && (b =? 154) && (c =? 128))%nat
  || ((a =? 226) && (b =? 128)
      && (((128 <=? c) && (c <=? 138)) || (c =? 168) || (c =? 169) || (c =? 175)))%nat
  || ((a =? 226) && (b =? 129) && (c =? 159))%nat
  || ((a =? 227) && (b =? 128) && (c =? 128))%nat
  || ((a =? 239) && (b =? 187) && (c =? 191))%nat.

(** Leading white space is skipped by [parseInt]. *)
Fixpoint trimStart (s : string) : string :=
  match s with
  | EmptyString => s
  | String c1 r1 =>
      if isWhiteSpace1 c1 then trimStart r1
      else
        match r1 with
        | EmptyString => s
        | String c2 r2 =>
            if isWhiteSpace2 c1 c2 then trimStart r2
            else
              match r2 with
              | EmptyString => s
              | String c3 r3 =>
                  if isWhiteSpace3 c1 c2 c3 then trimStart r3 else s
              end
        end
  end.

(** The longest prefix of decimal digits. *)
Fixpoint takeDigits (s : string) : string :=
  match s with
  | EmptyString => EmptyString
  | String c r => if isDigit c then String c (takeDigits r) else EmptyString
  end.

Fixpoint allDigits (s : string) : bool :=
  match s with
  | EmptyString => true
  | String c r => isDigit c && allDigits r
  end.

(** The value of a run of digits; an empty run has no value. *)
Definition digitsValue (ds : string) : jsnum :=
  match ds with
  | EmptyString => NaN
  | _ =>
      match DecimalString.NilEmpty.uint_of_string ds with
      | Some u => Num (Z.of_N (N.of_uint u))
      | None => NaN
      end
  end.

Definition negate (n : jsnum) : jsnum :=
  match n with
  | NaN => NaN
  | Num z => Num (- z)
  end.

(** [parseInt(s, 10)]: white space, an optional sign, then the longest
    run of digits; NaN when that run is empty. *)
Definition parseInt10 (s : string) : jsnum :=
  match trimStart s with
  | String "-" r => negate (digitsValue (takeDigits r))
  | String "+" r => digitsValue (takeDigits r)
  | t => digitsValue (takeDigits t)
  end.

(** *** Strings of UTF-16 code units *)

Definition jsstring := list Z.

Definition isHighSurrogate (u : Z) : bool := (55296 <=? u) && (u <=? 56319).
Definition isLowSurrogate (u : Z) : bool := (56320 <=? u) && (u <=? 57343).

(** [s.codePointAt(0)]; [None] is [undefined]. *)
Definition codePointAt0 (s : jsstring) : option Z :=
  match s with
  | [] => None
  | hi :: rest =>
      if isHighSurrogate hi then
        match rest with
        | lo :: _ =>
            if isLowSurrogate lo
            then Some ((hi - 55296) * 1024 + (lo - 56320) + 65536)
            else Some hi
        | [] => Some hi
        end
      else Some hi
  end.

(** [[...s]]: the string split into code points, a surrogate pair
    counting for one. *)
Fixpoint codePoints (s : jsstring) : list Z :=
  match s with
  | [] => []
  | hi :: rest =>
      match rest with
      | lo :: rest' =>
          if isHighSurrogate hi && isLowSurrogate lo
          then ((hi - 55296) * 1024 + (lo - 56320) + 65536) :: codePoints rest'
          else hi :: codePoints rest
      | [] => [hi]
      end
  end.

End Js.

(** ** Documents

    What [DOMParser] returns and [XMLSerializer] consumes: a tree of elements
    and text.  A document is the list of its top-level nodes (one root
    element for a well-formed source, none once the root has been removed).
    The code mutates the tree in place; here every mutation is a function
    from the old tree to the new one. *)

Module Dom.

Definition attrs : Type := list (string * string).

#[local] Unset Elimination Schemes.
Inductive node : Type :=
| Elem (tagName : string) (attributes : attrs) (childNodes : list node)
| Text (data : string).
#[local] Set Elimination Schemes.

Definition document : Type := list node.

(** Induction with the hypothesis available for every child. *)
Fixpoint node_ind_strong (P : node → Prop)
    (HText : ∀ d, P (Text d))
    (HElem : ∀ t a ks, Forall P ks → P (Elem t a ks))
    (n : node) : P n :=
  match n with
  | Text d => HText d
  | Elem t a ks =>
      HElem t a ks
        ((fix go (l : list node) : Forall P l :=
            match l with
            | [] => @List.Forall_nil _ P
            | k :: r => @List.Forall_cons _ P k r (node_ind_strong P HText HElem k) (go r)
            end) ks)
  end.

(** *** Attributes *)

Fixpoint getAttribute (name : string) (a : attrs) : option string :=
  match a with
  | [] => None
  | (k, v) :: r => if String.eqb k name then Some v else getAttribute name r
  end.

Definition hasAttribute (name : string) (a : attrs) : bool :=
  match getAttribute name a with Some _ => true | None => false end.

(** [setAttribute]: an existing attribute keeps its place, a new one
    goes last. *)
Fixpoint setAttribute (name value : string) (a : attrs) : attrs :=
  match a with
  | [] => [(name, value)]
  | (k, v) :: r =>
      if String.eqb k name then (k, value) :: r
      else (k, v) :: setAttribute name value r
  end.

Fixpoint removeAttribute (name : string) (a : attrs) : attrs :=
  match a with
  | [] => []
  | (k, v) :: r =>
      if String.eqb k name then removeAttribute name r
      else (k, v) :: removeAttribute name r
  end.

(** *** Elements *)

Definition isElement (n : node) : bool :=
  match n with Elem _ _ _ => true | Text _ => false end.

Definition childNodes_of (n : node) : list node :=
  match n with Elem _ _ ks => ks | Text _ => [] end.

(** [el.children]: the element children, text left out. *)
Definition children_of (n : node) : list node :=
  List.filter isElement (childNodes_of n).

Definition appendChild (child : node) (n : node) : node :=
  match n with
  | Elem t a ks => Elem t a (ks ++ [child])
  | Text d => Text d
  end.

Definition appendChildren (cs : list node) (n : node) : node :=
  match n with
  | Elem t a ks => Elem t a (ks ++ cs)
  | Text d => Text d
  end.

Definition insertFirst (child : node) (n : node) : node :=
  match n with
  | Elem t a ks => Elem t a (child :: ks)
  | Text d => Text d
  end.

Definition updAttrs (f : attrs → attrs) (n : node) : node :=
  match n with
  | Elem t a ks => Elem t (f a) ks
  | Text d => Text d
  end.

(** The elements of a subtree in document order, the root first: the
    order of [querySelectorAll] and of a [TreeWalker] over elements. *)
Fixpoint elements (n : node) : list node :=
  match n with
  | Elem t a ks => Elem t a ks :: flat_map elements ks
  | Text _ => []
  end.

Definition descendants (n : node) : list node :=
  flat_map elements (childNodes_of n).

Definition doc_elements (d : document) : list node := flat_map elements d.

(** *** Selectors

    The selectors of the code are compound tests on one element: its tag
    name and its attributes. *)

Definition selector : Type := string → attrs → bool.

Definition matches (sel : selector) (n : node) : bool :=
  match n with
  | Elem t a _ => sel t a
  | Text _ => false
  end.

Definition sel_tag (name : string) : selector := fun t _ => String.eqb t name.
Definition sel_has (attr : string) : selector := fun _ a => hasAttribute attr a.
Definition sel_attr_eq (attr value : string) : selector := fun _ a =>
  match getAttribute attr a with
  | Some v => String.eqb v value
  | None => false
  end.
(** [[attr^="p"]] *)
Definition sel_attr_prefix (attr p : string) : selector := fun _ a =>
  match getAttribute attr a with
  | Some v => String.prefix p v
  | None => false
  end.
Definition sel_and (s1 s2 : selector) : selector := fun t a => s1 t a && s2 t a.
Definition sel_or (s1 s2 : selector) : selector := fun t a => s1 t a || s2 t a.

Definition querySelectorAll (sel : selector) (d : document) : list node :=
  List.filter (matches sel) (doc_elements d).

(** [el.querySelectorAll]: the descendants only. *)
Definition querySelectorAll_in (sel : selector) (n : node) : list node :=
  List.filter (matches sel) (descendants n).

Definition querySelector (sel : selector) (d : document) : option node :=
  head (querySelectorAll sel d).

(** The first match in a list of elements. *)
Definition first_match (sel : selector) (l : list node) : option node :=
  head (List.filter (matches sel) l).

Definition attributes_of (n : node) : attrs :=
  match n with Elem _ a _ => a | Text _ => [] end.

(** [display="none"] on the element itself. *)
Definition display_none (n : node) : bool :=
  match getAttribute "display" (attributes_of n) with
  | Some v => String.eqb v "none"
  | None => false
  end.

(** *** Mutations *)

(** [querySelectorAll(sel).forEach(n => n.remove())] *)
Fixpoint removeAll_node (sel : selector) (n : node) : node :=
  match n with
  | Elem t a ks =>
      Elem t a
        (flat_map (fun k => if matches sel k then [] else [removeAll_node sel k]) ks)
  | Text d => Text d
  end.

Definition removeAll (sel : selector) (d : document) : document :=
  flat_map (fun k => if matches sel k then [] else [removeAll_node sel k]) d.

(** [querySelectorAll(sel).forEach(el => ...)] where the body rewrites the
    attributes of [el] alone and the selector does not read what the body
    wrote for another element. *)
Fixpoint forEach_node (sel : selector) (f : attrs → attrs) (n : node) : node :=
  match n with
  | Elem t a ks =>
      Elem t (if sel t a then f a else a) (map (forEach_node sel f) ks)
  | Text d => Text d
  end.

Definition forEach (sel : selector) (f : attrs → attrs) (d : document) : document :=
  map (forEach_node sel f) d.

(** The same below one element, the element itself left out. *)
Definition forEach_in (sel : selector) (f : attrs → attrs) (n : node) : node :=
  match n with
  | Elem t a ks => Elem t a (map (forEach_node sel f) ks)
  | Text d => Text d
  end.

(** The first success of [g] along a list, the rest kept. *)
Definition first_upd {A} (g : A → option A) : list A → option (list A) :=
  fix go l :=
    match l with
    | [] => None
    | x :: r =>
        match g x with
        | Some x' => Some (x' :: r)
        | None => cons x <$> go r
        end
    end.

(** [const el = querySelector(sel)] followed by a mutation [f] of [el]:
    the first match in document order is replaced by its image. *)
Fixpoint update_first_node (sel : selector) (f : node → node) (n : node)
    : option node :=
  match n with
  | Elem t a ks =>
      if sel t a then Some (f (Elem t a ks))
      else Elem t a <$> first_upd (update_first_node sel f) ks
  | Text _ => None
  end.

Definition update_first (sel : selector) (f : node → node) (d : document)
    : option document :=
  first_upd (update_first_node sel f) d.

End Dom.

(** ** The platform

    [DOMParser], [XMLSerializer] and the floating-point numbers of the
    geometric parameters belong to the browser, not to the repository; the
    code is modelled over any implementation of them.  Both DOM entry points
    may raise, which is what the [try]/[catch] blocks of the code are for. *)

Class Platform : Type := {
  (** [new DOMParser().parseFromString(text, "image/svg+xml")] *)
  parseFromString : string → exc Dom.document;
  (** [new XMLSerializer().serializeToString(doc)] *)
  serializeToString : Dom.document → exc string;
  (** the numbers of translate, scale and opacity *)
  float : Type;
  float_of_Z : Z → float;
  (** [ToBoolean]: false on 0 and NaN *)
  float_truthy : float → bool;
  float_min : float → float → float;
  float_max : float → float → float;
  (** [String(x)], also what a template literal inserts *)
  float_toString : float → string
}.

(** ** src/lib/rangeStroke.ts *)

Module RangeStroke.
Import Js Dom.

Record BakedSvg : Type := { svg : string; count : Z }.

Definition DRAW_TAGS : list string :=
  ["path"; "polyline"; "line"; "circle"; "ellipse"; "rect"; "polygon"]%string.

(** [toLowerCase] on the ASCII letters.  A letter outside ASCII never
    lowers to a string made of the letters of [DRAW_TAGS], so membership
    in [DRAW_TAGS] is decided by the ASCII letters alone. *)
Definition lower_ascii (c : ascii) : ascii :=
  let k := nat_of_ascii c in
  if (65 <=? k)%nat && (k <=? 90)%nat then ascii_of_nat (k + 32) else c.

Fixpoint toLowerCase (s : string) : string :=
  match s with
  | EmptyString => EmptyString
  | String c r => String (lower_ascii c) (toLowerCase r)
  end.

Definition isDrawable (n : node) : bool :=
  match n with
  | Elem t _ _ => existsb (String.eqb (toLowerCase t)) DRAW_TAGS
  | Text _ => false
  end.

(** The longest prefix on which [p] holds, and the rest. *)
Fixpoint span {A} (p : A → bool) (l : list A) : list A * list A :=
  match l with
  | [] => ([], [])
  | x :: r =>
      if p x then let '(a, b) := span p r in (x :: a, b) else ([], l)
  end.

(** [id.match(/-s(\d+)$/)], giving the captured group [m[1]].  Read from
    the end of [id]: the digits that close it, at least one, then ["s"],
    then ["-"].  The digit run of a match is the whole final run, since
    the character before the group is ["s"]. *)
Definition match_stroke_id (id : string) : option string :=
  let '(ds, rest) := span isDigit (rev (list_ascii_of_string id)) in
  match ds, rest with
  | _ :: _, "s"%char :: "-"%char :: _ => Some (string_of_list_ascii (rev ds))
  | _, _ => None
  end.

(** [id.match(/-s(\\d+)$/)], as [countStrokes] writes it.  In a regular
    expression literal the two backslashes are one literal backslash, and
    what follows is the letter ["d"], one or more times: the identifier
    has to end in ["-s"], a backslash and a run of ["d"]; the group is the
    backslash with the run. *)
Definition match_stroke_id_escaped (id : string) : option string :=
  let '(ds, rest) :=
    span (Ascii.eqb "d"%char) (rev (list_ascii_of_string id)) in
  match ds, rest with
  | _ :: _, "\"%char :: "s"%char :: "-"%char :: _ =>
      Some (String "\"%char (string_of_list_ascii (rev ds)))
  | _, _ => None
  end.

Definition noise : selector :=
  sel_or (sel_attr_prefix "id" "kvg:StrokeNumbers_")
    (sel_or (sel_attr_prefix "id" "kvg:Numbers_")
       (sel_or (sel_attr_prefix "id" "kvg:Grid_")
          (sel_attr_prefix "id" "kvg:Guideline_"))).

Definition normalizeSvg (a : attrs) : attrs :=
  let a1 := removeAttribute "height" (removeAttribute "width" a) in
  let a2 := setAttribute "height" "100%" (setAttribute "width" "100%" a1) in
  let a3 := setAttribute "viewBox" (str_or (getAttribute "viewBox" a2) "0 0 109 109") a2 in
  setAttribute "preserveAspectRatio" "xMidYMid meet"
    (setAttribute "vector-effect" "non-scaling-stroke" a3).

(** The elements whose id ends in [-sN], with [N]. *)
Definition carrier_of (el : node) : list (Z * node) :=
  match el with
  | Elem _ a _ =>
      match match_stroke_id (str_or (getAttribute "id" a) "") with
      | Some m1 =>
          match parseInt10 m1 with
          | Num n => [(n, el)]
          | NaN => []
          end
      | None => []
      end
  | Text _ => []
  end.

Definition carriers (d : document) : list (Z * node) :=
  flat_map carrier_of (querySelectorAll (sel_has "id") d).

(** [bucket]: a [Map<number, Element>], in insertion order. *)
Definition Bucket : Type := list (Z * node).

Fixpoint bucket_get (n : Z) (b : Bucket) : option node :=
  match b with
  | [] => None
  | (k, w) :: r => if k =? n then Some w else bucket_get n r
  end.

Fixpoint bucket_set (n : Z) (w : node) (b : Bucket) : Bucket :=
  match b with
  | [] => [(n, w)]
  | (k, v) :: r => if k =? n then (k, w) :: r else (k, v) :: bucket_set n w r
  end.

Definition new_wrap (n : Z) : node :=
  Elem "g" [("data-stroke", String_of n)]%string [].

(** Every drawable of the subtree of [root], cloned into [into]. *)
Definition pushAllDrawables (root into : node) : node :=
  appendChildren (List.filter isDrawable (elements root)) into.

Definition add_carrier (b : Bucket) (c : Z * node) : Bucket :=
  let '(n, el) := c in
  let wrap := default (new_wrap n) (bucket_get n b) in
  bucket_set n (pushAllDrawables el wrap) b.

Definition fill_bucket (cs : list (Z * node)) : Bucket :=
  fold_left add_carrier cs [].

Definition strokePaths : selector := sel_attr_prefix "id" "kvg:StrokePaths_".

(** The loop over [nums]: a group that received no drawable is neither
    appended nor counted. *)
Definition emit_step (b : Bucket) (acc : node * Z) (n : Z) : node * Z :=
  let '(bakedGroup, cnt) := acc in
  match bucket_get n b with
  | Some w =>
      match childNodes_of w with
      | [] => (bakedGroup, cnt)
      | _ :: _ => (appendChild w bakedGroup, Z.max cnt n)
      end
  | None => (bakedGroup, cnt)
  end.

Definition empty_bakedGroup : node :=
  Elem "g" [("id", "__baked_strokes__")]%string [].

Definition sorted_nums (b : Bucket) : list Z := merge_sort Z.le (map fst b).

Definition emit (b : Bucket) : node * Z :=
  fold_left (emit_step b) (sorted_nums b) (empty_bakedGroup, 0).

(** [count || nums.length] *)
Definition count_or_length (cnt : Z) (nums : list Z) : Z :=
  if cnt =? 0 then Z.of_nat (length nums) else cnt.

(** The first steps of [bakeStrokes]: the noise is removed and the [svg]
    element normalized; [None] is the early return of a document without
    an [svg] element. *)
Definition bake_prepare (doc : document) : option document :=
  update_first (sel_tag "svg") (updAttrs normalizeSvg) (removeAll noise doc).

(** [bakeStrokes] between parsing and serializing.  The handle [svg] of
    the code is the first [svg] element; no step in between adds or
    removes an element or renames one, so the first [svg] element of the
    current tree is that same element throughout. *)
Definition bakeDoc (doc : document) : option (document * Z) :=
  doc2 ← bake_prepare doc;
  let b := fill_bucket (carriers doc2) in
  let doc3 := default doc2
    (update_first strokePaths (updAttrs (setAttribute "display" "none")) doc2) in
  let '(bakedGroup, cnt) := emit b in
  doc4 ← update_first (sel_tag "svg") (appendChild bakedGroup) doc3;
  Some (doc4, count_or_length cnt (sorted_nums b)).

Definition bakeStrokes `{Platform} (svgText : string) : exc BakedSvg :=
  doc ← parseFromString svgText;
  match bakeDoc doc with
  | None => Ret {| svg := svgText; count := 0 |}
  | Some (doc', c) =>
      out ← serializeToString doc';
      Ret {| svg := out; count := c |}
  end.

Definition strokeGroup : selector := sel_and (sel_tag "g") (sel_has "data-stroke").

(** The index a group carries: [parseInt(getAttribute("data-stroke") || "0", 10)] *)
Definition group_index (a : attrs) : jsnum :=
  parseInt10 (str_or (getAttribute "data-stroke" a) "0").

Definition in_range (s e : jsnum) (a : attrs) : bool :=
  num_ge (group_index a) s && num_le (group_index a) e.

Definition hide (a : attrs) : attrs := setAttribute "display" "none" a.

Definition show_in_range (s e : jsnum) (a : attrs) : attrs :=
  if in_range s e a then removeAttribute "display" a else a.

(** The two passes over [svg.querySelectorAll("g[data-stroke]")]. *)
Definition select_in (s e : jsnum) (svgEl : node) : node :=
  forEach_in strokeGroup (show_in_range s e) (forEach_in strokeGroup hide svgEl).

(** [applyRangeBaked] between parsing and serializing. *)
Definition applyRangeBakedDoc (doc : document) (start end_ : jsnum)
    : option document :=
  let s := Math_min start end_ in
  let e := Math_max start end_ in
  update_first (sel_tag "svg") (select_in s e) doc.

Definition applyRangeBaked `{Platform} (svgText : string) (start end_ : jsnum)
    : exc string :=
  doc ← parseFromString svgText;
  match applyRangeBakedDoc doc start end_ with
  | None => Ret svgText
  | Some doc' => serializeToString doc'
  end.

(** The fallback scan of [countStrokes]. *)
Definition scan_step (mx : jsnum) (el : node) : jsnum :=
  match el with
  | Elem _ a _ =>
      match match_stroke_id_escaped (str_or (getAttribute "id" a) "") with
      | Some m1 => Math_max mx (parseInt10 m1)
      | None => mx
      end
  | Text _ => mx
  end.

Definition countStrokesDoc (doc : document) : jsnum :=
  let baked := length (querySelectorAll strokeGroup doc) in
  if (0 <? baked)%nat then Num (Z.of_nat baked)
  else
    let mx := fold_left scan_step (querySelectorAll (sel_has "id") doc) (Num 0) in
    num_or mx (Num 1).

Definition countStrokes `{Platform} (svgText : string) : exc jsnum :=
  try_catch
    (doc ← parseFromString svgText; Ret (countStrokesDoc doc))
    (Ret (Num 1)).

(** *** Reading a baked document *)

(** The drawables that the carriers of index [n] contribute, in document
    order of the carriers. *)
Definition drawables_for (n : Z) (cs : list (Z * node)) : list node :=
  flat_map (fun c => if fst c =? n then List.filter isDrawable (elements (snd c)) else [])
    cs.

Definition group_for (cs : list (Z * node)) (n : Z) : node :=
  Elem "g" [("data-stroke", String_of n)]%string (drawables_for n cs).

Definition has_drawable (cs : list (Z * node)) (n : Z) : bool :=
  match drawables_for n cs with [] => false | _ :: _ => true end.

(** The largest of a list of indices, 0 for none. *)
Definition max_index (ixs : list Z) : Z := fold_left Z.max ixs 0.

(** The groups inside [__baked_strokes__], the last child of the [svg]
    element. *)
Definition bakedGroups (d : document) : list node :=
  match querySelector (sel_tag "svg") d with
  | Some svgEl =>
      match last (childNodes_of svgEl) with
      | Some g => childNodes_of g
      | None => []
      end
  | None => []
  end.

Definition stroke_index_of (g : node) : jsnum := group_index (attributes_of g).

Definition emitted_indices (d : document) : list jsnum :=
  map stroke_index_of (bakedGroups d).

(** [svg.querySelectorAll("g[data-stroke]")]: the stroke groups of a
    document, all of them, wherever they are below the [svg] element. *)
Definition strokeGroups (d : document) : list node :=
  match querySelector (sel_tag "svg") d with
  | Some svgEl => querySelectorAll_in strokeGroup svgEl
  | None => []
  end.

(** The stroke groups that are left visible: those that do not carry
    [display="none"]. *)
Definition visible_groups (d : document) : list node :=
  List.filter (fun g => negb (display_none g)) (strokeGroups d).

Definition within (s e : Z) (i : jsnum) : bool :=
  num_ge i (Num s) && num_le i (Num e).

(** The two passes of [applyRangeBaked] on the attributes of one
    element, and on a whole subtree. *)
Definition toggle (s e : jsnum) (t : string) (a : attrs) : attrs :=
  let a1 := if strokeGroup t a then hide a else a in
  if strokeGroup t a1 then show_in_range s e a1 else a1.

Fixpoint toggle_node (s e : jsnum) (n : node) : node :=
  match n with
  | Elem t a ks => Elem t (toggle s e t a) (map (toggle_node s e) ks)
  | Text d => Text d
  end.

End RangeStroke.

(** ** The application file: operations on documents *)

Module Ops.
Import Js Dom RangeStroke.

Section WithPlatform.
Context `{Platform}.

(** *** forceStrokeColor *)

Definition style_text (color : string) : string :=
  ("
      path, line, polyline {
        stroke: " ++ color ++ " !important;
        stroke-width: 3 !important;
        stroke-linecap: round !important;
        stroke-linejoin: round !important;
        fill: none !important;
        vector-effect: non-scaling-stroke;
      }
    ")%string.

Definition style_element (color : string) : node :=
  Elem "style" [] [Text (style_text color)].

(** The selector [path,polyline,line]. *)
Definition strokeLeaf : selector :=
  sel_or (sel_tag "path") (sel_or (sel_tag "polyline") (sel_tag "line")).

Definition force_attrs (color : string) (a : attrs) : attrs :=
  setAttribute "vector-effect" "non-scaling-stroke"
    (setAttribute "fill" "none"
       (setAttribute "stroke-linejoin" "round"
          (setAttribute "stroke-linecap" "round"
             (setAttribute "stroke-width" "3"
                (setAttribute "stroke" color a))))).

Definition forceStrokeColorDoc (color : string) (doc : document)
    : option document :=
  doc1 ← update_first (sel_tag "svg") (insertFirst (style_element color)) doc;
  Some (forEach strokeLeaf (force_attrs color) doc1).

Definition forceStrokeColor (svgText color : string) : exc string :=
  try_catch
    (doc ← parseFromString svgText;
     match forceStrokeColorDoc color doc with
     | None => Ret svgText
     | Some doc' => serializeToString doc'
     end)
    (Ret svgText).

(** *** applyTransform *)

(** [x || d] on the numbers of the platform. *)
Definition float_or (x d : float) : float := if float_truthy x then x else d.

Definition transform_text (x y sx sy : float) : string :=
  ("translate(" ++ float_toString (float_or x (float_of_Z 0)) ++ ","
     ++ float_toString (float_or y (float_of_Z 0)) ++ ") scale("
     ++ float_toString (float_or sx (float_of_Z 1)) ++ ","
     ++ float_toString (float_or sy (float_of_Z 1)) ++ ")")%string.

(** [keepTags.has(c.tagName.toLowerCase())] *)
Definition keepTag (c : node) : bool :=
  match c with
  | Elem t _ _ =>
      String.eqb (toLowerCase t) "style" || String.eqb (toLowerCase t) "defs"
  | Text _ => false
  end.

Definition moved (c : node) : bool := isElement c && negb (keepTag c).

(** The element children that are neither style nor defs move into the
    new group, which is appended after whatever stays. *)
Definition applyTransform_svg (x y sx sy : float) (svgEl : node) : node :=
  match svgEl with
  | Elem t a ks =>
      let g := Elem "g" [("transform", transform_text x y sx sy)]%string
                 (List.filter moved ks) in
      Elem t a (List.filter (fun c => negb (moved c)) ks ++ [g])
  | Text d => Text d
  end.

Definition applyTransformDoc (x y sx sy : float) (doc : document)
    : option document :=
  update_first (sel_tag "svg") (applyTransform_svg x y sx sy) doc.

Definition applyTransform (svgText : string) (x y sx sy : float) : exc string :=
  try_catch
    (doc ← parseFromString svgText;
     match applyTransformDoc x y sx sy doc with
     | None => Ret svgText
     | Some doc' => serializeToString doc'
     end)
    (Ret svgText).

(** *** composite *)

Definition compositeDoc (a b : document) : option document :=
  inb ← querySelector (sel_tag "svg") b;
  update_first (sel_tag "svg") (appendChildren (children_of inb)) a.

Definition composite (svgA svgB : string) : exc string :=
  if String.eqb svgA svgB then Ret svgA
  else
    a ← parseFromString svgA;
    b ← parseFromString svgB;
    match compositeDoc a b with
    | None => Ret svgA
    | Some a' => serializeToString a'
    end.

(** *** compositeAlpha *)

(** [Math.max(0, Math.min(1, v))] *)
Definition clamp (v : float) : float :=
  float_max (float_of_Z 0) (float_min (float_of_Z 1) v).

Definition opacity_group (alpha : float) (kids : list node) : node :=
  Elem "g" [("opacity", float_toString (clamp alpha))]%string kids.

(** [out] loses all its child nodes and receives the two groups. *)
Definition compositeAlpha_svg (alphaA alphaB : float) (swap : bool)
    (inb out : node) : node :=
  let gA := opacity_group alphaA (children_of out) in
  let gB := opacity_group alphaB (children_of inb) in
  match out with
  | Elem t a _ => Elem t a (if swap then [gB; gA] else [gA; gB])
  | Text d => Text d
  end.

Definition compositeAlphaDoc (aDoc bDoc : document) (alphaA alphaB : float)
    (swap : bool) : option document :=
  inb ← querySelector (sel_tag "svg") bDoc;
  update_first (sel_tag "svg") (compositeAlpha_svg alphaA alphaB swap inb) aDoc.

Definition compositeAlpha (svgA svgB : string) (alphaA alphaB : float)
    (swap : bool) : exc string :=
  aDoc ← parseFromString svgA;
  bDoc ← parseFromString svgB;
  match compositeAlphaDoc aDoc bDoc alphaA alphaB swap with
  | None => Ret svgA
  | Some aDoc' => serializeToString aDoc'
  end.

(** *** hideStrokeNumbers and annotateStrokes *)

Definition hideStrokeNumbers (svgText : string) : exc string :=
  doc ← parseFromString svgText;
  serializeToString (removeAll (sel_attr_prefix "id" "kvg:StrokeNumbers_") doc).

(** [findStrokeIndex] climbs from an element to the nearest element,
    itself included, whose id ends in [-sN], and stops below an element
    named ["SVG"].  Going down the tree instead, [near] is the answer
    for the parent: the group [m[1]] of the nearest match, if any. *)
Definition findStrokeIndex_step (near : option string) (t : string) (a : attrs)
    : option string :=
  if String.eqb t "SVG" then None
  else
    match match_stroke_id (str_or (getAttribute "id" a) "") with
    | Some m1 => Some m1
    | None => near
    end.

Definition tag_leaf (idx : option string) (a : attrs) : attrs :=
  match idx with
  | Some m1 => setAttribute "data-stroke" m1 a
  | None => setAttribute "data-ignore" "1" a
  end.

Fixpoint annotate_node (near : option string) (n : node) : node :=
  match n with
  | Elem t a ks =>
      let idx := findStrokeIndex_step near t a in
      Elem t (if strokeLeaf t a then tag_leaf idx a else a)
        (map (annotate_node idx) ks)
  | Text d => Text d
  end.

Definition annotateStrokesDoc (doc : document) : document :=
  let doc1 := removeAll noise doc in
  let doc2 := map (annotate_node None) doc1 in
  default doc2 (update_first (sel_tag "svg") (updAttrs normalizeSvg) doc2).

Definition annotateStrokes (svgText : string) : exc string :=
  doc ← parseFromString svgText;
  serializeToString (annotateStrokesDoc doc).

End WithPlatform.
End Ops.

(** ** The application file: glyph resolution *)

Module Glyph.
Import Js Dom Ops.

Definition pad5 (hex : string) : string := padStart 5 "0" hex.

(** [code5]: [!cp] holds when [codePointAt(0)] is [undefined] (the empty
    string) or 0. *)
Definition code5 (ch : jsstring) : exc string :=
  match codePointAt0 ch with
  | None => Throw InvalidInput
  | Some cp =>
      if cp =? 0 then Throw InvalidInput else Ret (pad5 (toString16 cp))
  end.

Definition githubSvgUrl (c5 : string) : string :=
  ("https://raw.githubusercontent.com/KanjiVG/kanjivg/master/kanji/" ++ c5 ++ ".svg")%string.

Definition localSvgUrl (c5 : string) : string :=
  ("/kanji/" ++ c5 ++ ".svg")%string.

(** What the network does with one request: it fails, it never answers,
    or the body of a response is complete [elapsed] milliseconds after
    the request. *)
Inductive FetchOutcome : Type :=
| NetworkError
| NoAnswer
| Response (elapsed : Z) (ok : bool) (body : string).

Definition Network : Type := string → FetchOutcome.

(** [tryFetch]: the timer aborts the request at [timeoutMs]; an abort, a
    network error and a response that is not OK all give [null]. *)
Definition tryFetch (net : Network) (url : string) (timeoutMs : Z)
    : option string :=
  match net url with
  | Response elapsed ok body =>
      if elapsed <? timeoutMs then (if ok then Some body else None) else None
  | NetworkError => None
  | NoAnswer => None
  end.

(** The two caches of the module, and the requests issued so far, each
    with the bound it was given. *)
Record GlyphState : Type := {
  svgCache : gmap string string;
  preparedCache : gmap (jsstring * bool) string;
  requests : list (string * Z)
}.

Definition initial : GlyphState :=
  {| svgCache := ∅; preparedCache := ∅; requests := [] |}.

Definition request (url : string) (timeoutMs : Z) (st : GlyphState) : GlyphState :=
  {| svgCache := svgCache st;
     preparedCache := preparedCache st;
     requests := requests st ++ [(url, timeoutMs)] |}.

Definition svgCache_set (c5 v : string) (st : GlyphState) : GlyphState :=
  {| svgCache := <[c5 := v]> (svgCache st);
     preparedCache := preparedCache st;
     requests := requests st |}.

Definition preparedCache_set (k : jsstring * bool) (v : string) (st : GlyphState)
    : GlyphState :=
  {| svgCache := svgCache st;
     preparedCache := <[k := v]> (preparedCache st);
     requests := requests st |}.

(** [if (v)] on [string | null]: the text when it is not empty. *)
Definition nonEmpty (v : option string) : option string :=
  if truthy v then v else None.

Definition fetchKanjiVGSvg (net : Network) (char : jsstring) (st : GlyphState)
    : exc string * GlyphState :=
  match code5 char with
  | Throw e => (Throw e, st)
  | Ret c5 =>
      match svgCache st !! c5 with
      | Some hit => (Ret hit, st)
      | None =>
          let st1 := request (githubSvgUrl c5) 6000 st in
          match nonEmpty (tryFetch net (githubSvgUrl c5) 6000) with
          | Some gh => (Ret gh, svgCache_set c5 gh st1)
          | None =>
              let st2 := request (localSvgUrl c5) 6000 st1 in
              match nonEmpty (tryFetch net (localSvgUrl c5) 6000) with
              | Some local => (Ret local, svgCache_set c5 local st2)
              | None => (Throw (NotFound c5), st2)
              end
          end
      end
  end.

Section WithPlatform.
Context `{Platform}.

(** The key [`${char}|${hide ? 1 : 0}`] determines the pair. *)
Definition getPreparedSvg (net : Network) (char : jsstring) (hide : bool)
    (st : GlyphState) : exc string * GlyphState :=
  match preparedCache st !! (char, hide) with
  | Some hit => (Ret hit, st)
  | None =>
      match fetchKanjiVGSvg net char st with
      | (Throw e, st1) => (Throw e, st1)
      | (Ret raw, st1) =>
          match
            (hidden ← (if hide then hideStrokeNumbers raw else Ret raw);
             annotated ← annotateStrokes hidden;
             forceStrokeColor annotated "#fff")
          with
          | Throw e => (Throw e, st1)
          | Ret white => (Ret white, preparedCache_set (char, hide) white st1)
          end
      end
  end.

(** The worker answers a [kanji] request with the annotated source, or
    with [null] when anything was raised. *)
Definition worker_kanji (net : Network) (char : jsstring) (hideNumbers : bool)
    (st : GlyphState) : option string * GlyphState :=
  match fetchKanjiVGSvg net char st with
  | (Throw _, st1) => (None, st1)
  | (Ret raw, st1) =>
      match
        (raw1 ← (if hideNumbers then hideStrokeNumbers raw else Ret raw);
         annotateStrokes raw1)
      with
      | Throw _ => (None, st1)
      | Ret out => (Some out, st1)
      end
  end.

End WithPlatform.
End Glyph.

(** ** The application file: graph evaluation *)

Module Engine.
Import Js Dom RangeStroke Ops Glyph.

(** A promise of an artifact, as the value it settles to: [Throw] when it
    is rejected, [Ret None] when it is fulfilled with [null]. *)
Definition Promise : Type := exc (option string).

Record Edge : Type := {
  source : string;
  target : string;
  targetHandle : option string       (* [None]: null or undefined *)
}.

(** What the evaluators ask of glyph resolution: the value the promise of
    [getPreparedSvg(ch, true)] settles to, and the answer of the worker
    to a [kanji] request. *)
Record GlyphOracle : Type := {
  prepared : jsstring → exc string;
  worker : jsstring → option string
}.

Section WithPlatform.
Context `{Platform}.

(** [node.data]; an absent number is [None], or NaN where the code
    passes the field through [Number] first. *)
Record NodeData : Type := {
  char : option jsstring;
  start : jsnum;
  end_ : jsnum;
  x : option float;
  y : option float;
  sx : option float;
  sy : option float;
  alphaA : option float;
  alphaB : option float;
  swap : bool
}.

Record FlowNode : Type := {
  n_id : string;
  n_type : string;
  n_data : NodeData
}.

(** The oracle of a network and of the state of the caches at the time
    of the evaluation. *)
Definition oracle_of (net : Network) (st wst : GlyphState) : GlyphOracle :=
  {| prepared := fun ch => fst (getPreparedSvg net ch true st);
     worker := fun ch => fst (worker_kanji net ch true wst) |}.

Variable oracle : GlyphOracle.
Variable nodes : list FlowNode.
Variable edges : list Edge.

(** [Object.fromEntries(nodes.map(n => [n.id, n]))[id]]: of two nodes
    with one id the later one is kept. *)
Definition byId (id : string) : option FlowNode :=
  List.find (fun n => String.eqb (n_id n) id) (rev nodes).

Definition ins (id : string) : list Edge :=
  List.filter (fun e => String.eqb (target e) id) edges.

(** [!ch] *)
Definition char_of (d : NodeData) : option jsstring :=
  match char d with
  | Some (c :: r) => Some (c :: r)
  | _ => None
  end.

Definition handle_is (h : string) (e : Edge) : bool :=
  match targetHandle e with
  | Some t => String.eqb t h
  | None => false
  end.

(** [x ?? d] *)
Definition nullish (v : option float) (d : Z) : float :=
  match v with Some f => f | None => float_of_Z d end.

(** [x || d] with [x] possibly absent *)
Definition falsy_or (v : option float) (d : Z) : float :=
  match v with Some f => float_or f (float_of_Z d) | None => float_of_Z d end.

(** *** App: evalNode

    [memo] maps a node id to a promise; a promise is represented by the
    value it settles to, [Throw] for a rejection.  Every promise of the
    table awaits promises that were stored before it was created, so
    each one settles, to the value computed here. *)

(** [handle ? e.targetHandle === handle : true] *)
Definition port (handle : option string) (e : Edge) : bool :=
  match handle with
  | Some h => handle_is h e
  | None => true
  end.

(** [getIn(handle)]: [await memo.get(edge.source)] *)
Definition getIn (memo : gmap string Promise) (id : string) (handle : option string)
    : Promise :=
  match List.find (port handle) (ins id) with
  | None => Ret None
  | Some edge => default (Ret None) (memo !! source edge)
  end.

Definition kanji_branch (d : NodeData) : Promise :=
  match char_of d with
  | None => Ret None
  | Some ch =>
      match prepared oracle ch with
      | Ret svg => Ret (Some svg)
      | Throw _ => Ret (worker oracle ch)
      end
  end.

Definition range_branch (d : NodeData) (input : option string)
    : Promise :=
  match nonEmpty input with
  | None => Ret None
  | Some text =>
      baked ← bakeStrokes text;
      let c1 := num_or (Num (count baked)) (Num 1) in
      let s := Math_max (Num 1) (Math_min (num_or (start d) (Num 1)) c1) in
      let e := Math_max (Num 1)
                 (Math_min (num_or (num_or (end_ d) (Num (count baked))) (Num 1)) c1) in
      out ← applyRangeBaked (svg baked) (Math_min s e) (Math_max s e);
      Ret (Some out)
  end.

Definition transform_branch (d : NodeData) (input : option string)
    : Promise :=
  match nonEmpty input with
  | None => Ret None
  | Some text =>
      out ← applyTransform text (falsy_or (x d) 0) (falsy_or (y d) 0)
              (falsy_or (sx d) 1) (falsy_or (sy d) 1);
      Ret (Some out)
  end.

(** [if (a && b) return compositeAlpha(a, b, alphaA, alphaB, swap);
    return a || b;] *)
Definition composite_branch (d : NodeData) (a b : option string)
    : Promise :=
  match nonEmpty a, nonEmpty b with
  | Some ta, Some tb =>
      out ← compositeAlpha ta tb (nullish (alphaA d) 1) (nullish (alphaB d) 1) (swap d);
      Ret (Some out)
  | _, _ => Ret (or_else a b)
  end.

(** The body of the promise [p] of [evalNode]. *)
Definition evalBody (memo : gmap string Promise) (id : string) (n : FlowNode)
    : Promise :=
  let d := n_data n in
  if String.eqb (n_type n) "kanji" then kanji_branch d
  else if String.eqb (n_type n) "range" then
    input ← getIn memo id None; range_branch d input
  else if String.eqb (n_type n) "transform" then
    input ← getIn memo id None; transform_branch d input
  else if String.eqb (n_type n) "composite" then
    a ← getIn memo id (Some "A"%string);
    b ← getIn memo id (Some "B"%string);
    composite_branch d a b
  else Ret None.

(** [ins(id).forEach(e => { if (!memo.has(e.source))
    memo.set(e.source, evalNode(e.source)); })] *)
Definition eval_deps
    (self : gmap string Promise → string → option (gmap string Promise * Promise))
    : list Edge → gmap string Promise → option (gmap string Promise) :=
  fix go es memo :=
    match es with
    | [] => Some memo
    | e :: r =>
        match memo !! source e with
        | Some _ => go r memo
        | None =>
            '(memo1, v) ← self memo (source e);
            go r (<[source e := v]> memo1)
        end
    end.

(** [evalNode].  The recursion of the code has no bound of its own;
    [fuel] bounds the number of nested calls and [None] says that it did
    not suffice. *)
Fixpoint evalNode (fuel : nat) (memo : gmap string Promise) (id : string)
    : option (gmap string Promise * Promise) :=
  match fuel with
  | O => None
  | S fuel' =>
      match memo !! id with
      | Some v => Some (memo, v)
      | None =>
          match byId id with
          | None => Some (memo, Ret None)
          | Some n =>
              memo1 ← eval_deps (evalNode fuel') (ins id) memo;
              let v := evalBody memo1 id n in
              Some (<[id := v]> memo1, v)
          end
      end
  end.

(** *** TransformNode and CompositeNode: evalNodeSvg

    The two components carry one copy each; the copies differ in the
    composite branch. *)

Inductive Owner : Type := InTransformNode | InCompositeNode.

(** A promise of the table is pending or settled; an evaluation settles
    or waits for ever. *)
Inductive Entry : Type := Pending | Settled (v : Promise).
Inductive Outcome : Type := Hang | Done (v : Promise).

(** [handle ? e.targetHandle === handle : !e.targetHandle] *)
Definition port_svg (handle : option string) (e : Edge) : bool :=
  match handle with
  | Some h => handle_is h e
  | None =>
      match targetHandle e with
      | Some t => String.eqb t ""
      | None => true
      end
  end.

Definition find_edge (nodeId : string) (handle : option string) : option Edge :=
  List.find (fun e => String.eqb (target e) nodeId && port_svg handle e) edges.

Definition kanji_branch_svg (d : NodeData) : Promise :=
  match char_of d with
  | None => Ret None
  | Some ch => svg ← prepared oracle ch; Ret (Some svg)
  end.

Definition range_branch_svg (d : NodeData) (input : option string)
    : Promise :=
  match nonEmpty input with
  | None => Ret None
  | Some text =>
      baked ← bakeStrokes text;
      counted ← (if num_truthy (Num (count baked)) then Ret (Num (count baked))
                 else countStrokes (svg baked));
      let maxC := num_or counted (Num 1) in
      let sRaw := num_or (start d) (Num 1) in
      let eRaw := num_or (end_ d) maxC in
      let s := Math_min (Math_max (Num 1) (Math_min sRaw eRaw)) maxC in
      let e := Math_min (Math_max (Num 1) (Math_max sRaw eRaw)) maxC in
      out ← applyRangeBaked (svg baked) s e;
      Ret (Some out)
  end.

Definition transform_branch_svg (d : NodeData) (input : option string)
    : Promise :=
  match nonEmpty input with
  | None => Ret None
  | Some text =>
      out ← applyTransform text (nullish (x d) 0) (nullish (y d) 0)
              (nullish (sx d) 1) (nullish (sy d) 1);
      Ret (Some out)
  end.

Definition composite_branch_svg (owner : Owner) (d : NodeData)
    (a b : option string) : Promise :=
  match nonEmpty a, nonEmpty b with
  | Some ta, Some tb =>
      out ← match owner with
            | InTransformNode => composite ta tb
            | InCompositeNode =>
                compositeAlpha ta tb (nullish (alphaA d) 1) (nullish (alphaB d) 1) (swap d)
            end;
      Ret (Some out)
  | _, _ => Ret (or_else a b)
  end.

(** [memo.set(id, p)] for the calls that are still running when the
    synchronous descent ends. *)
Definition register (ids : list string) (memo : gmap string Entry) : gmap string Entry :=
  foldr (fun id m => <[id := Pending]> m) memo ids.

Definition settle (nodeId : string) (v : Promise) (memo : gmap string Entry)
    : Outcome * gmap string Entry :=
  (Done v, <[nodeId := Settled v]> memo).

(** [evalNodeSvg(nodeId, depth, memo)], with [remaining = 21 - depth], so
    that [depth > 20] reads [remaining = 0].

    A call runs synchronously down the chain of first inputs: each call
    reaches [evalNodeSvg] of its input before its own [memo.set].  The
    calls of that chain are [spine]; the table does not hold them yet,
    and holds all of them, pending, once the chain suspends.  A Composite
    asks for its port B only after port A has settled, by then against
    the table with its callers in it.  Looking up a pending promise
    means awaiting a caller that awaits this call: neither settles. *)
Fixpoint evalNodeSvg (owner : Owner) (remaining : nat) (nodeId : string)
    (memo : gmap string Entry) (spine : list string) : Outcome * gmap string Entry :=
  if String.eqb nodeId "" then (Done (Ret None), memo)
  else
    match remaining with
    | O => (Done (Ret None), memo)
    | S k =>
        match memo !! nodeId with
        | Some (Settled v) => (Done v, memo)
        | Some Pending => (Hang, memo)
        | None =>
            let getIn_svg handle m sp :=
              match find_edge nodeId handle with
              | Some edge => evalNodeSvg owner k (source edge) m sp
              | None => (Done (Ret None), m)
              end in
            match byId nodeId with
            | None => settle nodeId (Ret None) memo
            | Some node =>
                let d := n_data node in
                if String.eqb (n_type node) "kanji" then
                  settle nodeId (kanji_branch_svg d) memo
                else if String.eqb (n_type node) "range" then
                  match getIn_svg None memo (nodeId :: spine) with
                  | (Hang, m1) => (Hang, m1)
                  | (Done (Throw e), m1) => settle nodeId (Throw e) m1
                  | (Done (Ret input), m1) => settle nodeId (range_branch_svg d input) m1
                  end
                else if String.eqb (n_type node) "transform" then
                  match getIn_svg None memo (nodeId :: spine) with
                  | (Hang, m1) => (Hang, m1)
                  | (Done (Throw e), m1) => settle nodeId (Throw e) m1
                  | (Done (Ret input), m1) => settle nodeId (transform_branch_svg d input) m1
                  end
                else if String.eqb (n_type node) "composite" then
                  match getIn_svg (Some "A"%string) memo (nodeId :: spine) with
                  | (Hang, m1) => (Hang, m1)
                  | (Done (Throw e), m1) => settle nodeId (Throw e) m1
                  | (Done (Ret a), m1) =>
                      match getIn_svg (Some "B"%string) (register (nodeId :: spine) m1) [] with
                      | (Hang, m2) => (Hang, m2)
                      | (Done (Throw e), m2) => settle nodeId (Throw e) m2
                      | (Done (Ret b), m2) =>
                          settle nodeId (composite_branch_svg owner d a b) m2
                      end
                  end
                else settle nodeId (Ret None) memo
            end
        end
    end.

(** [getIn(handle)] inside a call at [remaining + 1]. *)
Definition getIn_svg (owner : Owner) (remaining : nat) (nodeId : string)
    (handle : option string) (memo : gmap string Entry) (spine : list string)
    : Outcome * gmap string Entry :=
  match find_edge nodeId handle with
  | Some edge => evalNodeSvg owner remaining (source edge) memo spine
  | None => (Done (Ret None), memo)
  end.

(** Every promise of [m] is still in [m']. *)
Definition grows (m m' : gmap string Promise) : Prop :=
  ∀ k, is_Some (m !! k) → is_Some (m' !! k).

(** *** The rule of a Composite node

    [v] is what the node yields from the artifacts [a] and [b] of its
    ports, [op] being the operation on two artifacts.  An artifact is a
    text that is not empty: that is what [a && b] and [a || b] test. *)
Definition composite_rule (op : string → string → exc string)
    (a b : option string) (v : Promise) : Prop :=
  (∀ ta tb, a = Some ta → ta ≠ EmptyString → b = Some tb → tb ≠ EmptyString →
            v = (out ← op ta tb; Ret (Some out)))
  ∧ (truthy a = true → truthy b = false → v = Ret a)
  ∧ (truthy a = false → truthy b = true → v = Ret b)
  ∧ (a = None → b = None → v = Ret None).

End WithPlatform.
End Engine.

(** ** Claims in the words of the specification *)

Module Stated.
Import Js Dom RangeStroke Ops Glyph.

(** One group per distinct index found, in ascending order; the count is
    the largest index found, or the number of distinct indices when none
    is positive. *)
Definition bake_as_stated (d : document) : Prop :=
  ∀ d2 d' c, bake_prepare d = Some d2 → bakeDoc d = Some (d', c) →
    let found := merge_sort Z.le (remove_dups (map fst (carriers d2))) in
    emitted_indices d' = map Num found
    ∧ c = (if 0 <? max_index found then max_index found
           else Z.of_nat (length found)).

(** For bounds [1 ≤ s ≤ e ≤ N], exactly [e - s + 1] groups stay visible. *)
Definition range_as_stated (d : document) : Prop :=
  ∀ d' N s e r, bakeDoc d = Some (d', N) → 1 ≤ s → s ≤ e → e ≤ N →
    applyRangeBakedDoc d' (Num s) (Num e) = Some r →
    Z.of_nat (length (visible_groups r)) = e - s + 1.

(** Resolution fails with InvalidInput on every string that is not
    exactly one code point. *)
Definition resolution_as_stated (ch : jsstring) : Prop :=
  length (codePoints ch) ≠ 1%nat →
  ∀ net st, (fetchKanjiVGSvg net ch st).1 = Throw InvalidInput.

(** [doc.documentElement]: the root element. *)
Definition documentElement (d : document) : option node :=
  head (List.filter isElement d).

(** A text whose document has no root [svg] element comes back from
    [forceStrokeColor] and from [applyTransform] as it is. *)
Definition degrade_as_stated `{Platform} (svgText : string) : Prop :=
  ∀ doc, parseFromString svgText = Ret doc →
    (∀ root, documentElement doc = Some root →
             matches (sel_tag "svg") root = false) →
    ∀ color x y sx sy,
      forceStrokeColor svgText color = Ret svgText
      ∧ applyTransform svgText x y sx sy = Ret svgText.

End Stated.

(** ** Sample documents *)

Module Samples.
Import Dom.

Definition stroke (id : string) : node :=
  Elem "path" [("id", id); ("d", "M0,0")]%string [].

(** The carrier of index 2 is an empty group. *)
Definition doc_empty_carrier : document :=
  [Elem "svg" [] [stroke "kvg:x-s1"; Elem "g" [("id", "kvg:x-s2")]%string []]]%string.

(** The indices 1 and 3, without 2. *)
Definition doc_sparse : document :=
  [Elem "svg" [] [stroke "kvg:x-s1"; stroke "kvg:x-s3"]]%string.

(** The layout of a KanjiVG file, for the five strokes of U+6C38. *)
Definition doc_ei : document :=
  [Elem "svg" [("width", "109"); ("height", "109"); ("viewBox", "0 0 109 109")]
     [Elem "g" [("id", "kvg:StrokePaths_06c38")]
        [Elem "g" [("id", "kvg:06c38")]
           [stroke "kvg:06c38-s1"; stroke "kvg:06c38-s2"; stroke "kvg:06c38-s3";
            stroke "kvg:06c38-s4"; stroke "kvg:06c38-s5"]];
      Elem "g" [("id", "kvg:StrokeNumbers_06c38")]
        [Elem "text" [] [Text "1"]; Elem "text" [] [Text "2"]]]]%string.

(** *** A platform for the examples

    Documents are written out without white space; the parser knows the
    sample documents and what the pipeline of a Glyph node makes of them,
    and raises on any other text.  The numbers are the integers. *)

Definition quote : string := String (ascii_of_nat 34) EmptyString.

Fixpoint serialize_attrs (a : attrs) : string :=
  match a with
  | [] => EmptyString
  | (k, v) :: r => (" " ++ k ++ "=" ++ quote ++ v ++ quote ++ serialize_attrs r)%string
  end.

Fixpoint serialize_node (n : node) : string :=
  match n with
  | Text d => d
  | Elem t a ks =>
      ("<" ++ t ++ serialize_attrs a ++ ">"
         ++ (fix go (l : list node) : string :=
               match l with
               | [] => EmptyString
               | k :: r => (serialize_node k ++ go r)%string
               end) ks
         ++ "</" ++ t ++ ">")%string
  end.

Fixpoint serialize_doc (d : document) : string :=
  match d with
  | [] => EmptyString
  | k :: r => (serialize_node k ++ serialize_doc r)%string
  end.

Definition parse_known (known : list document) (text : string) : exc document :=
  match List.find (fun d => String.eqb (serialize_doc d) text) known with
  | Some d => Ret d
  | None => Throw PlatformError
  end.

Definition doc_ei_hidden : document :=
  removeAll (sel_attr_prefix "id" "kvg:StrokeNumbers_") doc_ei.

Definition doc_ei_annotated : document := Ops.annotateStrokesDoc doc_ei_hidden.

Definition known_docs : list document :=
  [doc_ei; doc_ei_hidden; doc_ei_annotated; doc_sparse; doc_empty_carrier].

Definition sample_platform : Platform :=
  {| parseFromString := parse_known known_docs;
     serializeToString := fun d => Ret (serialize_doc d);
     float := Z;
     float_of_Z := fun z => z;
     float_truthy := fun z => negb (Z.eqb z 0);
     float_min := Z.min;
     float_max := Z.max;
     float_toString := Js.String_of |}.

(** The primary location serves the source of U+6C38 in ten
    milliseconds; nothing else answers. *)
Definition net_ei : Glyph.Network := fun url =>
  if String.eqb url (Glyph.githubSvgUrl "06c38")
  then Glyph.Response 10 true (serialize_doc doc_ei)
  else Glyph.NoAnswer.

(** Nothing answers. *)
Definition net_down : Glyph.Network := fun _ => Glyph.NetworkError.

(** U+6C38, and U+6C38 followed by U+65E5. *)
Definition ei : Js.jsstring := [27704].
Definition ei_hi : Js.jsstring := [27704; 26085].

Section Graphs.
Context `{Platform}.

Definition no_data : Engine.NodeData :=
  {| Engine.char := None; Engine.start := Js.NaN; Engine.end_ := Js.NaN;
     Engine.x := None; Engine.y := None; Engine.sx := None; Engine.sy := None;
     Engine.alphaA := None; Engine.alphaB := None; Engine.swap := false |}.

Definition kanji_node (id : string) (ch : Js.jsstring) : Engine.FlowNode :=
  {| Engine.n_id := id; Engine.n_type := "kanji";
     Engine.n_data :=
       {| Engine.char := Some ch; Engine.start := Js.NaN; Engine.end_ := Js.NaN;
          Engine.x := None; Engine.y := None; Engine.sx := None; Engine.sy := None;
          Engine.alphaA := None; Engine.alphaB := None; Engine.swap := false |} |}.

Definition plain_node (id type : string) : Engine.FlowNode :=
  {| Engine.n_id := id; Engine.n_type := type; Engine.n_data := no_data |}.

Definition edge (from to : string) (handle : option string) : Engine.Edge :=
  {| Engine.source := from; Engine.target := to; Engine.targetHandle := handle |}.

(** Two Transform nodes, each the input of the other. *)
Definition cycle_nodes : list Engine.FlowNode :=
  [plain_node "1" "transform"; plain_node "2" "transform"].
Definition cycle_edges : list Engine.Edge :=
  [edge "2" "1" None; edge "1" "2" None].

(** A Composite node whose port B is fed by the node itself. *)
Definition loop_nodes : list Engine.FlowNode := [plain_node "3" "composite"].
Definition loop_edges : list Engine.Edge := [edge "3" "3" (Some "B"%string)].

(** A Composite node with a Glyph node on port A and nothing on B. *)
Definition half_nodes : list Engine.FlowNode :=
  [plain_node "3" "composite"; kanji_node "4" ei].
Definition half_edges : list Engine.Edge := [edge "4" "3" (Some "A"%string)].
End Graphs.

End Samples.

(** ** Further definitions: trees *)

Module Tree.
Import Dom.

(** [el.tagName] *)
Definition tagName_of (n : node) : string :=
  match n with Elem t _ _ => t | Text _ => EmptyString end.

(** An element and what an update of attributes made of it: the tag name
    the same, the attributes the same or, on a match of [sel], rewritten
    by [g]. *)
Definition retagged (sel : selector) (g : attrs → attrs) (e e' : node) : Prop :=
  isElement e' = isElement e
  ∧ tagName_of e' = tagName_of e
  ∧ (attributes_of e' = attributes_of e
     ∨ (matches sel e = true ∧ attributes_of e' = g (attributes_of e))).

End Tree.

(** ** The application file: the caches of the previews *)

Module Cache.
Import Js Dom RangeStroke Ops Glyph.

Definition byte (c : ascii) : Z := Z.of_nat (nat_of_ascii c).

(** The UTF-16 code units of a text, which [length] counts and [slice]
    cuts: one unit for a sequence of one, two or three bytes, a surrogate
    pair for a sequence of four.  Outside well-formed UTF-8 the units
    have no meaning. *)
Fixpoint utf16 (s : string) : jsstring :=
  match s with
  | EmptyString => []
  | String b0 r0 =>
      if byte b0 <? 192 then byte b0 :: utf16 r0
      else
        match r0 with
        | EmptyString => [byte b0]
        | String b1 r1 =>
            if byte b0 <? 224
            then ((byte b0 - 192) * 64 + (byte b1 - 128)) :: utf16 r1
            else
              match r1 with
              | EmptyString => [byte b0]
              | String b2 r2 =>
                  if byte b0 <? 240
                  then ((byte b0 - 224) * 4096 + (byte b1 - 128) * 64
                        + (byte b2 - 128)) :: utf16 r2
                  else
                    match r2 with
                    | EmptyString => [byte b0]
                    | String b3 r3 =>
                        let cp := (byte b0 - 240) * 262144 + (byte b1 - 128) * 4096
                                  + (byte b2 - 128) * 64 + (byte b3 - 128) in
                        (55296 + (cp - 65536) / 1024)
                          :: (56320 + (cp - 65536) mod 1024) :: utf16 r3
                    end
              end
        end
  end.

(** [base.length] and [base.slice(0, n)] *)
Definition length16 (base : string) : Z := Z.of_nat (length (utf16 base)).
Definition slice0 (n : nat) (base : string) : jsstring := take n (utf16 base).

(** [String(n)] for a number *)
Definition num_text (n : jsnum) : string :=
  match n with
  | NaN => "NaN"
  | Num z => String_of z
  end.

(** [base.length + ":" + s + "-" + e + ":" + base.slice(0, 64)] *)
Definition cacheKeyRange (base : string) (s e : jsnum) : jsstring :=
  utf16 (String_of (length16 base)) ++ utf16 ":" ++ utf16 (num_text s) ++ utf16 "-"
    ++ utf16 (num_text e) ++ utf16 ":" ++ slice0 64 base.

Section WithPlatform.
Context `{Platform}.

(** [if (hit) return hit]: an empty text in the cache does not count. *)
Definition getRangeSvgCached (base : string) (s e : jsnum)
    (rangeSvgCache : gmap jsstring string) : exc string * gmap jsstring string :=
  let k := cacheKeyRange base s e in
  match nonEmpty (rangeSvgCache !! k) with
  | Some hit => (Ret hit, rangeSvgCache)
  | None =>
      match applyRangeBaked base s e with
      | Throw err => (Throw err, rangeSvgCache)
      | Ret out => (Ret out, <[k := out]> rangeSvgCache)
      end
  end.

Definition cacheKeyTransform (base : string) (x y sx sy : float) : jsstring :=
  utf16 (String_of (length16 base)) ++ utf16 ":" ++ utf16 (float_toString x)
    ++ utf16 "," ++ utf16 (float_toString y) ++ utf16 ","
    ++ utf16 (float_toString sx) ++ utf16 "," ++ utf16 (float_toString sy)
    ++ utf16 ":" ++ slice0 64 base.

Definition getTransformSvgCached (base : string) (x y sx sy : float)
    (transformSvgCache : gmap jsstring string) : exc string * gmap jsstring string :=
  let k := cacheKeyTransform base x y sx sy in
  match nonEmpty (transformSvgCache !! k) with
  | Some hit => (Ret hit, transformSvgCache)
  | None =>
      match applyTransform base x y sx sy with
      | Throw err => (Throw err, transformSvgCache)
      | Ret out => (Ret out, <[k := out]> transformSvgCache)
      end
  end.

Definition cacheKeyComposite (a b : string) (aa ab : float) (sw : bool) : jsstring :=
  utf16 (String_of (length16 a)) ++ utf16 "|" ++ utf16 (String_of (length16 b))
    ++ utf16 "|" ++ utf16 (float_toString aa) ++ utf16 "|"
    ++ utf16 (float_toString ab) ++ utf16 "|" ++ utf16 (if sw then "1" else "0")
    ++ utf16 "|" ++ slice0 32 a ++ utf16 "|" ++ slice0 32 b.

Definition getCompositeSvgCached (a b : string) (aa ab : float) (sw : bool)
    (compositeSvgCache : gmap jsstring string) : exc string * gmap jsstring string :=
  let k := cacheKeyComposite a b aa ab sw in
  match nonEmpty (compositeSvgCache !! k) with
  | Some hit => (Ret hit, compositeSvgCache)
  | None =>
      match compositeAlpha a b aa ab sw with
      | Throw err => (Throw err, compositeSvgCache)
      | Ret out => (Ret out, <[k := out]> compositeSvgCache)
      end
  end.

End WithPlatform.
End Cache.

(** ** The application file: adding nodes *)

Module Ui.
Import Js.

(** WhiteSpace and LineTerminator, what [trim] removes. *)
Definition isTrimUnit (u : Z) : bool :=
  ((9 <=? u) && (u <=? 13)) || (u =? 32) || (u =? 160) || (u =? 5760)
  || ((8192 <=? u) && (u <=? 8202)) || (u =? 8232) || (u =? 8233)
  || (u =? 8239) || (u =? 8287) || (u =? 12288) || (u =? 65279).

Fixpoint trimStart16 (s : jsstring) : jsstring :=
  match s with
  | [] => []
  | u :: r => if isTrimUnit u then trimStart16 r else s
  end.

(** [c.trim()] *)
Definition trim (c : jsstring) : jsstring :=
  rev (trimStart16 (rev (trimStart16 c))).

(** [[...ch][0]]: the first code point of [ch] as a string; [None] is
    [undefined]. *)
Definition firstOf (ch : jsstring) : option jsstring :=
  match ch with
  | [] => None
  | hi :: rest =>
      match rest with
      | lo :: _ =>
          if isHighSurrogate hi && isLowSurrogate lo then Some [hi; lo] else Some [hi]
      | [] => Some [hi]
      end
  end.

(** The two refs of [App]. *)
Record Refs : Type := {
  idRef : Z;
  layoutRef : Z * Z
}.

(** [String(idRef.current++)] *)
Definition nextId (r : Refs) : string * Refs :=
  (String_of (idRef r), {| idRef := idRef r + 1; layoutRef := layoutRef r |}).

Definition nextPos (r : Refs) : (Z * Z) * Refs :=
  let '(x, y) := layoutRef r in
  let x1 := x + 140 in
  ((x, y),
   {| idRef := idRef r;
      layoutRef := if 800 <? x1 then (60, y + 160) else (x1, y) |}).

(** A node as it is created: its id, its type, its position and, for a
    Glyph node, its character.  The other fields of [data] are constants
    of the type of the node. *)
Record UiNode : Type := {
  u_id : string;
  u_type : string;
  u_position : Z * Z;
  u_char : option jsstring
}.

Record App : Type := {
  refs : Refs;
  nodes : list UiNode;
  previewId : option string
}.

Definition initial : App :=
  {| refs := {| idRef := 1; layoutRef := (60, 60) |}; nodes := []; previewId := None |}.

(** [const id = nextId(); setNodes(nds => [...nds, { id, type,
    position: nextPos(), data }]); setPreviewId(id);] *)
Definition addNode (type : string) (ch : option jsstring) (st : App) : App :=
  let '(id, r1) := nextId (refs st) in
  let '(pos, r2) := nextPos r1 in
  {| refs := r2;
     nodes := nodes st
                ++ [{| u_id := id; u_type := type; u_position := pos; u_char := ch |}];
     previewId := Some id |}.

Definition jsstring_eqb (a b : jsstring) : bool := bool_decide (a = b).

(** [addChar]: nothing for an input that is empty once trimmed, an
    alert and nothing else for one that is not its own first code
    point. *)
Definition addChar (c : jsstring) (st : App) : App :=
  let ch := trim c in
  match ch with
  | [] => st
  | _ :: _ =>
      match firstOf ch with
      | Some first => if jsstring_eqb first ch then addNode "kanji" (Some ch) st else st
      | None => st
      end
  end.

(** [nds.filter(n => n.id !== id)] *)
Definition deleteNode (id : string) (st : App) : App :=
  {| refs := refs st;
     nodes := List.filter (fun n => negb (String.eqb (u_id n) id)) (nodes st);
     previewId := previewId st |}.

(** Cmd/Ctrl+Z: the last node goes, and the preview follows when it
    showed that node. *)
Definition undoLast (st : App) : App :=
  match last (nodes st) with
  | None => st
  | Some removed =>
      let newNds := removelast (nodes st) in
      {| refs := refs st;
         nodes := newNds;
         previewId :=
           match previewId st with
           | Some p =>
               if String.eqb p (u_id removed) then u_id <$> last newNds else Some p
           | None => None
           end |}
  end.

(** The effect on [nodes] and [previewId]: a preview of a node that is
    gone moves to the last node. *)
Definition settlePreview (st : App) : App :=
  match previewId st with
  | None => st
  | Some p =>
      if String.eqb p "" then st
      else if existsb (fun n => String.eqb (u_id n) p) (nodes st) then st
      else {| refs := refs st; nodes := nodes st;
              previewId := u_id <$> last (nodes st) |}
  end.

Inductive Action : Type :=
| AddChar (c : jsstring)
| AddRange
| AddTransform
| AddComposite
| DeleteNode (id : string)
| Undo.

Definition step (st : App) (a : Action) : App :=
  settlePreview
    match a with
    | AddChar c => addChar c st
    | AddRange => addNode "range" None st
    | AddTransform => addNode "transform" None st
    | AddComposite => addNode "composite" None st
    | DeleteNode id => deleteNode id st
    | Undo => undoLast st
    end.

Definition run (actions : list Action) : App := fold_left step actions initial.

(** The position the call of [nextPos] number [k] returns, counting from
    0: six columns, 140 apart, and rows 160 apart. *)
Definition grid (k : Z) : Z * Z := (60 + 140 * (k mod 6), 60 + 160 * (k / 6)).

(** The guard of the Glyph component: [!char || [...String(char)].length !== 1] *)
Definition kanjiNodeRejects (ch : option jsstring) : bool :=
  match ch with
  | None => true
  | Some [] => true
  | Some (c :: r) => negb (length (codePoints (c :: r)) =? 1)%nat
  end.

(** What holds of the refs, the nodes and the preview in every state:
    the ids are the texts of increasing numbers below [idRef], the next
    position is the one of [idRef], each node was placed where its id
    says, a Glyph node passes the guard of its component, and the id of
    the preview is not the empty text. *)
Definition wellformed (s : App) : Prop :=
  (∃ ks, map u_id (nodes s) = map String_of ks
         ∧ StronglySorted Z.lt ks
         ∧ Forall (fun k => 1 ≤ k < idRef (refs s)) ks)
  ∧ 1 ≤ idRef (refs s)
  ∧ layoutRef (refs s) = grid (idRef (refs s) - 1)
  ∧ Forall (fun n => ∃ k, 1 ≤ k ∧ u_id n = String_of k ∧ u_position n = grid (k - 1))
      (nodes s)
  ∧ Forall (fun n => u_type n = "kanji"%string → kanjiNodeRejects (u_char n) = false)
      (nodes s)
  ∧ (∀ p, previewId s = Some p → p ≠ EmptyString).

End Ui.

(** ** Chains of inputs *)

Module Depth.
Import Js Engine.

Section WithPlatform.
Context `{Platform}.
Variable nodes : list FlowNode.
Variable edges : list Edge.

(** From [id], [n] input edges can be followed, each time from a
    Transform or a Range node along the edge its [getIn()] takes. *)
Fixpoint chain (n : nat) (id : string) : bool :=
  match n with
  | O => true
  | S k =>
      negb (String.eqb id "")
      && match byId nodes id, find_edge edges id None with
         | Some node, Some e =>
             (String.eqb (n_type node) "transform" || String.eqb (n_type node) "range")
             && chain k (source e)
         | _, _ => false
         end
  end.

End WithPlatform.
End Depth.

(** ** More samples *)

Module Samples2.
Import Dom Samples.

(** The bake of [doc_sparse]: two groups, of the indices 1 and 3. *)
Definition doc_sparse_baked : document :=
  match RangeStroke.bakeDoc doc_sparse with
  | Some (d', _) => d'
  | None => []
  end.

(** The platform of the examples, its parser knowing that bake too. *)
Definition sample_platform2 : Platform :=
  {| parseFromString := parse_known (known_docs ++ [doc_sparse_baked]);
     serializeToString := fun d => Ret (serialize_doc d);
     float := Z;
     float_of_Z := fun z => z;
     float_truthy := fun z => negb (Z.eqb z 0);
     float_min := Z.min;
     float_max := Z.max;
     float_toString := Js.String_of |}.

(** [doc_sparse] with other coordinates in its second path: a text of the
    same length, different from the 65th code unit on. *)
Definition doc_sparse_moved : document :=
  [Elem "svg" []
     [stroke "kvg:x-s1"; Elem "path" [("id", "kvg:x-s3"); ("d", "M9,9")]%string []]]%string.

(** U+6C38 between spaces; U+6C38 U+65E5; the pair of surrogates of
    U+20BB7. *)
Definition ei_spaced : Js.jsstring := [32; 27704; 12288].
Definition tsuchi : Js.jsstring := [55362; 57271].

Section Graphs.
Context `{Platform}.

(** A glyph under 21 Transform nodes: node [i + 1] takes its input from
    node [i]. *)
Definition tower_nodes : list Engine.FlowNode :=
  kanji_node "0" ei
    :: map (fun i => plain_node (Js.String_of (Z.of_nat i)) "transform") (seq 1 21).
Definition tower_edges : list Engine.Edge :=
  map (fun i => edge (Js.String_of (Z.of_nat i - 1)) (Js.String_of (Z.of_nat i)) None)
    (seq 1 21).

End Graphs.

(** Node 4 before node 3. *)
Definition half_rank (id : string) : nat := if String.eqb id "4" then 0 else 1.

(** The bake of the source of U+6C38, and the bake of that bake. *)
Definition doc_ei_baked : document :=
  match RangeStroke.bakeDoc doc_ei with
  | Some (d', _) => d'
  | None => []
  end.
Definition doc_ei_rebaked : document :=
  match RangeStroke.bakeDoc doc_ei_baked with
  | Some (d', _) => d'
  | None => []
  end.


(** The one code point U+0000. *)
Definition nul : Js.jsstring := [0].

(** A source of U+65E5, cut to two strokes. *)
Definition doc_hi : document :=
  [Elem "svg" [("viewBox", "0 0 109 109")]
     [Elem "g" [("id", "kvg:StrokePaths_065e5")]
        [stroke "kvg:065e5-s1"; stroke "kvg:065e5-s2"]]]%string.

(** What [getPreparedSvg] makes of a source: numbers hidden, strokes
    annotated, colour forced. *)
Definition prepared_doc (d : document) : document :=
  let annotated :=
    Ops.annotateStrokesDoc (removeAll (sel_attr_prefix "id" "kvg:StrokeNumbers_") d) in
  default annotated (Ops.forceStrokeColorDoc "#fff" annotated).

(** The error document of a parser that keeps what it has read: the
    root is not an [svg] element, and the [svg] element of the source
    follows the report of the error. *)
Definition doc_error : document :=
  [Elem "html" []
     [Elem "body" []
        [Elem "parsererror" [] [Text "error on line 1"];
         Elem "svg" [] [stroke "kvg:x-s1"]]]]%string.

(** The platform of the examples, its parser knowing the sources of the
    two characters, what the pipeline of a Glyph node makes of them, and
    the error document. *)
Definition sample_platform3 : Platform :=
  {| parseFromString :=
       parse_known
         (known_docs
            ++ [prepared_doc doc_ei; doc_hi; Ops.annotateStrokesDoc doc_hi;
                prepared_doc doc_hi; doc_error]);
     serializeToString := fun d => Ret (serialize_doc d);
     float := Z;
     float_of_Z := fun z => z;
     float_truthy := fun z => negb (Z.eqb z 0);
     float_min := Z.min;
     float_max := Z.max;
     float_toString := Js.String_of |}.

(** The primary location serves the sources of U+6C38 and U+65E5. *)
Definition net_two : Glyph.Network := fun url =>
  if String.eqb url (Glyph.githubSvgUrl "06c38")
  then Glyph.Response 10 true (serialize_doc doc_ei)
  else if String.eqb url (Glyph.githubSvgUrl "065e5")
  then Glyph.Response 10 true (serialize_doc doc_hi)
  else Glyph.NoAnswer.

Section Graphs2.
Context `{Platform}.

(** Two Glyph nodes on the ports of a Composite node whose [alphaA] is
    0, and a Transform node that takes the Composite node as its
    input. *)
Definition over_nodes : list Engine.FlowNode :=
  [kanji_node "1" ei; kanji_node "2" [26085];
   {| Engine.n_id := "3"; Engine.n_type := "composite";
      Engine.n_data :=
        {| Engine.char := None; Engine.start := Js.NaN; Engine.end_ := Js.NaN;
           Engine.x := None; Engine.y := None; Engine.sx := None; Engine.sy := None;
           Engine.alphaA := Some (float_of_Z 0); Engine.alphaB := None;
           Engine.swap := false |} |};
   plain_node "5" "transform"].
Definition over_edges : list Engine.Edge :=
  [edge "1" "3" (Some "A"%string); edge "2" "3" (Some "B"%string); edge "3" "5" None].

(** A Glyph node of U+0000 beside a Glyph node of U+6C38. *)
Definition pair_nodes : list Engine.FlowNode := [kanji_node "1" nul; kanji_node "2" ei].

End Graphs2.

End Samples2.

(** ** Tactics *)

(** The cases of a character that is a decimal digit. *)
Ltac by_digit c H :=
  destruct c as [[] [] [] [] [] [] [] []]; try discriminate H.

(* ================================================================== *)
(** * Part II. Properties *)
(* ================================================================== *)

(** ** Documents: the first match and its update *)

Section DomFacts.
Import Dom.

Lemma head_filter_app {A} (p : A → bool) (l1 l2 : list A) :
  head (List.filter p (l1 ++ l2)) =
  match head (List.filter p l1) with
  | Some x => Some x
  | None => head (List.filter p l2)
  end.
Proof.
  rewrite List.filter_app. destruct (List.filter p l1); reflexivity.
Qed.

Lemma head_filter_none {A} (p : A → bool) (l : list A) :
  head (List.filter p l) = None → List.filter p l = [].
Proof. destruct (List.filter p l); [reflexivity | discriminate]. Qed.

Lemma querySelector_matches sel d m :
  querySelector sel d = Some m → matches sel m = true.
Proof.
  unfold querySelector, querySelectorAll.
  destruct (List.filter (matches sel) (doc_elements d)) as [| x l] eqn:Hf;
    simpl; [discriminate |].
  intros [= <-].
  assert (Hin : In x (x :: l)) by (left; reflexivity).
  rewrite <- Hf in Hin. apply filter_In in Hin. tauto.
Qed.

Lemma querySelector_cons sel n r :
  querySelector sel (n :: r) =
  match first_match sel (elements n) with
  | Some x => Some x
  | None => querySelector sel r
  end.
Proof.
  unfold querySelector, querySelectorAll, doc_elements, first_match. simpl.
  apply head_filter_app.
Qed.

Lemma first_match_elem sel t a ks :
  first_match sel (elements (Elem t a ks)) =
  if sel t a then Some (Elem t a ks) else querySelector sel ks.
Proof.
  unfold first_match, querySelector, querySelectorAll, doc_elements. simpl.
  destruct (sel t a); reflexivity.
Qed.

Variable sel : selector.
Variable f : node → node.
Hypothesis f_keeps : ∀ n, matches sel n = true → matches sel (f n) = true.

(** [update_first] fails exactly when [querySelector] finds nothing, and
    otherwise the first match of the result is the image of the first
    match of the document. *)
Lemma update_first_node_spec (n : node) :
  match update_first_node sel f n with
  | Some n' =>
      ∃ m, first_match sel (elements n) = Some m
           ∧ first_match sel (elements n') = Some (f m)
  | None => first_match sel (elements n) = None
  end.
Proof.
  induction n as [d | t a ks IH] using node_ind_strong.
  - reflexivity.
  - simpl update_first_node. rewrite first_match_elem.
    destruct (sel t a) eqn:Hsel.
    + exists (Elem t a ks). split; [reflexivity |].
      pose proof (f_keeps (Elem t a ks) Hsel) as Hk.
      destruct (f (Elem t a ks)) as [t' a' ks' | ]; [| discriminate].
      rewrite first_match_elem. simpl in Hk. rewrite Hk. reflexivity.
    + assert (Hks :
        match first_upd (update_first_node sel f) ks with
        | Some ks' => ∃ m, querySelector sel ks = Some m
                           ∧ querySelector sel ks' = Some (f m)
        | None => querySelector sel ks = None
        end).
      { clear Hsel. induction IH as [| k r Hk _ IHr]; [reflexivity |].
        simpl. destruct (update_first_node sel f k) as [k' |].
        - destruct Hk as (m & H1 & H2). exists m.
          rewrite !querySelector_cons, H1, H2. split; reflexivity.
        - rewrite querySelector_cons, Hk.
          destruct (first_upd (update_first_node sel f) r) as [r' |]; simpl.
          + destruct IHr as (m & H1 & H2). exists m.
            rewrite querySelector_cons, Hk. split; assumption.
          + assumption. }
      destruct (first_upd (update_first_node sel f) ks) as [ks' |];
        cbn [fmap option_fmap option_map].
      * destruct Hks as (m & H1 & H2). exists m. split; [assumption |].
        rewrite first_match_elem, Hsel. assumption.
      * assumption.
Qed.

Lemma update_first_spec (d : document) :
  match update_first sel f d with
  | Some d' =>
      ∃ m, querySelector sel d = Some m ∧ querySelector sel d' = Some (f m)
  | None => querySelector sel d = None
  end.
Proof.
  unfold update_first. induction d as [| k r IHr]; [reflexivity |].
  simpl. pose proof (update_first_node_spec k) as Hk.
  destruct (update_first_node sel f k) as [k' |].
  - destruct Hk as (m & H1 & H2). exists m.
    rewrite !querySelector_cons, H1, H2. split; reflexivity.
  - rewrite querySelector_cons, Hk.
    destruct (first_upd (update_first_node sel f) r) as [r' |]; simpl.
    + destruct IHr as (m & H1 & H2). exists m.
      rewrite querySelector_cons, Hk. split; assumption.
    + assumption.
Qed.

End DomFacts.

(** ** Numbers and their text *)

Section NumberFacts.
Import Js.

Lemma trimStart_digit c r : isDigit c = true → trimStart (String c r) = String c r.
Proof.
  intros Hc. by_digit c Hc;
    (destruct r as [| c2 [| c3 r3]]; reflexivity).
Qed.

Lemma takeDigits_all s : allDigits s = true → takeDigits s = s.
Proof.
  induction s as [| c r IH]; [reflexivity |]. simpl.
  intros [Hc Hr]%andb_prop. rewrite Hc, IH; auto.
Qed.

Lemma uint_of_string_digits s :
  allDigits s = true → ∃ u, DecimalString.NilEmpty.uint_of_string s = Some u.
Proof.
  induction s as [| c r IH]; simpl; [eauto |].
  intros [Hc Hr]%andb_prop. destruct (IH Hr) as [u ->].
  by_digit c Hc; eexists; reflexivity.
Qed.

(** On a run of digits [parseInt] takes all of it. *)
Lemma parseInt10_digits s :
  s ≠ EmptyString → allDigits s = true →
  ∃ u, DecimalString.NilEmpty.uint_of_string s = Some u
       ∧ parseInt10 s = Num (Z.of_N (N.of_uint u)).
Proof.
  intros Hne Hs. destruct s as [| c r]; [congruence |].
  destruct (uint_of_string_digits _ Hs) as [u Hu]. exists u. split; [exact Hu |].
  pose proof Hs as Hs'. simpl in Hs'. apply andb_prop in Hs' as [Hc Hr].
  unfold parseInt10. rewrite (trimStart_digit _ _ Hc).
  assert (Hv : digitsValue (takeDigits (String c r)) = Num (Z.of_N (N.of_uint u))).
  { rewrite (takeDigits_all _ Hs). unfold digitsValue. rewrite Hu. reflexivity. }
  by_digit c Hc; exact Hv.
Qed.

Lemma allDigits_string_of_uint u :
  allDigits (DecimalString.NilEmpty.string_of_uint u) = true.
Proof. induction u; simpl; auto. Qed.

Lemma string_of_uint_nonempty u :
  u ≠ Decimal.Nil → DecimalString.NilEmpty.string_of_uint u ≠ EmptyString.
Proof. destruct u; simpl; congruence. Qed.

Lemma to_uint_nonnil n : N.to_uint n ≠ Decimal.Nil.
Proof.
  destruct n; simpl; [discriminate | apply DecimalPos.Unsigned.to_uint_nonnil].
Qed.

(** [parseInt(String(n), 10) = n] for an index. *)
Lemma parseInt10_String_of n : 0 ≤ n → parseInt10 (String_of n) = Num n.
Proof.
  intros Hn. unfold String_of.
  destruct (Z.ltb_spec n 0) as [? | _]; [lia |].
  destruct (parseInt10_digits _
              (string_of_uint_nonempty _ (to_uint_nonnil (Z.to_N n)))
              (allDigits_string_of_uint _)) as (u & Hu & ->).
  rewrite DecimalString.NilEmpty.usu in Hu. injection Hu as <-.
  rewrite DecimalN.Unsigned.of_to, Z2N.id by exact Hn. reflexivity.
Qed.

End NumberFacts.

(** ** Stroke identifiers *)

Section IdFacts.
Import Js Dom RangeStroke.

Lemma span_spec {A} (p : A → bool) (l a b : list A) :
  span p l = (a, b) → forallb p a = true ∧ l = a ++ b.
Proof.
  revert a b. induction l as [| x r IH]; intros a b; simpl.
  - intros [= <- <-]. split; reflexivity.
  - destruct (p x) eqn:Hx.
    + destruct (span p r) as [a' b'] eqn:Hs. intros [= <- <-].
      destruct (IH _ _ eq_refl) as [Ha ->]. simpl. rewrite Hx, Ha. split; reflexivity.
    + intros [= <- <-]. split; reflexivity.
Qed.

Lemma allDigits_of_list l :
  allDigits (string_of_list_ascii l) = forallb isDigit l.
Proof. induction l as [| c r IH]; simpl; [reflexivity | rewrite IH; reflexivity]. Qed.

Lemma forallb_rev {A} (p : A → bool) (l : list A) :
  forallb p (rev l) = forallb p l.
Proof.
  induction l as [| x r IH]; [reflexivity |]. simpl.
  rewrite forallb_app, IH. simpl. rewrite andb_true_r. apply andb_comm.
Qed.

Lemma string_of_list_ascii_empty l :
  string_of_list_ascii l = EmptyString → l = [].
Proof. destruct l; [reflexivity | discriminate]. Qed.

(** The group of the stroke pattern is a non-empty run of digits. *)
Lemma match_stroke_id_digits id m1 :
  match_stroke_id id = Some m1 → m1 ≠ EmptyString ∧ allDigits m1 = true.
Proof.
  unfold match_stroke_id.
  destruct (span isDigit (rev (list_ascii_of_string id))) as [ds rest] eqn:Hs.
  apply span_spec in Hs as [Hds _].
  destruct ds as [| c ds]; [discriminate |].
  destruct rest as [| c1 [| c2 rest]]; [discriminate | |].
  { destruct c1 as [[] [] [] [] [] [] [] []]; discriminate. }
  destruct c1 as [[] [] [] [] [] [] [] []]; try discriminate.
  destruct c2 as [[] [] [] [] [] [] [] []]; try discriminate.
  intros [= <-]. split.
  - intros Hm. apply string_of_list_ascii_empty in Hm.
    apply (f_equal (@length _)) in Hm.
    rewrite ?length_rev, ?length_app in Hm. simpl in Hm. lia.
  - rewrite allDigits_of_list. cbn [rev].
    simpl in Hds. apply andb_prop in Hds as [Hc Hds].
    rewrite forallb_app, forallb_rev, Hds. simpl. rewrite Hc. reflexivity.
Qed.

(** An index found by [bakeStrokes] is a natural number. *)
Lemma carrier_of_spec el n el' :
  (n, el') ∈ carrier_of el → 0 ≤ n ∧ el' = el.
Proof.
  unfold carrier_of. destruct el as [t a ks | d]; [| intros H; inversion H].
  destruct (match_stroke_id _) as [m1 |] eqn:Hm; [| intros H; inversion H].
  destruct (match_stroke_id_digits _ _ Hm) as [Hne Hd].
  destruct (parseInt10_digits _ Hne Hd) as (u & _ & ->).
  intros [= -> ->]%list_elem_of_singleton. split; [lia | reflexivity].
Qed.

Lemma carriers_nonneg d n el : (n, el) ∈ carriers d → 0 ≤ n.
Proof.
  unfold carriers. intros H. apply list_elem_of_In, in_flat_map in H as (x & _ & H).
  apply list_elem_of_In in H. apply carrier_of_spec in H. tauto.
Qed.

(** The group of the pattern of [countStrokes] starts with a backslash,
    which [parseInt] cannot read. *)
Lemma match_stroke_id_escaped_NaN id m1 :
  match_stroke_id_escaped id = Some m1 → parseInt10 m1 = NaN.
Proof.
  unfold match_stroke_id_escaped.
  destruct (span _ _) as [ds rest].
  destruct ds as [| c ds]; [discriminate |].
  destruct rest as [| c1 [| c2 [| c3 rest]]]; try discriminate.
  - destruct c1 as [[] [] [] [] [] [] [] []]; discriminate.
  - destruct c1 as [[] [] [] [] [] [] [] []]; try discriminate;
      destruct c2 as [[] [] [] [] [] [] [] []]; discriminate.
  - intros H.
    assert (∃ r, m1 = String "\"%char r) as [r ->].
    { destruct c1 as [[] [] [] [] [] [] [] []]; try discriminate;
        destruct c2 as [[] [] [] [] [] [] [] []]; try discriminate;
        destruct c3 as [[] [] [] [] [] [] [] []]; try discriminate.
      injection H as <-. eauto. }
    destruct r as [| c4 [| c5 r]]; reflexivity.
Qed.

End IdFacts.

(** ** bakeStrokes: the bucket, the emitted groups, the count *)

Section BakeFacts.
Import Js Dom RangeStroke.

Lemma bucket_get_set_eq n w b : bucket_get n (bucket_set n w b) = Some w.
Proof.
  induction b as [| [k v] r IH]; simpl.
  - rewrite Z.eqb_refl. reflexivity.
  - destruct (Z.eqb_spec k n) as [-> | Hne]; simpl.
    + rewrite Z.eqb_refl. reflexivity.
    + destruct (Z.eqb_spec k n); [congruence | exact IH].
Qed.

Lemma bucket_get_set_ne n m w b :
  n ≠ m → bucket_get m (bucket_set n w b) = bucket_get m b.
Proof.
  intros Hnm. induction b as [| [k v] r IH]; simpl.
  - destruct (Z.eqb_spec n m); [congruence | reflexivity].
  - destruct (Z.eqb_spec k n) as [-> | Hne]; simpl.
    + destruct (Z.eqb_spec n m); [congruence | reflexivity].
    + destruct (Z.eqb_spec k m); [reflexivity | exact IH].
Qed.

Lemma bucket_get_None n b : bucket_get n b = None ↔ n ∉ map fst b.
Proof.
  induction b as [| [k v] r IH]; simpl.
  - split; [intros _; apply not_elem_of_nil | reflexivity].
  - rewrite not_elem_of_cons. destruct (Z.eqb_spec k n) as [-> | Hne].
    + split; [discriminate | intros [? _]; congruence].
    + rewrite IH. split; [intros ?; split; congruence | intros [_ ?]; assumption].
Qed.

Lemma bucket_keys_set n w b :
  map fst (bucket_set n w b) =
  if decide (n ∈ map fst b) then map fst b else map fst b ++ [n].
Proof.
  induction b as [| [k v] r IH]; simpl.
  - destruct (decide (n ∈ [])) as [H | _]; [inversion H | reflexivity].
  - destruct (Z.eqb_spec k n) as [-> | Hne]; simpl.
    + destruct (decide (n ∈ n :: map fst r)) as [_ | H]; [reflexivity |].
      exfalso. apply H. left.
    + rewrite IH. destruct (decide (n ∈ map fst r)) as [Hin | Hin].
      * destruct (decide (n ∈ k :: map fst r)) as [_ | H]; [reflexivity |].
        exfalso. apply H. right. exact Hin.
      * destruct (decide (n ∈ k :: map fst r)) as [H | _]; [| reflexivity].
        apply elem_of_cons in H as [-> | H]; [congruence | contradiction].
Qed.

Lemma drawables_for_app n cs1 cs2 :
  drawables_for n (cs1 ++ cs2) = drawables_for n cs1 ++ drawables_for n cs2.
Proof. unfold drawables_for. apply flat_map_app. Qed.

Lemma drawables_for_absent n cs : n ∉ map fst cs → drawables_for n cs = [].
Proof.
  induction cs as [| [k el] r IH]; [reflexivity |]. simpl.
  intros [Hk Hr]%not_elem_of_cons.
  destruct (Z.eqb_spec k n); [congruence |]. simpl. apply IH, Hr.
Qed.

Lemma fill_bucket_snoc cs c :
  fill_bucket (cs ++ [c]) = add_carrier (fill_bucket cs) c.
Proof. unfold fill_bucket. rewrite fold_left_app. reflexivity. Qed.

(** The bucket holds, for each index found, one group with every
    drawable of the carriers of that index. *)
Lemma fill_bucket_spec cs :
  NoDup (map fst (fill_bucket cs))
  ∧ (∀ n, n ∈ map fst (fill_bucket cs) ↔ n ∈ map fst cs)
  ∧ (∀ n, n ∈ map fst cs → bucket_get n (fill_bucket cs) = Some (group_for cs n)).
Proof.
  induction cs as [| [n el] cs (Hnd & Hkeys & Hget)] using rev_ind.
  - split; [constructor |]. split; [reflexivity |]. intros n H. inversion H.
  - rewrite fill_bucket_snoc. unfold add_carrier.
    set (b := fill_bucket cs) in *.
    set (w := pushAllDrawables el (default (new_wrap n) (bucket_get n b))).
    assert (Hw : w = group_for (cs ++ [(n, el)]) n).
    { unfold w, group_for. rewrite drawables_for_app. simpl.
      rewrite Z.eqb_refl, app_nil_r.
      destruct (decide (n ∈ map fst cs)) as [Hin | Hin].
      - rewrite (Hget n Hin). reflexivity.
      - rewrite (drawables_for_absent n cs Hin).
        assert (bucket_get n b = None) as ->.
        { apply bucket_get_None. rewrite Hkeys. exact Hin. }
        reflexivity. }
    assert (Hmem : ∀ m, m ∈ map fst (bucket_set n w b) ↔ m ∈ map fst (cs ++ [(n, el)])).
    { intros m. rewrite bucket_keys_set, map_app, elem_of_app. simpl.
      rewrite list_elem_of_singleton.
      destruct (decide (n ∈ map fst b)) as [Hin | Hin].
      - rewrite Hkeys. split; [tauto |]. intros [? | ->]; [assumption |].
        apply Hkeys, Hin.
      - rewrite elem_of_app, list_elem_of_singleton, Hkeys. tauto. }
    split; [| split; [exact Hmem |]].
    + rewrite bucket_keys_set.
      destruct (decide (n ∈ map fst b)) as [_ | Hin]; [exact Hnd |].
      apply NoDup_app. split; [exact Hnd |]. split.
      * intros y Hy ->%list_elem_of_singleton. contradiction.
      * apply NoDup_singleton.
    + intros m Hm. destruct (decide (n = m)) as [<- | Hne].
      * rewrite bucket_get_set_eq, Hw. reflexivity.
      * rewrite bucket_get_set_ne by exact Hne.
        rewrite map_app in Hm. simpl in Hm.
        apply elem_of_app in Hm as [Hm | Hm%list_elem_of_singleton]; [| congruence].
        rewrite (Hget m Hm). unfold group_for. rewrite drawables_for_app. simpl.
        destruct (Z.eqb_spec n m); [congruence |]. rewrite app_nil_r. reflexivity.
Qed.

Lemma emit_fold cs b nums t a ks c0 :
  (∀ n, n ∈ nums → bucket_get n b = Some (group_for cs n)) →
  fold_left (emit_step b) nums (Elem t a ks, c0) =
  (Elem t a (ks ++ map (group_for cs) (List.filter (has_drawable cs) nums)),
   fold_left Z.max (List.filter (has_drawable cs) nums) c0).
Proof.
  revert ks c0. induction nums as [| n r IH]; intros ks c0 Hb; simpl.
  - rewrite app_nil_r. reflexivity.
  - unfold emit_step at 1. rewrite (Hb n) by left.
    change (childNodes_of (group_for cs n)) with (drawables_for n cs).
    assert (Hr : ∀ m, m ∈ r → bucket_get m b = Some (group_for cs m))
      by (intros m Hm; apply Hb; right; exact Hm).
    destruct (has_drawable cs n) eqn:Hh; unfold has_drawable in Hh;
      destruct (drawables_for n cs) as [| x xs] eqn:Hd; try discriminate Hh.
    + rewrite (IH _ _ Hr). simpl. rewrite <- app_assoc. reflexivity.
    + apply IH, Hr.
Qed.

Lemma sorted_nums_perm b : sorted_nums b ≡ₚ map fst b.
Proof. apply merge_sort_Permutation. Qed.

Lemma StronglySorted_le_lt (l : list Z) :
  StronglySorted Z.le l → NoDup l → StronglySorted Z.lt l.
Proof.
  induction 1 as [| x r Hr IH Hx]; intros Hnd; [constructor |].
  apply NoDup_cons in Hnd as [Hnx Hnd]. constructor; [apply IH, Hnd |].
  rewrite Forall_forall in Hx |- *. intros y Hy.
  specialize (Hx y Hy). assert (x ≠ y) by (intros ->; contradiction). lia.
Qed.

Lemma StronglySorted_filter_bool {A} (R : A → A → Prop) (p : A → bool) l :
  StronglySorted R l → StronglySorted R (List.filter p l).
Proof.
  induction 1 as [| x r Hr IH Hx]; simpl; [constructor |].
  destruct (p x); [| exact IH]. constructor; [exact IH |].
  rewrite Forall_forall in Hx |- *. intros y Hy%list_elem_of_In.
  apply filter_In in Hy as [Hy _]. apply Hx, list_elem_of_In, Hy.
Qed.

Lemma elem_of_filter_bool {A} (p : A → bool) (l : list A) x :
  x ∈ List.filter p l ↔ x ∈ l ∧ p x = true.
Proof. rewrite !list_elem_of_In. apply filter_In. Qed.

Lemma sorted_nums_sorted b :
  NoDup (map fst b) → StronglySorted Z.lt (sorted_nums b).
Proof.
  intros Hnd. apply StronglySorted_le_lt.
  - apply StronglySorted_merge_sort; [intros ???; lia | intros ??; lia].
  - rewrite sorted_nums_perm. exact Hnd.
Qed.

Lemma fold_max_ge l c : c ≤ fold_left Z.max l c.
Proof.
  revert c. induction l as [| x r IH]; intros c; simpl; [lia |].
  specialize (IH (Z.max c x)). lia.
Qed.

Lemma fold_max_bound l c n : n ∈ l → n ≤ fold_left Z.max l c.
Proof.
  revert c. induction l as [| x r IH]; intros c Hn; [inversion Hn |]. simpl.
  apply elem_of_cons in Hn as [-> | Hn]; [| apply IH, Hn].
  pose proof (fold_max_ge r (Z.max c x)). lia.
Qed.

Lemma fold_max_attained l c :
  fold_left Z.max l c = c ∨ fold_left Z.max l c ∈ l.
Proof.
  revert c. induction l as [| x r IH]; intros c; simpl; [left; reflexivity |].
  destruct (IH (Z.max c x)) as [-> | H]; [| right; right; exact H].
  destruct (Z.max_spec c x) as [[_ ->] | [_ ->]]; [right; left | left; reflexivity].
Qed.

(** The largest index of a list of natural numbers. *)
Lemma max_index_spec ixs :
  Forall (λ n, 0 ≤ n) ixs →
  Forall (λ n, n ≤ max_index ixs) ixs
  ∧ (ixs ≠ [] → max_index ixs ∈ ixs).
Proof.
  intros Hpos. split.
  - rewrite Forall_forall. intros n Hn. apply fold_max_bound, Hn.
  - intros Hne. destruct (fold_max_attained ixs 0) as [H0 | H]; [| exact H].
    unfold max_index. rewrite H0.
    destruct ixs as [| x r]; [congruence |].
    assert (x ≤ 0) by (rewrite <- H0; apply fold_max_bound; left).
    apply Forall_cons in Hpos as [Hx _]. assert (x = 0) as -> by lia. left.
Qed.

Lemma appendChild_keeps_svg g n :
  matches (sel_tag "svg") n = true → matches (sel_tag "svg") (appendChild g n) = true.
Proof. destruct n; simpl; auto. Qed.

Lemma updAttrs_keeps_tag f name n :
  matches (sel_tag name) n = true → matches (sel_tag name) (updAttrs f n) = true.
Proof. destruct n; simpl; auto. Qed.

(** What [bakeStrokes] returns: the [svg] element ends with the group
    [__baked_strokes__], which holds one group for each index whose
    carriers have a drawable, in ascending order of the index. *)
Lemma bakeDoc_shape d d' c :
  bakeDoc d = Some (d', c) →
  ∃ d2 t a ks,
    bake_prepare d = Some d2
    ∧ let cs := carriers d2 in
      let nums := sorted_nums (fill_bucket cs) in
      let ixs := List.filter (has_drawable cs) nums in
      querySelector (sel_tag "svg") d' =
        Some (Elem t a (ks ++ [Elem "g" [("id", "__baked_strokes__")]%string
                                 (map (group_for cs) ixs)]))
      ∧ c = count_or_length (max_index ixs) nums.
Proof.
  unfold bakeDoc. destruct (bake_prepare d) as [d2 |] eqn:Hd2; [| discriminate].
  cbn [mbind option_bind]. 
  set (cs := carriers d2). set (b := fill_bucket cs).
  destruct (fill_bucket_spec cs) as (Hnd & Hkeys & Hget). fold b in Hnd, Hkeys, Hget.
  assert (Hemit : emit b =
            (Elem "g" [("id", "__baked_strokes__")]%string
               (map (group_for cs) (List.filter (has_drawable cs) (sorted_nums b))),
             max_index (List.filter (has_drawable cs) (sorted_nums b)))).
  { unfold emit, empty_bakedGroup. rewrite (emit_fold cs); [reflexivity |].
    intros n Hn. apply Hget. rewrite <- Hkeys, <- sorted_nums_perm. exact Hn. }
  rewrite Hemit. clear Hemit.
  set (g := Elem "g" _ _).
  set (d3 := default d2 _).
  pose proof (update_first_spec (sel_tag "svg") (appendChild g)
                (appendChild_keeps_svg g) d3) as Hupd.
  destruct (update_first (sel_tag "svg") (appendChild g) d3) as [d4 |]; [| discriminate].
  cbn [mbind option_bind]. intros [= <- <-].
  destruct Hupd as (m & Hm & Hq).
  pose proof (querySelector_matches _ _ _ Hm) as Hsvg.
  destruct m as [t a ks | ?]; [| discriminate].
  exists d2, t, a, ks. split; [reflexivity |]. split; [exact Hq | reflexivity].
Qed.

Lemma bakedGroups_of_shape d t a ks ga gs :
  querySelector (sel_tag "svg") d = Some (Elem t a (ks ++ [Elem "g" ga gs])) →
  bakedGroups d = gs.
Proof.
  intros H. unfold bakedGroups. rewrite H. simpl. rewrite last_snoc. reflexivity.
Qed.

End BakeFacts.

(** ** Attributes *)

Section AttrFacts.
Import Dom.

Lemma getAttribute_set_eq k v a : getAttribute k (setAttribute k v a) = Some v.
Proof.
  induction a as [| [k' v'] r IH]; simpl.
  - rewrite String.eqb_refl. reflexivity.
  - destruct (String.eqb_spec k' k) as [-> | Hne]; simpl.
    + rewrite String.eqb_refl. reflexivity.
    + destruct (String.eqb_spec k' k); [congruence | exact IH].
Qed.

Lemma getAttribute_set_ne k k' v a :
  k ≠ k' → getAttribute k' (setAttribute k v a) = getAttribute k' a.
Proof.
  intros Hne. induction a as [| [k0 v0] r IH]; simpl.
  - destruct (String.eqb_spec k k'); [congruence | reflexivity].
  - destruct (String.eqb_spec k0 k) as [-> | Hne0]; simpl.
    + destruct (String.eqb_spec k k'); [congruence | reflexivity].
    + destruct (String.eqb_spec k0 k'); [reflexivity | exact IH].
Qed.

Lemma getAttribute_remove_eq k a : getAttribute k (removeAttribute k a) = None.
Proof.
  induction a as [| [k' v'] r IH]; simpl; [reflexivity |].
  destruct (String.eqb_spec k' k) as [-> | Hne]; [exact IH |]. simpl.
  destruct (String.eqb_spec k' k); [congruence | exact IH].
Qed.

Lemma getAttribute_remove_ne k k' a :
  k ≠ k' → getAttribute k' (removeAttribute k a) = getAttribute k' a.
Proof.
  intros Hne. induction a as [| [k0 v0] r IH]; simpl; [reflexivity |].
  destruct (String.eqb_spec k0 k) as [-> | Hne0]; simpl.
  - destruct (String.eqb_spec k k'); [congruence | exact IH].
  - destruct (String.eqb_spec k0 k'); [reflexivity | exact IH].
Qed.

Lemma elements_forEach_node sel f n :
  elements (forEach_node sel f n) = map (forEach_node sel f) (elements n).
Proof.
  induction n as [d | t a ks IH] using node_ind_strong; [reflexivity |].
  simpl. f_equal. induction IH as [| k r Hk _ IHr]; [reflexivity |].
  simpl. rewrite map_app, Hk, IHr. reflexivity.
Qed.

Lemma elements_are_elements n g : g ∈ elements n → isElement g = true.
Proof.
  induction n as [d | t a ks IH] using node_ind_strong; simpl.
  - intros H. inversion H.
  - intros [-> | H]%elem_of_cons; [reflexivity |].
    apply list_elem_of_In, in_flat_map in H as (k & Hk & Hg).
    rewrite Forall_forall in IH. apply (IH k); apply list_elem_of_In; assumption.
Qed.

End AttrFacts.

(** ** applyRangeBaked *)

Section RangeFacts.
Import Js Dom RangeStroke.

Lemma forEach_twice s e n :
  forEach_node strokeGroup (show_in_range s e) (forEach_node strokeGroup hide n)
  = toggle_node s e n.
Proof.
  induction n as [d | t a ks IH] using node_ind_strong; [reflexivity |].
  simpl. unfold toggle. f_equal. rewrite map_map.
  induction IH as [| k r Hk _ IHr]; [reflexivity |]. simpl. rewrite Hk, IHr. reflexivity.
Qed.

Lemma select_in_toggle s e t a ks :
  select_in s e (Elem t a ks) = Elem t a (map (toggle_node s e) ks).
Proof.
  unfold select_in. simpl. f_equal. rewrite map_map.
  apply map_ext. intros k. apply forEach_twice.
Qed.

Lemma elements_toggle_node s e n :
  elements (toggle_node s e n) = map (toggle_node s e) (elements n).
Proof.
  induction n as [d | t a ks IH] using node_ind_strong; [reflexivity |].
  simpl. f_equal. induction IH as [| k r Hk _ IHr]; [reflexivity |].
  simpl. rewrite map_app, Hk, IHr. reflexivity.
Qed.

Lemma group_index_hide a : group_index (hide a) = group_index a.
Proof.
  unfold group_index, hide. rewrite getAttribute_set_ne by discriminate. reflexivity.
Qed.

Lemma group_index_show a :
  group_index (removeAttribute "display" a) = group_index a.
Proof.
  unfold group_index. rewrite getAttribute_remove_ne by discriminate. reflexivity.
Qed.

Lemma strokeGroup_hide t a : strokeGroup t (hide a) = strokeGroup t a.
Proof.
  unfold strokeGroup, sel_and, sel_has, hasAttribute, hide.
  rewrite getAttribute_set_ne by discriminate. reflexivity.
Qed.

(** After the two passes a stroke group carries [display="none"] when its
    index is outside the bounds and no [display] at all when it is inside;
    its index and its being a stroke group are as before. *)
Lemma toggle_spec s e t a :
  strokeGroup t (toggle s e t a) = strokeGroup t a
  ∧ group_index (toggle s e t a) = group_index a
  ∧ (strokeGroup t a = true →
     getAttribute "display" (toggle s e t a) =
     if in_range s e a then None else Some "none"%string).
Proof.
  unfold toggle. destruct (strokeGroup t a) eqn:Hg.
  - rewrite strokeGroup_hide, Hg. unfold show_in_range.
    assert (Hr : in_range s e (hide a) = in_range s e a)
      by (unfold in_range; rewrite group_index_hide; reflexivity).
    rewrite Hr. destruct (in_range s e a).
    + split; [| split].
      * unfold strokeGroup, sel_and, sel_has, hasAttribute in *.
        rewrite getAttribute_remove_ne by discriminate.
        unfold hide. rewrite getAttribute_set_ne by discriminate. exact Hg.
      * rewrite group_index_show. apply group_index_hide.
      * intros _. apply getAttribute_remove_eq.
    + split; [| split].
      * rewrite strokeGroup_hide. exact Hg.
      * apply group_index_hide.
      * intros _. apply getAttribute_set_eq.
  - rewrite Hg. split; [exact Hg |]. split; [reflexivity | discriminate].
Qed.

End RangeFacts.

Section BakeClaims.
Import Js Dom RangeStroke Stated Samples.

Lemma carriers_index_nonneg d n : n ∈ map fst (carriers d) → 0 ≤ n.
Proof.
  intros ([n' el] & -> & Hin)%list_elem_of_fmap. simpl.
  eapply carriers_nonneg, Hin.
Qed.

Lemma sorted_nums_length cs :
  length (sorted_nums (fill_bucket cs)) = length (remove_dups (map fst cs)).
Proof.
  destruct (fill_bucket_spec cs) as (Hnd & Hkeys & _).
  apply Permutation_length. rewrite sorted_nums_perm.
  apply NoDup_Permutation; [exact Hnd | apply NoDup_remove_dups |].
  intros n. rewrite Hkeys, elem_of_remove_dups. reflexivity.
Qed.

(** The indices of the emitted groups are natural numbers in strictly
    ascending order. *)
Lemma bake_groups_and_count_aux d d' c :
  bakeDoc d = Some (d', c) → ∀ d2, bake_prepare d = Some d2 →
  let ixs := List.filter (has_drawable (carriers d2))
               (sorted_nums (fill_bucket (carriers d2))) in
  StronglySorted Z.lt ixs ∧ Forall (λ n, 0 ≤ n) ixs.
Proof.
  intros _ d2 _ ixs. destruct (fill_bucket_spec (carriers d2)) as (Hnd & Hkeys & _).
  split.
  - apply StronglySorted_filter_bool, sorted_nums_sorted, Hnd.
  - rewrite Forall_forall. intros n Hn.
    apply elem_of_filter_bool in Hn as [Hn _].
    rewrite sorted_nums_perm, Hkeys in Hn. eapply carriers_index_nonneg, Hn.
Qed.

(** C3, as amended.  For every source with an [svg] element, [bakeStrokes]
    emits exactly one group for each distinct index found whose carriers
    hold at least one drawable, tagged with the index and holding those
    drawables, in ascending order of the index; the count returned is the
    largest index among the emitted groups, or, when that is 0, the number
    of distinct indices found. *)
Theorem bake_groups_and_count (d d' : document) (c : Z) :
  bakeDoc d = Some (d', c) →
  ∃ d2 ixs,
    bake_prepare d = Some d2
    ∧ bakedGroups d' = map (group_for (carriers d2)) ixs
    ∧ StronglySorted Z.lt ixs
    ∧ (∀ n, n ∈ ixs ↔
            n ∈ map fst (carriers d2) ∧ has_drawable (carriers d2) n = true)
    ∧ Forall (λ n, 0 ≤ n ≤ max_index ixs) ixs
    ∧ (ixs ≠ [] → max_index ixs ∈ ixs)
    ∧ c = (if max_index ixs =? 0
           then Z.of_nat (length (remove_dups (map fst (carriers d2))))
           else max_index ixs).
Proof.
  intros Hb. destruct (bakeDoc_shape _ _ _ Hb) as (d2 & t & a & ks & Hd2 & Hq & Hc).
  set (cs := carriers d2) in *.
  set (ixs := List.filter (has_drawable cs) (sorted_nums (fill_bucket cs))) in *.
  destruct (fill_bucket_spec cs) as (Hnd & Hkeys & _).
  assert (Hmem : ∀ n, n ∈ ixs ↔ n ∈ map fst cs ∧ has_drawable cs n = true).
  { intros n. unfold ixs. rewrite elem_of_filter_bool, sorted_nums_perm, Hkeys.
    reflexivity. }
  assert (Hpos : Forall (λ n, 0 ≤ n) ixs).
  { rewrite Forall_forall. intros n [Hn _]%Hmem. eapply carriers_index_nonneg, Hn. }
  destruct (max_index_spec ixs Hpos) as [Hmax Hatt].
  exists d2, ixs. split; [exact Hd2 |]. split; [| split; [| split; [| split; [| split]]]].
  - eapply bakedGroups_of_shape, Hq.
  - apply StronglySorted_filter_bool, sorted_nums_sorted, Hnd.
  - exact Hmem.
  - rewrite Forall_forall in Hpos, Hmax |- *. intros n Hn.
    split; [apply Hpos, Hn | apply Hmax, Hn].
  - exact Hatt.
  - rewrite Hc. unfold count_or_length. rewrite sorted_nums_length. reflexivity.
Qed.

(** The claim holds on the five strokes of U+6C38. *)
Lemma bake_groups_and_count_witness :
  ∃ d' c, bakeDoc doc_ei = Some (d', c) ∧ c = 5
    ∧ ∃ d2 ixs,
        bake_prepare doc_ei = Some d2
        ∧ bakedGroups d' = map (group_for (carriers d2)) ixs
        ∧ StronglySorted Z.lt ixs
        ∧ (∀ n, n ∈ ixs ↔
                n ∈ map fst (carriers d2) ∧ has_drawable (carriers d2) n = true)
        ∧ Forall (λ n, 0 ≤ n ≤ max_index ixs) ixs
        ∧ (ixs ≠ [] → max_index ixs ∈ ixs)
        ∧ c = (if max_index ixs =? 0
               then Z.of_nat (length (remove_dups (map fst (carriers d2))))
               else max_index ixs).
Proof.
  eexists _, _. split; [vm_compute; reflexivity |]. split; [reflexivity |].
  apply (bake_groups_and_count doc_ei). vm_compute. reflexivity.
Defined.

(** C3 as stated fails: the carrier of index 2 holds no drawable, so no
    group is emitted for it and the count is 1, not 2. *)
Lemma bake_as_stated_fails : ¬ bake_as_stated doc_empty_carrier.
Proof.
  intros H.
  destruct (bake_prepare doc_empty_carrier) as [d2 |] eqn:H2; [| discriminate].
  destruct (bakeDoc doc_empty_carrier) as [[d' c] |] eqn:Hb; [| discriminate].
  specialize (H d2 d' c H2 Hb).
  vm_compute in H2. injection H2 as <-.
  vm_compute in Hb. injection Hb as <- <-.
  vm_compute in H. destruct H as [H _]. discriminate H.
Qed.

End BakeClaims.

Section RangeClaims.
Import Js Dom RangeStroke Stated Samples.

Lemma select_in_keeps_svg s e n :
  matches (sel_tag "svg") n = true → matches (sel_tag "svg") (select_in s e n) = true.
Proof. destruct n; simpl; auto. Qed.

Lemma String_of_nonempty n : 0 ≤ n → String_of n ≠ EmptyString.
Proof.
  intros Hn. unfold String_of. destruct (Z.ltb_spec n 0); [lia |].
  apply string_of_uint_nonempty, to_uint_nonnil.
Qed.

Lemma group_index_tagged n :
  0 ≤ n → group_index [("data-stroke", String_of n)]%string = Num n.
Proof.
  intros Hn. unfold group_index. simpl. unfold str_or.
  destruct (String.eqb_spec (String_of n) "") as [H0 | _].
  - exfalso. exact (String_of_nonempty n Hn H0).
  - apply parseInt10_String_of, Hn.
Qed.

(** An emitted group after the two passes: the index is kept, and the
    group is hidden exactly when the index is out of bounds. *)
Lemma toggle_group s e cs n :
  0 ≤ n →
  stroke_index_of (toggle_node (Num s) (Num e) (group_for cs n)) = Num n
  ∧ display_none (toggle_node (Num s) (Num e) (group_for cs n))
    = negb (within s e (Num n)).
Proof.
  intros Hn. unfold group_for. simpl toggle_node.
  set (a := [("data-stroke", String_of n)]%string).
  destruct (toggle_spec (Num s) (Num e) "g" a) as (_ & Hidx & Hdisp).
  specialize (Hdisp eq_refl).
  unfold stroke_index_of, display_none. simpl attributes_of.
  rewrite Hidx, Hdisp. unfold a at 1. rewrite group_index_tagged by exact Hn.
  split; [reflexivity |].
  unfold in_range, within. unfold a. rewrite group_index_tagged by exact Hn.
  destruct (num_ge (Num n) (Num s) && num_le (Num n) (Num e)); reflexivity.
Qed.

Lemma visible_after_toggle s e cs ixs :
  Forall (λ n, 0 ≤ n) ixs →
  map stroke_index_of
    (List.filter (λ g, negb (display_none g))
       (map (toggle_node (Num s) (Num e)) (map (group_for cs) ixs)))
  = List.filter (within s e) (map Num ixs).
Proof.
  induction 1 as [| n r Hn _ IH]; [reflexivity |]. simpl.
  destruct (toggle_group s e cs n Hn) as [Hidx Hdisp].
  change (toggle_node (Num s) (Num e) (group_for cs n)) with
    (toggle_node (Num s) (Num e) (Elem "g" [("data-stroke", String_of n)]%string
                                    (drawables_for n cs))) in *.
  simpl toggle_node in *. rewrite Hdisp, negb_involutive.
  destruct (within s e (Num n)); simpl; [rewrite Hidx |]; rewrite IH; reflexivity.
Qed.

Lemma emitted_after_bake cs ixs :
  Forall (λ n, 0 ≤ n) ixs →
  map stroke_index_of (map (group_for cs) ixs) = map Num ixs.
Proof.
  induction 1 as [| n r Hn _ IH]; [reflexivity |]. simpl. rewrite IH.
  unfold stroke_index_of at 1. simpl. rewrite group_index_tagged by exact Hn.
  reflexivity.
Qed.

(** What [applyRangeBaked] does to every stroke group below the [svg]
    element, whatever the document. *)
Lemma select_in_spec s e svgEl :
  Forall (λ g,
            matches strokeGroup g = true →
            getAttribute "display" (attributes_of g)
            = if in_range s e (attributes_of g) then None else Some "none"%string)
         (descendants (select_in s e svgEl)).
Proof.
  destruct svgEl as [t a ks | d]; [| constructor].
  rewrite select_in_toggle. unfold descendants. simpl.
  rewrite Forall_forall. intros g Hg.
  apply list_elem_of_In, in_flat_map in Hg as (k' & Hk' & Hg).
  apply in_map_iff in Hk' as (k & <- & _).
  rewrite elements_toggle_node in Hg. apply in_map_iff in Hg as (g0 & <- & Hg0).
  apply list_elem_of_In, elements_are_elements in Hg0.
  destruct g0 as [t0 a0 ks0 | ?]; [| discriminate]. simpl.
  destruct (toggle_spec s e t0 a0) as (Hsel & Hidx & Hdisp).
  rewrite Hsel. intros Hm. rewrite (Hdisp Hm).
  unfold in_range. rewrite Hidx. reflexivity.
Qed.

Lemma filter_within_Num s e ixs :
  List.filter (within s e) (map Num ixs)
  = map Num (List.filter (λ n, (s <=? n) && (n <=? e)) ixs).
Proof.
  induction ixs as [| n r IH]; [reflexivity |]. simpl.
  unfold within at 1, num_le. simpl.
  destruct ((s <=? n) && (n <=? e)); simpl; rewrite IH; reflexivity.
Qed.

Lemma StronglySorted_lt_NoDup (l : list Z) : StronglySorted Z.lt l → NoDup l.
Proof.
  induction 1 as [| x r _ IH Hx]; constructor; [| exact IH].
  intros Hin. rewrite Forall_forall in Hx. specialize (Hx x Hin). lia.
Qed.

Lemma NoDup_filter_bool {A} (p : A → bool) (l : list A) :
  NoDup l → NoDup (List.filter p l).
Proof.
  induction 1 as [| x r Hx _ IH]; simpl; [constructor |].
  destruct (p x); [| exact IH]. constructor; [| exact IH].
  rewrite elem_of_filter_bool. tauto.
Qed.

Lemma count_in_bounds s e ixs :
  NoDup ixs → s ≤ e → (∀ n, s ≤ n ≤ e → n ∈ ixs) →
  Z.of_nat (length (List.filter (λ n, (s <=? n) && (n <=? e)) ixs)) = e - s + 1.
Proof.
  intros Hnd Hse Hall.
  assert (Hp : List.filter (λ n, (s <=? n) && (n <=? e)) ixs ≡ₚ seqZ s (e - s + 1)).
  { apply NoDup_Permutation; [apply NoDup_filter_bool, Hnd | apply NoDup_seqZ |].
    intros n. rewrite elem_of_filter_bool, elem_of_seqZ, andb_true_iff.
    rewrite Z.leb_le, Z.leb_le. split; [lia |]. intros Hn. split; [apply Hall |]; lia. }
  rewrite (Permutation_length Hp), length_seqZ. lia.
Qed.

End RangeClaims.

Section RangeExamples.
Import Js Dom RangeStroke Stated Samples.

(** C4 as stated fails: with the indices 1 and 3 the count is 3, and the
    bounds 1 and 3 leave two groups visible, not three. *)
Lemma range_as_stated_fails : ¬ range_as_stated doc_sparse.
Proof.
  intros H.
  destruct (bakeDoc doc_sparse) as [[d' N] |] eqn:Hb; [| discriminate].
  destruct (applyRangeBakedDoc d' (Num 1) (Num 3)) as [r |] eqn:Hr;
    vm_compute in Hb; injection Hb as <- <-; [| discriminate].
  assert (Hb' : bakeDoc doc_sparse = Some
                  (match bakeDoc doc_sparse with Some (x, _) => x | None => [] end, 3))
    by (vm_compute; reflexivity).
  specialize (H _ 3 1 3 r Hb' ltac:(lia) ltac:(lia) ltac:(lia)).
  vm_compute in Hr. injection Hr as <-.
  specialize (H eq_refl). vm_compute in H. discriminate H.
Qed.

End RangeExamples.

(** ** The operations on documents *)

Section OpsClaims.
Import Js Dom RangeStroke Ops Samples.
Context `{Platform}.

(** C7.  [composite(A, A)] is [A] itself, whatever [A] is. *)
Theorem composite_same (svgA : string) : composite svgA svgA = Ret svgA.
Proof. unfold composite. rewrite String.eqb_refl. reflexivity. Qed.

Lemma try_catch_returns {A} (c h : exc A) (a : A) :
  h = Ret a → ∃ out, try_catch c h = Ret out.
Proof. intros ->. destruct c; simpl; eauto. Qed.

Lemma compositeAlpha_keeps_svg alphaA alphaB sw inb n :
  matches (sel_tag "svg") n = true →
  matches (sel_tag "svg") (compositeAlpha_svg alphaA alphaB sw inb n) = true.
Proof. destruct n; simpl; auto. Qed.

Lemma insertFirst_keeps_svg c n :
  matches (sel_tag "svg") n = true →
  matches (sel_tag "svg") (insertFirst c n) = true.
Proof. destruct n; simpl; auto. Qed.

Lemma applyTransform_keeps_svg x y sx sy n :
  matches (sel_tag "svg") n = true →
  matches (sel_tag "svg") (applyTransform_svg x y sx sy n) = true.
Proof. destruct n; simpl; auto. Qed.

(** C8.  With [out] the [svg] element of A and [inb] that of B,
    [compositeAlpha] puts the element children of [out] in a group of
    opacity [clamp(alphaA)], the element children of [inb], as they are,
    in a group of opacity [clamp(alphaB)], and makes these two groups the
    only children of [out]: A's group then B's, or B's then A's under
    [swap].  The text returned is the serialization of that document. *)
Theorem compositeAlpha_two_groups (svgA svgB : string) (aDoc bDoc : document)
    (alphaA alphaB : float) (sw : bool) (t : string) (a : attrs)
    (ks : list node) (inb : node) :
  parseFromString svgA = Ret aDoc →
  parseFromString svgB = Ret bDoc →
  querySelector (sel_tag "svg") aDoc = Some (Elem t a ks) →
  querySelector (sel_tag "svg") bDoc = Some inb →
  let gA := Elem "g" [("opacity", float_toString (clamp alphaA))]%string
              (List.filter isElement ks) in
  let gB := Elem "g" [("opacity", float_toString (clamp alphaB))]%string
              (children_of inb) in
  ∃ aDoc',
    compositeAlphaDoc aDoc bDoc alphaA alphaB sw = Some aDoc'
    ∧ querySelector (sel_tag "svg") aDoc'
      = Some (Elem t a (if sw then [gB; gA] else [gA; gB]))
    ∧ compositeAlpha svgA svgB alphaA alphaB sw = serializeToString aDoc'.
Proof.
  intros Ha Hb Hout Hinb gA gB.
  assert (Hdoc : ∃ aDoc',
             compositeAlphaDoc aDoc bDoc alphaA alphaB sw = Some aDoc'
             ∧ querySelector (sel_tag "svg") aDoc'
               = Some (compositeAlpha_svg alphaA alphaB sw inb (Elem t a ks))).
  { unfold compositeAlphaDoc. rewrite Hinb. cbn [mbind option_bind].
    pose proof (update_first_spec (sel_tag "svg")
                  (compositeAlpha_svg alphaA alphaB sw inb)
                  (compositeAlpha_keeps_svg _ _ _ _) aDoc) as Hupd.
    destruct (update_first _ _ aDoc) as [aDoc' |]; [| congruence].
    destruct Hupd as (m & Hm & Hq). rewrite Hout in Hm. injection Hm as <-.
    exists aDoc'. split; [reflexivity | exact Hq]. }
  destruct Hdoc as (aDoc' & Hdoc & Hq). exists aDoc'.
  split; [exact Hdoc |]. split; [exact Hq |].
  unfold compositeAlpha. rewrite Ha, Hb. cbn [mbind exc_bind].
  rewrite Hdoc. reflexivity.
Qed.

Lemma scan_stays_falsy els :
  let mx := fold_left scan_step els (Num 0) in mx = Num 0 ∨ mx = NaN.
Proof.
  assert (Hgen : ∀ m0, (m0 = Num 0 ∨ m0 = NaN) →
                       fold_left scan_step els m0 = Num 0
                       ∨ fold_left scan_step els m0 = NaN).
  { induction els as [| el r IH]; intros m0 Hm0; [exact Hm0 |]. simpl.
    apply IH. destruct el as [t a ks | d]; simpl; [| exact Hm0].
    destruct (match_stroke_id_escaped _) as [m1 |] eqn:Hm; [| exact Hm0].
    rewrite (match_stroke_id_escaped_NaN _ _ Hm).
    right. destruct m0; reflexivity. }
  apply Hgen. left. reflexivity.
Qed.

Lemma countStrokesDoc_positive doc : ∃ z, countStrokesDoc doc = Num z ∧ 1 ≤ z.
Proof.
  unfold countStrokesDoc.
  destruct (Nat.ltb_spec 0 (length (querySelectorAll strokeGroup doc))) as [Hpos | _].
  - eexists. split; [reflexivity | lia].
  - exists 1. split; [| lia].
    destruct (scan_stays_falsy (querySelectorAll (sel_has "id") doc)) as [-> | ->];
      reflexivity.
Qed.

(** C10.  [countStrokes] returns a number that is at least 1, for every
    text and whatever the parser does with it. *)
Theorem countStrokes_at_least_one (svgText : string) :
  ∃ z, countStrokes svgText = Ret (Num z) ∧ 1 ≤ z.
Proof.
  unfold countStrokes. destruct (parseFromString svgText) as [e | doc]; simpl.
  - exists 1. split; [reflexivity | lia].
  - destruct (countStrokesDoc_positive doc) as (z & -> & Hz). eauto.
Qed.

End OpsClaims.

Section OpsExamples.
Import Js Dom RangeStroke Ops Samples.

(** Two sample documents composed on the platform of the examples, with
    [alphaA = 2], clamped to 1, and [alphaB = 0]. *)
Lemma compositeAlpha_two_groups_witness :
  let svgA := serialize_doc doc_sparse in
  let svgB := serialize_doc doc_empty_carrier in
  let gA := Elem "g" [("opacity", "1")]%string
              [stroke "kvg:x-s1"; stroke "kvg:x-s3"] in
  let gB := Elem "g" [("opacity", "0")]%string
              [stroke "kvg:x-s1"; Elem "g" [("id", "kvg:x-s2")]%string []] in
  @parseFromString sample_platform svgA = Ret doc_sparse
  ∧ @parseFromString sample_platform svgB = Ret doc_empty_carrier
  ∧ ∃ aDoc',
      @compositeAlphaDoc sample_platform doc_sparse doc_empty_carrier 2 0 false
      = Some aDoc'
      ∧ querySelector (sel_tag "svg") aDoc' = Some (Elem "svg" [] [gA; gB])
      ∧ @compositeAlpha sample_platform svgA svgB 2 0 false
        = @serializeToString sample_platform aDoc'.
Proof.
  intros svgA svgB gA gB.
  split; [vm_compute; reflexivity |]. split; [vm_compute; reflexivity |].
  apply (@compositeAlpha_two_groups sample_platform svgA svgB doc_sparse
           doc_empty_carrier 2 0 false "svg" []
           [stroke "kvg:x-s1"; stroke "kvg:x-s3"]
           (Elem "svg" [] [stroke "kvg:x-s1"; Elem "g" [("id", "kvg:x-s2")]%string []]));
    vm_compute; reflexivity.
Defined.

End OpsExamples.

(** ** forceStrokeColor and applyTransform on any text *)

Section CountFacts.
Import Dom.

Lemma flat_map_filter_length {A B} (f : A → list B) (p : A → bool) (l : list A) :
  (length (flat_map f (List.filter p l))
   + length (flat_map f (List.filter (λ x, negb (p x)) l)))%nat
  = length (flat_map f l).
Proof.
  induction l as [| x l IH]; [reflexivity |].
  simpl. destruct (p x); simpl; rewrite !length_app; lia.
Qed.

Lemma first_upd_grows_by_one (F : node → option node) (l l' : list node) :
  Forall (λ k, ∀ k', F k = Some k' →
                     length (elements k') = S (length (elements k))) l →
  first_upd F l = Some l' →
  length (flat_map elements l') = S (length (flat_map elements l)).
Proof.
  intros Hall. revert l'. induction Hall as [| k r Hk _ IHr]; [discriminate |].
  intros l'. simpl. destruct (F k) as [k' |].
  - intros [= <-]. simpl. rewrite !length_app, (Hk k' eq_refl). reflexivity.
  - destruct (first_upd F r) as [r' |]; [| discriminate].
    intros [= <-]. simpl. rewrite !length_app, (IHr r' eq_refl). lia.
Qed.

Lemma update_first_node_grows_by_one sel f n n' :
  (∀ m, matches sel m = true → length (elements (f m)) = S (length (elements m))) →
  update_first_node sel f n = Some n' →
  length (elements n') = S (length (elements n)).
Proof.
  intros Hf. revert n'.
  induction n as [d | t a ks IH] using node_ind_strong; [discriminate |].
  intros n'. simpl. destruct (sel t a) eqn:Hs.
  - intros [= <-]. apply (Hf (Elem t a ks)). exact Hs.
  - destruct (first_upd (update_first_node sel f) ks) as [ks' |] eqn:Hu; [| discriminate].
    intros [= <-]. simpl. f_equal.
    apply (first_upd_grows_by_one _ _ _ IH Hu).
Qed.

(** An update of the first match that adds one element to it adds one
    element to the document. *)
Lemma update_first_grows_by_one sel f d d' :
  (∀ m, matches sel m = true → length (elements (f m)) = S (length (elements m))) →
  update_first sel f d = Some d' →
  length (doc_elements d') = S (length (doc_elements d)).
Proof.
  intros Hf. unfold update_first, doc_elements.
  apply first_upd_grows_by_one. rewrite Forall_forall. intros k _ k'.
  apply update_first_node_grows_by_one, Hf.
Qed.

Lemma forEach_node_count sel f n :
  length (elements (forEach_node sel f n)) = length (elements n).
Proof. rewrite elements_forEach_node. apply length_map. Qed.

Lemma forEach_count sel f d :
  length (doc_elements (forEach sel f d)) = length (doc_elements d).
Proof.
  unfold doc_elements, forEach. induction d as [| k r IHr]; [reflexivity |].
  simpl. rewrite !length_app, forEach_node_count, IHr. reflexivity.
Qed.

End CountFacts.

Section DegradeClaims.
Import Js Dom RangeStroke Ops Stated Samples Samples2.

Lemma insertFirst_style_count color m :
  matches (sel_tag "svg") m = true →
  length (elements (insertFirst (style_element color) m)) = S (length (elements m)).
Proof. destruct m as [t a ks |]; [reflexivity | discriminate]. Qed.

Lemma applyTransform_svg_count `{Platform} x y sx sy m :
  matches (sel_tag "svg") m = true →
  length (elements (applyTransform_svg x y sx sy m)) = S (length (elements m)).
Proof.
  destruct m as [t a ks |]; [| discriminate]. intros _. simpl.
  rewrite flat_map_app, length_app. simpl. rewrite app_nil_r. simpl.
  rewrite <- (flat_map_filter_length elements moved ks). lia.
Qed.

(** C9, as amended.  [forceStrokeColor] and [applyTransform] never raise.
    They return their input when the parser raises, when the document has
    no [svg] element at any depth, and when the serializer raises.  A
    document that has an [svg] element, as its root or below another
    element, is changed, one element being added to it, and the text
    returned is the serialization of the changed document. *)
Theorem operations_degrade `{Platform} (svgText color : string) (x y sx sy : float) :
  (∃ out, forceStrokeColor svgText color = Ret out)
  ∧ (∃ out, applyTransform svgText x y sx sy = Ret out)
  ∧ (∀ e, parseFromString svgText = Throw e →
          forceStrokeColor svgText color = Ret svgText
          ∧ applyTransform svgText x y sx sy = Ret svgText)
  ∧ (∀ doc, parseFromString svgText = Ret doc →
       (querySelector (sel_tag "svg") doc = None →
        forceStrokeColor svgText color = Ret svgText
        ∧ applyTransform svgText x y sx sy = Ret svgText)
       ∧ (∀ m, querySelector (sel_tag "svg") doc = Some m →
            ∃ d1 d2,
              forceStrokeColorDoc color doc = Some d1
              ∧ applyTransformDoc x y sx sy doc = Some d2
              ∧ length (doc_elements d1) = S (length (doc_elements doc))
              ∧ length (doc_elements d2) = S (length (doc_elements doc))
              ∧ forceStrokeColor svgText color
                = try_catch (serializeToString d1) (Ret svgText)
              ∧ applyTransform svgText x y sx sy
                = try_catch (serializeToString d2) (Ret svgText))).
Proof.
  split; [eapply try_catch_returns; reflexivity |].
  split; [eapply try_catch_returns; reflexivity |].
  unfold forceStrokeColor, applyTransform, forceStrokeColorDoc, applyTransformDoc.
  split.
  { intros e ->. split; reflexivity. }
  intros doc ->. cbn [mbind exc_bind].
  pose proof (update_first_spec (sel_tag "svg") (insertFirst (style_element color))
                (insertFirst_keeps_svg _) doc) as H1.
  pose proof (update_first_spec (sel_tag "svg") (applyTransform_svg x y sx sy)
                (applyTransform_keeps_svg _ _ _ _) doc) as H2.
  destruct (update_first _ (insertFirst _) doc) as [d1 |] eqn:Hu1;
    destruct (update_first _ (applyTransform_svg _ _ _ _) doc) as [d2 |] eqn:Hu2.
  - split.
    + destruct H1 as (m & Hm & _). intros Hnone. congruence.
    + intros m _. cbn [mbind option_bind].
      exists (forEach strokeLeaf (force_attrs color) d1), d2.
      split; [reflexivity |]. split; [reflexivity |].
      split; [| split; [| split; reflexivity]].
      * rewrite forEach_count.
        apply (update_first_grows_by_one _ _ _ _ (insertFirst_style_count color) Hu1).
      * apply (update_first_grows_by_one _ _ _ _ (applyTransform_svg_count x y sx sy) Hu2).
  - destruct H1 as (m & Hm & _). congruence.
  - destruct H2 as (m & Hm & _). congruence.
  - split; [intros _; split; reflexivity |].
    intros m Hm. congruence.
Qed.

(** A text the parser of the examples rejects comes back as it is. *)
Lemma operations_degrade_witness :
  @parseFromString sample_platform "<svg" = Throw PlatformError
  ∧ @forceStrokeColor sample_platform "<svg" "#fff" = Ret "<svg"%string
  ∧ @applyTransform sample_platform "<svg" 3 4 1 1 = Ret "<svg"%string.
Proof.
  split; [vm_compute; reflexivity |].
  apply (@operations_degrade sample_platform "<svg" "#fff" 3 4 1 1) with (e := PlatformError).
  vm_compute. reflexivity.
Defined.

(** C9 as stated fails.  The root of the error document is not an [svg]
    element, and the document holds one: [forceStrokeColor] and
    [applyTransform] do not return the text, they return the document
    with a [style] element, or a group, added to that [svg] element. *)
Lemma degrade_as_stated_fails :
  ¬ @degrade_as_stated sample_platform3 (serialize_doc doc_error).
Proof.
  intros Hs.
  specialize (Hs doc_error ltac:(vm_compute; reflexivity)).
  assert (Hroot : ∀ root, documentElement doc_error = Some root →
                          matches (sel_tag "svg") root = false).
  { intros root [= <-]. reflexivity. }
  destruct (Hs Hroot "#fff"%string 3 4 1 1) as [Hf _].
  vm_compute in Hf. discriminate Hf.
Qed.

End DegradeClaims.

(** ** Glyph resolution *)

Section GlyphClaims.
Import Js Glyph Samples Samples2.

Lemma nonEmpty_None v : v = None → nonEmpty v = None.
Proof. intros ->. reflexivity. Qed.

Lemma nonEmpty_Some v t : nonEmpty v = Some t → v = Some t ∧ t ≠ EmptyString.
Proof.
  unfold nonEmpty, truthy. destruct v as [s |]; [| discriminate].
  destruct (String.eqb_spec s ""); simpl; [discriminate |].
  intros [= <-]. split; [reflexivity | assumption].
Qed.










End GlyphClaims.

(** ** Graph evaluation *)

Section EngineFacts.
Import Js Dom RangeStroke Ops Glyph Engine.
Context `{Platform}.
Variable oracle : GlyphOracle.
Variable nodes : list FlowNode.
Variable edges : list Edge.

Lemma grows_refl m : grows m m.
Proof. intros k Hk. exact Hk. Qed.

Lemma grows_insert m k v : grows m (<[k := v]> m).
Proof.
  intros j Hj. destruct (decide (k = j)) as [-> | Hne].
  - rewrite lookup_insert_eq. eauto.
  - rewrite lookup_insert_ne by exact Hne. exact Hj.
Qed.

Lemma grows_trans m1 m2 m3 : grows m1 m2 → grows m2 m3 → grows m1 m3.
Proof. intros H12 H23 k Hk. apply H23, H12, Hk. Qed.

(** Once the inputs have been started the table holds a promise for the
    source of every incoming edge. *)
Lemma eval_deps_covers self :
  (∀ m i m' v, self m i = Some (m', v) → grows m m') →
  ∀ es (memo memo1 : gmap string Promise),
    eval_deps self es memo = Some memo1 →
    grows memo memo1 ∧ ∀ e, e ∈ es → is_Some (memo1 !! source e).
Proof.
  intros Hself es. induction es as [| e r IH]; intros memo memo1; simpl.
  - intros [= <-]. split; [apply grows_refl |]. intros e He. inversion He.
  - destruct (memo !! source e) as [w |] eqn:Hw.
    + intros Hr. destruct (IH _ _ Hr) as [Hg Hcov]. split; [exact Hg |].
      intros e' [-> | He']%elem_of_cons; [| apply Hcov, He'].
      apply Hg. rewrite Hw. eauto.
    + destruct (self memo (source e)) as [[m1 v] |] eqn:Hs; [| discriminate].
      cbn [mbind option_bind]. intros Hr. destruct (IH _ _ Hr) as [Hg Hcov].
      split.
      * eapply grows_trans; [| exact Hg].
        eapply grows_trans; [eapply Hself, Hs | apply grows_insert].
      * intros e' [-> | He']%elem_of_cons; [| apply Hcov, He'].
        apply Hg. rewrite lookup_insert_eq. eauto.
Qed.

Lemma evalNode_grows fuel :
  ∀ m i m' v, evalNode oracle nodes edges fuel m i = Some (m', v) → grows m m'.
Proof.
  induction fuel as [| fuel IH]; intros m i m' v; simpl; [discriminate |].
  destruct (m !! i) as [w |]; [intros [= <- _]; apply grows_refl |].
  destruct (byId nodes i) as [n |]; [| intros [= <- _]; apply grows_refl].
  destruct (eval_deps _ _ m) as [m1 |] eqn:Hd; [| discriminate].
  cbn [mbind option_bind]. intros [= <- _].
  destruct (eval_deps_covers _ IH _ _ _ Hd) as [Hg _].
  eapply grows_trans; [exact Hg | apply grows_insert].
Qed.

Lemma or_else_left a b : truthy a = true → or_else a b = a.
Proof. unfold or_else. intros ->. reflexivity. Qed.

Lemma or_else_right a b : truthy a = false → or_else a b = b.
Proof. unfold or_else. intros ->. reflexivity. Qed.

Lemma nonEmpty_truthy a : truthy a = true → nonEmpty a = a.
Proof. unfold nonEmpty. intros ->. reflexivity. Qed.

Lemma nonEmpty_falsy a : truthy a = false → nonEmpty a = None.
Proof. unfold nonEmpty. intros ->. reflexivity. Qed.

Lemma truthy_text t : t ≠ EmptyString → truthy (Some t) = true.
Proof. intros Ht. simpl. destruct (String.eqb_spec t ""); [contradiction | reflexivity]. Qed.

Lemma rule_of_branches (op : string → string → exc string) a b v :
  v = match nonEmpty a, nonEmpty b with
      | Some ta, Some tb => out ← op ta tb; Ret (Some out)
      | _, _ => Ret (or_else a b)
      end →
  composite_rule op a b v.
Proof.
  intros ->. repeat split.
  - intros ta tb -> Hta -> Htb.
    rewrite !nonEmpty_truthy by (apply truthy_text; assumption). reflexivity.
  - intros Ha Hb. rewrite (nonEmpty_falsy b Hb), (or_else_left _ _ Ha).
    destruct (nonEmpty a); reflexivity.
  - intros Ha Hb. rewrite (nonEmpty_falsy a Ha), (or_else_right _ _ Ha). reflexivity.
  - intros -> ->. reflexivity.
Qed.

End EngineFacts.

Section EngineClaims.
Import Js Dom RangeStroke Ops Glyph Engine Samples.
Context `{Platform}.
Variable oracle : GlyphOracle.
Variable nodes : list FlowNode.
Variable edges : list Edge.

(** X24.  A Composite node, in the evaluation pass of the application and
    in the copy of [evalNodeSvg] of the Composite component: with an artifact on both ports
    the result is [compositeAlpha] of the two; with an artifact on one port
    only it is that artifact; with none it is [null].  The artifacts are
    what the promises of the sources of ports A and B settle to. *)
Theorem composite_node_rule (id : string) (node : FlowNode) :
  byId nodes id = Some node →
  n_type node = "composite"%string →
  let d := n_data node in
  let alpha ta tb :=
    compositeAlpha ta tb (nullish (alphaA d) 1) (nullish (alphaB d) 1) (swap d) in
  (∀ fuel (memo memo' : gmap string Promise) v,
     memo !! id = None →
     evalNode oracle nodes edges fuel memo id = Some (memo', v) →
     ∃ memo1 : gmap string Promise,
       memo' = <[id := v]> memo1
       ∧ (∀ e, e ∈ ins edges id → is_Some (memo1 !! source e))
       ∧ ∀ a b,
           getIn edges memo1 id (Some "A"%string) = Ret a →
           getIn edges memo1 id (Some "B"%string) = Ret b →
           composite_rule alpha a b v)
  ∧ (∀ remaining (memo m1 m2 : gmap string Entry) spine a b,
       id ≠ EmptyString →
       memo !! id = None →
       getIn_svg oracle nodes edges InCompositeNode remaining id
         (Some "A"%string) memo (id :: spine) = (Done (Ret a), m1) →
       getIn_svg oracle nodes edges InCompositeNode remaining id
         (Some "B"%string) (register (id :: spine) m1) [] = (Done (Ret b), m2) →
       ∃ v,
         evalNodeSvg oracle nodes edges InCompositeNode (S remaining) id memo spine
         = (Done v, <[id := Settled v]> m2)
         ∧ composite_rule alpha a b v).
Proof.
  intros Hnode Htype d alpha. split.
  - intros fuel memo memo' v Hmiss Heval.
    destruct fuel as [| fuel]; [discriminate |]. simpl in Heval.
    rewrite Hmiss, Hnode in Heval.
    destruct (eval_deps _ _ memo) as [memo1 |] eqn:Hdeps; [| discriminate].
    cbn [mbind option_bind] in Heval. injection Heval as <- <-.
    exists memo1. split; [reflexivity |].
    destruct (eval_deps_covers _ (evalNode_grows oracle nodes edges fuel) _ _ _ Hdeps)
      as [_ Hcov].
    split; [exact Hcov |].
    intros a b Ha Hb. apply rule_of_branches.
    unfold evalBody. rewrite Htype. simpl String.eqb. cbv iota.
    rewrite Ha, Hb. reflexivity.
  - intros remaining memo m1 m2 spine a b Hid Hmiss HA HB.
    exists (composite_branch_svg InCompositeNode d a b). split.
    + cbn [evalNodeSvg]. destruct (String.eqb_spec id ""); [contradiction |].
      rewrite Hmiss, Hnode, Htype. simpl String.eqb. cbv iota.
      unfold getIn_svg in HA, HB. rewrite HA, HB. reflexivity.
    + apply rule_of_branches. reflexivity.
Qed.

End EngineClaims.

Section EngineExamples.
Import Js Dom RangeStroke Ops Glyph Engine Samples.

Lemma cycle_never_returns `{Platform} (oracle : GlyphOracle) (fuel : nat) :
  ∀ memo : gmap string Promise,
    memo !! "1"%string = None → memo !! "2"%string = None →
    evalNode oracle cycle_nodes cycle_edges fuel memo "1" = None
    ∧ evalNode oracle cycle_nodes cycle_edges fuel memo "2" = None.
Proof.
  induction fuel as [| fuel IH]; intros memo H1 H2; [split; reflexivity |].
  destruct (IH memo H1 H2) as [IH1 IH2].
  assert (Hb1 : byId cycle_nodes "1" = Some (plain_node "1" "transform")) by reflexivity.
  assert (Hb2 : byId cycle_nodes "2" = Some (plain_node "2" "transform")) by reflexivity.
  assert (Hi1 : ins cycle_edges "1" = [edge "2" "1" None]) by reflexivity.
  assert (Hi2 : ins cycle_edges "2" = [edge "1" "2" None]) by reflexivity.
  split; cbn [evalNode].
  - rewrite H1, Hb1, Hi1. cbn [eval_deps source edge]. rewrite H2, IH2. reflexivity.
  - rewrite H2, Hb2, Hi2. cbn [eval_deps source edge]. rewrite H1, IH1. reflexivity.
Qed.

(** C2, on the code.  Two Transform nodes feed each other.  The
    evaluation pass of the application descends into the input of a node
    before it stores the promise of the node, and counts no depth: no number
    of nested calls is enough for it to return.  [evalNodeSvg], on the same
    graph, stops below depth 20 and yields [null]. *)
Theorem evalNode_descends_without_bound `{Platform} (oracle : GlyphOracle)
    (fuel : nat) :
  evalNode oracle cycle_nodes cycle_edges fuel ∅ "1" = None
  ∧ (evalNodeSvg oracle cycle_nodes cycle_edges InTransformNode 21 "1" ∅ []).1
    = Done (Ret None)
  ∧ (evalNodeSvg oracle cycle_nodes cycle_edges InCompositeNode 21 "1" ∅ []).1
    = Done (Ret None).
Proof.
  split; [| split; vm_compute; reflexivity].
  apply cycle_never_returns; apply lookup_empty.
Qed.

(** A Composite node whose port B is fed by the node itself: the promise
    of the node awaits itself, and [evalNodeSvg] never settles. *)
Lemma evalNodeSvg_awaits_itself `{Platform} (oracle : GlyphOracle) :
  (evalNodeSvg oracle loop_nodes loop_edges InCompositeNode 21 "3" ∅ []).1 = Hang.
Proof. vm_compute. reflexivity. Qed.

Lemma fetch_two_code_points net st :
  fetchKanjiVGSvg net ei_hi st = fetchKanjiVGSvg net ei st.
Proof. reflexivity. Qed.

Lemma kanji_branch_two_code_points `{Platform} net :
  kanji_branch (oracle_of net initial initial) (n_data (kanji_node "1" ei_hi))
  = kanji_branch (oracle_of net initial initial) (n_data (kanji_node "1" ei)).
Proof.
  assert (Hc1 : char_of (n_data (kanji_node "1" ei_hi)) = Some ei_hi) by reflexivity.
  assert (Hc2 : char_of (n_data (kanji_node "1" ei)) = Some ei) by reflexivity.
  unfold kanji_branch. rewrite Hc1, Hc2.
  unfold oracle_of. cbn [prepared worker].
  unfold getPreparedSvg, worker_kanji. cbn [preparedCache initial].
  rewrite !lookup_empty, !fetch_two_code_points.
  destruct (fetchKanjiVGSvg net ei initial) as [[e | raw] st1]; [reflexivity |].
  destruct (hideStrokeNumbers raw ≫= _) as [e | white]; reflexivity.
Qed.

Lemma evalBody_kanji `{Platform} oracle edges memo id i ch :
  evalBody oracle edges memo id (kanji_node i ch)
  = kanji_branch oracle (n_data (kanji_node i ch)).
Proof. reflexivity. Qed.

(** The string of the two code points U+6C38 U+65E5 is not rejected: [code5] reads its first code point alone and returns the
    id of U+6C38, so the resolution and a Glyph node of that string behave
    as for the one character U+6C38, and the node has the glyph of U+6C38
    as its artifact instead of [null]. *)
Theorem two_code_points_are_resolved :
  length (codePoints ei_hi) = 2%nat
  ∧ code5 ei_hi = Ret "06c38"%string
  ∧ (∀ net st, fetchKanjiVGSvg net ei_hi st = fetchKanjiVGSvg net ei st)
  ∧ (∀ (P : Platform) net fuel memo,
       snd <$> evalNode (oracle_of net initial initial) [kanji_node "1" ei_hi] []
                 fuel memo "1"
       = snd <$> evalNode (oracle_of net initial initial) [kanji_node "1" ei] []
                   fuel memo "1")
  ∧ ∃ memo text,
      @evalNode sample_platform (@oracle_of sample_platform net_ei initial initial)
        [@kanji_node sample_platform "1" ei_hi] [] 2 ∅ "1"
      = Some (memo, Ret (Some text))
      ∧ text ≠ EmptyString.
Proof.
  split; [reflexivity |]. split; [reflexivity |].
  split; [exact fetch_two_code_points |]. split.
  - intros P net fuel memo. destruct fuel as [| fuel]; [reflexivity |].
    cbn [evalNode]. destruct (memo !! "1"%string); [reflexivity |].
    change (byId [kanji_node "1" ei_hi] "1") with (Some (kanji_node "1" ei_hi)).
    change (byId [kanji_node "1" ei] "1") with (Some (kanji_node "1" ei)).
    change (ins [] "1") with (@nil Edge).
    cbn [eval_deps mbind option_bind fmap option_fmap option_map snd].
    rewrite !evalBody_kanji, (kanji_branch_two_code_points net). reflexivity.
  - eexists _, _. split; [vm_compute; reflexivity | discriminate].
Qed.

End EngineExamples.

Section EngineWitness.
Import Js Dom RangeStroke Ops Glyph Engine Samples.
#[local] Existing Instance sample_platform.

(** A Composite node with the glyph of U+6C38 on port A and nothing on
    port B yields that glyph as it is. *)
Lemma composite_node_rule_witness :
  byId half_nodes "3" = Some (plain_node "3" "composite")
  ∧ n_type (plain_node "3" "composite") = "composite"%string
  ∧ ∃ (memo' : gmap string Promise) text,
      evalNode (oracle_of net_ei initial initial) half_nodes half_edges 3 ∅ "3"
      = Some (memo', Ret (Some text))
      ∧ memo' !! "4"%string = Some (Ret (Some text))
      ∧ ∃ memo1 : gmap string Promise,
          memo' = <["3"%string := Ret (Some text)]> memo1
          ∧ (∀ e, e ∈ ins half_edges "3" → is_Some (memo1 !! source e))
          ∧ ∀ a b,
              getIn half_edges memo1 "3" (Some "A"%string) = Ret a →
              getIn half_edges memo1 "3" (Some "B"%string) = Ret b →
              composite_rule
                (λ ta tb, compositeAlpha ta tb (nullish None 1) (nullish None 1) false)
                a b (Ret (Some text)).
Proof.
  split; [reflexivity |]. split; [reflexivity |].
  eexists _, _. split; [vm_compute; reflexivity |].
  split; [vm_compute; reflexivity |].
  apply (proj1 (composite_node_rule (oracle_of net_ei initial initial)
                  half_nodes half_edges "3" (plain_node "3" "composite")
                  eq_refl eq_refl) 3%nat ∅).
  - apply lookup_empty.
  - vm_compute. reflexivity.
Defined.

End EngineWitness.

Section CompositeCopies.
Import Js Dom RangeStroke Ops Glyph Engine Samples Samples2.

(** C6, on the code.  In the copy of [evalNodeSvg] that the Transform
    component carries, a Composite node with an artifact on both ports
    yields [composite] of the two, which reads neither [alphaA] nor
    [alphaB] nor [swap]; with one artifact or none it follows the rule.
    On a graph of two glyphs under a Composite node whose [alphaA] is 0,
    itself the input of a Transform node, the Transform component
    evaluates its input to the plain composition, the evaluation pass of
    the application to [compositeAlpha] of the same two artifacts, and
    the two texts differ. *)
Theorem composite_in_transform_preview :
  (∀ (P : Platform) (oracle : GlyphOracle) (nodes : list FlowNode)
     (edges : list Edge) (id : string) (node : FlowNode),
     byId nodes id = Some node →
     n_type node = "composite"%string →
     ∀ remaining (memo m1 m2 : gmap string Entry) spine a b,
       id ≠ EmptyString →
       memo !! id = None →
       getIn_svg oracle nodes edges InTransformNode remaining id
         (Some "A"%string) memo (id :: spine) = (Done (Ret a), m1) →
       getIn_svg oracle nodes edges InTransformNode remaining id
         (Some "B"%string) (register (id :: spine) m1) [] = (Done (Ret b), m2) →
       ∃ v,
         evalNodeSvg oracle nodes edges InTransformNode (S remaining) id memo spine
         = (Done v, <[id := Settled v]> m2)
         ∧ composite_rule composite a b v)
  ∧ ∃ ta tb plain alpha,
      let oracle := @oracle_of sample_platform3 net_two initial initial in
      prepared oracle ei = Ret ta
      ∧ prepared oracle [26085] = Ret tb
      ∧ (@evalNodeSvg sample_platform3 oracle (@over_nodes sample_platform3) over_edges
           InTransformNode 21 "3" ∅ []).1
        = Done (Ret (Some plain))
      ∧ snd <$> @evalNode sample_platform3 oracle (@over_nodes sample_platform3)
                  over_edges 2 ∅ "3"
        = Some (Ret (Some alpha))
      ∧ @composite sample_platform3 ta tb = Ret plain
      ∧ @compositeAlpha sample_platform3 ta tb 0 1 false = Ret alpha
      ∧ plain ≠ alpha.
Proof.
  split.
  - intros P oracle nodes edges id node Hnode Htype remaining memo m1 m2 spine a b
      Hid Hmiss HA HB.
    exists (composite_branch_svg InTransformNode (n_data node) a b). split.
    + cbn [evalNodeSvg]. destruct (String.eqb_spec id ""); [contradiction |].
      rewrite Hmiss, Hnode, Htype. simpl String.eqb. cbv iota.
      unfold getIn_svg in HA, HB. rewrite HA, HB. reflexivity.
    + apply rule_of_branches. reflexivity.
  - eexists _, _, _, _. cbn zeta.
    split; [vm_compute; reflexivity |]. split; [vm_compute; reflexivity |].
    split; [vm_compute; reflexivity |]. split; [vm_compute; reflexivity |].
    split; [vm_compute; reflexivity |]. split; [vm_compute; reflexivity |].
    vm_compute. discriminate.
Qed.

End CompositeCopies.

(* ================================================================== *)
(** * Part III. Further properties *)
(* ================================================================== *)

(** ** Documents: removal *)

Section MoreDomFacts.
Import Dom.

Lemma removeAll_node_elements sel n :
  Forall (λ e, matches sel e = false) (flat_map elements (childNodes_of (removeAll_node sel n))).
Proof.
  induction n as [d | t a ks IH] using node_ind_strong; [constructor |].
  simpl. induction IH as [| k r Hk _ IHr]; [constructor |].
  simpl. destruct (matches sel k) eqn:Hm; [exact IHr |].
  simpl. rewrite Forall_app. split; [| exact IHr].
  destruct k as [t' a' ks' | d']; [| constructor].
  simpl. constructor; [exact Hm | exact Hk].
Qed.

(** After [removeAll] no element matches the selector. *)
Lemma removeAll_none sel d : querySelectorAll sel (removeAll sel d) = [].
Proof.
  unfold querySelectorAll, doc_elements, removeAll.
  induction d as [| k r IHr]; [reflexivity |].
  simpl. destruct (matches sel k) eqn:Hm; [exact IHr |].
  simpl. rewrite List.filter_app, IHr, app_nil_r.
  destruct k as [t a ks | d']; [| reflexivity].
  pose proof (removeAll_node_elements sel (Elem t a ks)) as Hks.
  simpl in *. rewrite Hm.
  induction Hks as [| e l He _ IHl]; [reflexivity |].
  simpl. rewrite He. exact IHl.
Qed.

Lemma removeAll_node_id sel n :
  Forall (λ e, matches sel e = false) (elements n) → removeAll_node sel n = n.
Proof.
  induction n as [d | t a ks IH] using node_ind_strong; [reflexivity |].
  simpl. intros Hall. apply Forall_cons_1 in Hall as [_ Hall]. f_equal.
  induction IH as [| k r Hk _ IHr]; [reflexivity |].
  simpl in Hall. apply Forall_app in Hall as [H1 H2].
  assert (Hm : matches sel k = false).
  { destruct k; [| reflexivity]. apply Forall_cons_1 in H1 as [Hm _]. exact Hm. }
  cbn [flat_map]. rewrite Hm. cbn [app]. rewrite (Hk H1), (IHr H2). reflexivity.
Qed.

(** A document in which nothing matches is left as it is. *)
Lemma removeAll_id sel d : querySelectorAll sel d = [] → removeAll sel d = d.
Proof.
  unfold querySelectorAll, doc_elements, removeAll.
  induction d as [| k r IHr]; [reflexivity |].
  simpl. rewrite List.filter_app. intros [H1 H2]%app_eq_nil.
  assert (Hall : Forall (λ e, matches sel e = false) (elements k)).
  { rewrite Forall_forall. intros e He. destruct (matches sel e) eqn:Hm; [| reflexivity].
    assert (Hin : In e (List.filter (matches sel) (elements k))).
    { apply filter_In. split; [apply list_elem_of_In, He | exact Hm]. }
    rewrite H1 in Hin. destruct Hin. }
  assert (Hm : matches sel k = false).
  { destruct k; [| reflexivity]. apply Forall_cons_1 in Hall as [Hm _]. exact Hm. }
  rewrite Hm. cbn [app]. rewrite (removeAll_node_id sel _ Hall), (IHr H2). reflexivity.
Qed.

End MoreDomFacts.

(** ** Documents: updates of the first match *)

Section UpdateFacts.
Import Dom Tree.

Lemma first_upd_none {A} (F G : A → option A) (l : list A) :
  Forall (λ k, F k = None → G k = None) l →
  first_upd F l = None → first_upd G l = None.
Proof.
  induction 1 as [| k r Hk _ IHr]; [reflexivity |].
  simpl. destruct (F k) eqn:HF; [discriminate |]. rewrite (Hk eq_refl).
  destruct (first_upd F r); [discriminate |]. intros _. rewrite IHr; reflexivity.
Qed.

Lemma update_first_node_none sel f g n :
  update_first_node sel f n = None → update_first_node sel g n = None.
Proof.
  induction n as [d | t a ks IH] using node_ind_strong; [reflexivity |].
  simpl. destruct (sel t a); [discriminate |].
  destruct (first_upd (update_first_node sel f) ks) eqn:Hf; [discriminate |].
  intros _. rewrite (first_upd_none _ _ _ IH Hf). reflexivity.
Qed.

Lemma first_upd_ext {A} (F G : A → option A) (l : list A) :
  Forall (λ k, F k = G k) l → first_upd F l = first_upd G l.
Proof.
  induction 1 as [| k r Hk _ IHr]; [reflexivity |].
  simpl. rewrite Hk, IHr. reflexivity.
Qed.

(** Only the image of a match counts. *)
Lemma update_first_node_ext sel f g n :
  (∀ m, matches sel m = true → f m = g m) →
  update_first_node sel f n = update_first_node sel g n.
Proof.
  intros Hfg. induction n as [d | t a ks IH] using node_ind_strong; [reflexivity |].
  simpl. destruct (sel t a) eqn:Hs.
  - rewrite (Hfg (Elem t a ks)); [reflexivity | exact Hs].
  - rewrite (first_upd_ext _ _ _ IH). reflexivity.
Qed.

Lemma update_first_ext sel f g d :
  (∀ m, matches sel m = true → f m = g m) →
  update_first sel f d = update_first sel g d.
Proof.
  intros Hfg. apply first_upd_ext. rewrite Forall_forall. intros k _.
  apply update_first_node_ext, Hfg.
Qed.

Lemma first_upd_then {A} (F G GF : A → option A) (l l' : list A) :
  Forall (λ k, (∀ k', F k = Some k' → G k' = GF k ∧ GF k ≠ None)
               ∧ (F k = None → G k = None ∧ GF k = None)) l →
  first_upd F l = Some l' → first_upd G l' = first_upd GF l.
Proof.
  intros Hall. revert l'. induction Hall as [| k r [Hs Hn] _ IHr]; [discriminate |].
  intros l'. simpl. destruct (F k) as [k' |] eqn:HF.
  - intros [= <-]. simpl. destruct (Hs k' eq_refl) as [-> Hsome].
    destruct (GF k); [reflexivity | congruence].
  - destruct (Hn eq_refl) as [HG HGF].
    destruct (first_upd F r) as [r' |] eqn:Hr; [| discriminate].
    intros [= <-]. simpl. rewrite HG, HGF, (IHr r' eq_refl). reflexivity.
Qed.

(** Two updates of the first match, one after the other, are one update
    by the composed function, when the first keeps its argument a match. *)
Lemma update_first_node_then sel f g n n' :
  (∀ m, matches sel m = true → matches sel (f m) = true) →
  update_first_node sel f n = Some n' →
  update_first_node sel g n' = update_first_node sel (λ m, g (f m)) n.
Proof.
  intros Hk. revert n'.
  induction n as [d | t a ks IH] using node_ind_strong; [discriminate |].
  intros n'. simpl. destruct (sel t a) eqn:Hs.
  - intros [= <-]. pose proof (Hk (Elem t a ks) Hs) as Hm.
    destruct (f (Elem t a ks)) as [t' a' ks' |]; [| discriminate].
    simpl in *. rewrite Hm. reflexivity.
  - destruct (first_upd (update_first_node sel f) ks) as [ks' |] eqn:Hf; [| discriminate].
    intros [= <-]. simpl. rewrite Hs. f_equal.
    apply (first_upd_then (update_first_node sel f)); [| exact Hf].
    rewrite Forall_forall in IH. rewrite Forall_forall. intros k Hin. split.
    + intros k' Hk'. split; [apply IH; assumption |].
      intros Hnone. apply (update_first_node_none _ _ f) in Hnone. congruence.
    + intros Hnone. split; eapply update_first_node_none, Hnone.
Qed.

Lemma update_first_then sel f g d d' :
  (∀ m, matches sel m = true → matches sel (f m) = true) →
  update_first sel f d = Some d' →
  update_first sel g d' = update_first sel (λ m, g (f m)) d.
Proof.
  intros Hk. apply first_upd_then. rewrite Forall_forall. intros k _. split.
  - intros k' Hk'. split; [apply update_first_node_then; assumption |].
    intros Hnone. apply (update_first_node_none _ _ f) in Hnone. congruence.
  - intros Hnone. split; eapply update_first_node_none, Hnone.
Qed.

End UpdateFacts.

Section RetagFacts.
Import Dom Tree.

Lemma retagged_refl sel g l : Forall2 (retagged sel g) l l.
Proof.
  induction l as [| e l IH]; constructor; [| exact IH].
  split; [reflexivity |]. split; [reflexivity | left; reflexivity].
Qed.

Lemma update_first_node_retagged sel g n n' :
  update_first_node sel (updAttrs g) n = Some n' →
  Forall2 (retagged sel g) (elements n) (elements n').
Proof.
  revert n'. induction n as [d | t a ks IH] using node_ind_strong; [discriminate |].
  intros n'. simpl. destruct (sel t a) eqn:Hs.
  - intros [= <-]. simpl. constructor; [| apply retagged_refl].
    split; [reflexivity |]. split; [reflexivity | right; split; [exact Hs | reflexivity]].
  - destruct (first_upd (update_first_node sel (updAttrs g)) ks) as [ks' |] eqn:Hf;
      [| discriminate].
    intros [= <-]. simpl.
    constructor; [split; [reflexivity |]; split; [reflexivity | left; reflexivity] |].
    clear Hs. revert ks' Hf. induction IH as [| k r Hk _ IHr]; [discriminate |].
    intros ks'. simpl.
    destruct (update_first_node sel (updAttrs g) k) as [k' |].
    + intros [= <-]. simpl. apply Forall2_app; [apply Hk; reflexivity | apply retagged_refl].
    + destruct (first_upd (update_first_node sel (updAttrs g)) r) as [r' |]; [| discriminate].
      intros [= <-]. simpl. apply Forall2_app; [apply retagged_refl | apply IHr; reflexivity].
Qed.

(** An update of the attributes of the first match leaves every element
    in its place, with its tag name, and with its attributes unless it is
    that match. *)
Lemma update_first_retagged sel g d d' :
  update_first sel (updAttrs g) d = Some d' →
  Forall2 (retagged sel g) (doc_elements d) (doc_elements d').
Proof.
  unfold update_first, doc_elements. revert d'.
  induction d as [| k r IHr]; [discriminate |].
  intros d'. simpl.
  destruct (update_first_node sel (updAttrs g) k) as [k' |] eqn:Hk.
  - intros [= <-]. simpl.
    apply Forall2_app; [apply update_first_node_retagged, Hk | apply retagged_refl].
  - destruct (first_upd (update_first_node sel (updAttrs g)) r) as [r' |]; [| discriminate].
    intros [= <-]. simpl. apply Forall2_app; [apply retagged_refl | apply IHr; reflexivity].
Qed.

Lemma retagged_filter_tag sel g name l l' :
  Forall2 (retagged sel g) l l' →
  Forall2 (retagged sel g) (List.filter (matches (sel_tag name)) l)
    (List.filter (matches (sel_tag name)) l').
Proof.
  induction 1 as [| e e' l l' He _ IH]; [constructor |].
  simpl. assert (Hm : matches (sel_tag name) e' = matches (sel_tag name) e).
  { destruct He as (Hi & Ht & _).
    destruct e, e'; simpl in *; try discriminate; [| reflexivity].
    unfold sel_tag. rewrite Ht. reflexivity. }
  rewrite Hm. destruct (matches (sel_tag name) e); [constructor; assumption | exact IH].
Qed.

Lemma update_first_keeps_tagged sel g name d d' m :
  update_first sel (updAttrs g) d = Some d' →
  querySelector (sel_tag name) d = Some m →
  ∃ m', querySelector (sel_tag name) d' = Some m' ∧ retagged sel g m m'.
Proof.
  intros Hu Hq. apply update_first_retagged in Hu.
  apply (retagged_filter_tag _ _ name) in Hu.
  unfold querySelector, querySelectorAll in *.
  destruct Hu as [| e e' l l' He _]; [discriminate |].
  simpl in *. injection Hq as <-. exists e'. split; [reflexivity | exact He].
Qed.

End RetagFacts.

(** ** applyRangeBaked and countStrokes *)

Section AttrFacts2.
Import Dom.

Lemma setAttribute_twice k v a :
  setAttribute k v (setAttribute k v a) = setAttribute k v a.
Proof.
  induction a as [| [k' v'] r IH]; simpl.
  - rewrite String.eqb_refl. reflexivity.
  - destruct (String.eqb_spec k' k) as [-> | Hne]; simpl.
    + rewrite String.eqb_refl. reflexivity.
    + destruct (String.eqb_spec k' k); [congruence | rewrite IH; reflexivity].
Qed.

Lemma removeAttribute_absent k a :
  getAttribute k a = None → removeAttribute k a = a.
Proof.
  induction a as [| [k' v'] r IH]; simpl; [reflexivity |].
  destruct (String.eqb_spec k' k); [discriminate |]. intros Hn. rewrite (IH Hn). reflexivity.
Qed.

Lemma remove_set_absent k v a :
  getAttribute k a = None → removeAttribute k (setAttribute k v a) = a.
Proof.
  induction a as [| [k' v'] r IH]; simpl.
  - rewrite String.eqb_refl. reflexivity.
  - destruct (String.eqb_spec k' k) as [-> | Hne]; [discriminate |].
    intros Hn. simpl. destruct (String.eqb_spec k' k); [congruence |].
    rewrite (IH Hn). reflexivity.
Qed.

End AttrFacts2.

Section RangeMore.
Import Js Dom RangeStroke Tree.

Lemma Math_min_comm a b : Math_min a b = Math_min b a.
Proof. destruct a, b; simpl; try reflexivity. rewrite Z.min_comm. reflexivity. Qed.

Lemma Math_max_comm a b : Math_max a b = Math_max b a.
Proof. destruct a, b; simpl; try reflexivity. rewrite Z.max_comm. reflexivity. Qed.

Lemma toggle_twice s e t a : toggle s e t (toggle s e t a) = toggle s e t a.
Proof.
  destruct (toggle_spec s e t a) as (Hg & Hi & Hd).
  destruct (strokeGroup t a) eqn:Ha.
  - specialize (Hd eq_refl).
    assert (Hr : in_range s e (toggle s e t a) = in_range s e a)
      by (unfold in_range; rewrite Hi; reflexivity).
    unfold toggle at 1. rewrite Hg, strokeGroup_hide, Hg.
    unfold show_in_range.
    assert (Hr' : in_range s e (hide (toggle s e t a)) = in_range s e a)
      by (unfold in_range; rewrite group_index_hide, Hi; reflexivity).
    rewrite Hr'. destruct (in_range s e a) eqn:Hin.
    + apply remove_set_absent, Hd.
    + unfold toggle. rewrite Ha, strokeGroup_hide, Ha. unfold show_in_range.
      assert (Hr2 : in_range s e (hide a) = false).
      { unfold in_range in *. rewrite group_index_hide. exact Hin. }
      rewrite Hr2. apply setAttribute_twice.
  - assert (Ht : toggle s e t a = a) by (unfold toggle; rewrite Ha, Ha; reflexivity).
    rewrite !Ht. reflexivity.
Qed.

Lemma toggle_node_twice s e n : toggle_node s e (toggle_node s e n) = toggle_node s e n.
Proof.
  induction n as [d | t a ks IH] using node_ind_strong; [reflexivity |].
  simpl. rewrite toggle_twice. f_equal. rewrite map_map.
  induction IH as [| k r Hk _ IHr]; [reflexivity |]. simpl. rewrite Hk, IHr. reflexivity.
Qed.

Lemma select_in_twice s e m :
  matches (sel_tag "svg") m = true → select_in s e (select_in s e m) = select_in s e m.
Proof.
  destruct m as [t a ks |]; [| discriminate]. intros _.
  rewrite !select_in_toggle. f_equal. rewrite map_map.
  apply map_ext. intros k. apply toggle_node_twice.
Qed.

Lemma in_range_NaN s e a : s = NaN ∨ e = NaN → in_range s e a = false.
Proof.
  unfold in_range, num_le, num_ge. intros [-> | ->].
  - destruct (group_index a); reflexivity.
  - destruct (group_index a), s; simpl; try reflexivity; apply andb_false_r.
Qed.

End RangeMore.

Section RangeExtras.
Import Js Dom RangeStroke Tree Samples.
Context `{Platform}.

(** X1.  [countStrokes] returns the number of [g[data-stroke]] elements
    when there is one at least, and 1 otherwise, whatever the ids of the
    document are: the scan for ids in [-sN] of the second case never finds
    an index. *)
Theorem countStrokes_groups_or_one (svgText : string) (doc : document) :
  parseFromString svgText = Ret doc →
  countStrokes svgText
  = Ret (Num (match querySelectorAll strokeGroup doc with
              | [] => 1
              | g :: r => Z.of_nat (length (g :: r))
              end)).
Proof.
  intros Hp. unfold countStrokes. rewrite Hp. cbn [mbind exc_bind try_catch].
  unfold countStrokesDoc.
  destruct (querySelectorAll strokeGroup doc) as [| g r]; [| reflexivity].
  cbn [length Nat.ltb Nat.leb].
  destruct (scan_stays_falsy (querySelectorAll (sel_has "id") doc)) as [-> | ->];
    reflexivity.
Qed.

(** X2.  The two bounds of [applyRangeBaked] may come in either order, and
    applying the same bounds to the result changes nothing. *)
Theorem applyRangeBaked_unordered_idempotent (svgText : string) (d : document)
    (a b : jsnum) :
  applyRangeBaked svgText a b = applyRangeBaked svgText b a
  ∧ applyRangeBakedDoc d a b = applyRangeBakedDoc d b a
  ∧ ∀ r, applyRangeBakedDoc d a b = Some r → applyRangeBakedDoc r a b = Some r.
Proof.
  assert (Hsym : ∀ d0, applyRangeBakedDoc d0 a b = applyRangeBakedDoc d0 b a).
  { intros d0. unfold applyRangeBakedDoc.
    rewrite (Math_min_comm a b), (Math_max_comm a b). reflexivity. }
  split; [| split; [apply Hsym |]].
  - unfold applyRangeBaked. destruct (parseFromString svgText) as [e | d0];
      [reflexivity |]. cbn [mbind exc_bind]. rewrite Hsym. reflexivity.
  - intros r Hr. unfold applyRangeBakedDoc in *.
    rewrite (update_first_then _ _ _ _ _ (select_in_keeps_svg _ _) Hr).
    rewrite <- Hr. apply update_first_ext. intros m Hm. apply select_in_twice, Hm.
Qed.

(** X3.  [applyRangeBaked] on a document without an [svg] element returns
    its input; with a bound that is NaN it hides every stroke group below
    the [svg] element. *)
Theorem applyRangeBaked_edges (svgText : string) (d : document) (a b : jsnum) :
  parseFromString svgText = Ret d →
  (querySelector (sel_tag "svg") d = None → applyRangeBaked svgText a b = Ret svgText)
  ∧ (a = NaN ∨ b = NaN →
     ∀ m, querySelector (sel_tag "svg") d = Some m →
       ∃ r svgEl,
         applyRangeBakedDoc d a b = Some r
         ∧ applyRangeBaked svgText a b = serializeToString r
         ∧ querySelector (sel_tag "svg") r = Some svgEl
         ∧ Forall (λ g, matches strokeGroup g = true →
                        getAttribute "display" (attributes_of g) = Some "none"%string)
             (descendants svgEl)).
Proof.
  intros Hp.
  pose proof (update_first_spec (sel_tag "svg")
                (select_in (Math_min a b) (Math_max a b))
                (select_in_keeps_svg _ _) d) as Hu.
  unfold applyRangeBaked, applyRangeBakedDoc. rewrite Hp. cbn [mbind exc_bind].
  destruct (update_first _ _ d) as [r |].
  - destruct Hu as (m & Hm & Hq). split; [congruence |].
    intros Hnan m' _. exists r, (select_in (Math_min a b) (Math_max a b) m).
    split; [reflexivity |]. split; [reflexivity |]. split; [exact Hq |].
    pose proof (select_in_spec (Math_min a b) (Math_max a b) m) as Hs.
    eapply Forall_impl; [exact Hs |]. intros g Hg Hmatch. rewrite (Hg Hmatch).
    rewrite in_range_NaN; [reflexivity |].
    destruct Hnan as [-> | ->]; [left; reflexivity |].
    left. destruct a; reflexivity.
  - split; [reflexivity |]. intros _ m Hm. congruence.
Qed.

End RangeExtras.

(** ** bakeStrokes: the count *)

Section BakeExtras.
Import Js Dom RangeStroke Tree Samples.

Lemma bake_prepare_svg d :
  match bake_prepare d with
  | Some d2 => ∃ m, querySelector (sel_tag "svg") (removeAll noise d) = Some m
                    ∧ querySelector (sel_tag "svg") d2 = Some (updAttrs normalizeSvg m)
  | None => querySelector (sel_tag "svg") (removeAll noise d) = None
  end.
Proof.
  unfold bake_prepare.
  exact (update_first_spec (sel_tag "svg") (updAttrs normalizeSvg)
           (updAttrs_keeps_tag _ _) (removeAll noise d)).
Qed.

(** Once the [svg] element is found, [bakeStrokes] goes through. *)
Lemma bakeDoc_total d d2 :
  bake_prepare d = Some d2 → ∃ d' c, bakeDoc d = Some (d', c).
Proof.
  intros Hd2. pose proof (bake_prepare_svg d) as Hs. rewrite Hd2 in Hs.
  destruct Hs as (m & _ & Hq2).
  unfold bakeDoc. rewrite Hd2. cbn [mbind option_bind].
  destruct (emit (fill_bucket (carriers d2))) as [bakedGroup cnt].
  set (d3 := default d2 _).
  assert (Hq3 : ∃ m3, querySelector (sel_tag "svg") d3 = Some m3).
  { unfold d3.
    destruct (update_first strokePaths _ d2) as [d3' |] eqn:Hu; simpl; [| eauto].
    destruct (update_first_keeps_tagged _ _ "svg" _ _ _ Hu Hq2) as (m' & Hm' & _). eauto. }
  destruct Hq3 as (m3 & Hq3).
  pose proof (update_first_spec (sel_tag "svg") (appendChild bakedGroup)
                (appendChild_keeps_svg _) d3) as Hu.
  destruct (update_first (sel_tag "svg") (appendChild bakedGroup) d3) as [d4 |];
    [| congruence].
  cbn [mbind option_bind]. eauto.
Qed.

Lemma remove_dups_nil {A} `{EqDecision A} (l : list A) : remove_dups l = [] → l = [].
Proof.
  destruct l as [| x l]; [reflexivity |]. intros Hn.
  assert (Hx : x ∈ remove_dups (x :: l)) by (apply elem_of_remove_dups; left).
  rewrite Hn in Hx. inversion Hx.
Qed.

Context `{Platform}.

(** X4.  What [bakeStrokes] counts.  Without an [svg] element, once the
    numbers, grids and guides are removed, the text comes back as it is
    with the count 0.  Otherwise the count is never negative, and it is 0
    exactly when no id of the document ends in [-sN]. *)
Theorem bake_count_zero (svgText : string) (d : document) :
  parseFromString svgText = Ret d →
  (querySelector (sel_tag "svg") (removeAll noise d) = None →
   bakeStrokes svgText = Ret {| svg := svgText; count := 0 |})
  ∧ (∀ m, querySelector (sel_tag "svg") (removeAll noise d) = Some m →
       ∃ d2 d' c,
         bake_prepare d = Some d2
         ∧ bakeDoc d = Some (d', c)
         ∧ bakeStrokes svgText
           = (out ← serializeToString d'; Ret {| svg := out; count := c |})
         ∧ 0 ≤ c
         ∧ (c = 0 ↔ carriers d2 = [])).
Proof.
  intros Hp. pose proof (bake_prepare_svg d) as Hs. split.
  - intros Hnone. unfold bakeStrokes, bakeDoc. rewrite Hp. cbn [mbind exc_bind].
    destruct (bake_prepare d) as [d2 |]; [| reflexivity].
    destruct Hs as (m & Hm & _). congruence.
  - intros m Hm. destruct (bake_prepare d) as [d2 |] eqn:Hd2; [| congruence].
    destruct (bakeDoc_total d d2 Hd2) as (d' & c & Hb).
    exists d2, d', c. split; [reflexivity |]. split; [exact Hb |]. split.
    { unfold bakeStrokes. rewrite Hp. cbn [mbind exc_bind]. rewrite Hb. reflexivity. }
    destruct (bakeDoc_shape d d' c Hb) as (d2' & t & a & ks & Hd2' & _ & Hc).
    rewrite Hd2 in Hd2'. injection Hd2' as <-.
    set (cs := carriers d2) in *.
    set (nums := sorted_nums (fill_bucket cs)) in *.
    set (ixs := List.filter (has_drawable cs) nums) in *.
    pose proof (fold_max_ge ixs 0) as Hmax. fold (max_index ixs) in Hmax.
    assert (Hlen : length nums = length (remove_dups (map fst cs)))
      by apply sorted_nums_length.
    unfold count_or_length in Hc. split.
    { destruct (max_index ixs =? 0); lia. }
    split.
    + intros Hz. destruct (Z.eqb_spec (max_index ixs) 0); [| lia].
      assert (Hl : length (remove_dups (map fst cs)) = 0%nat) by lia.
      apply length_zero_iff_nil, remove_dups_nil in Hl.
      destruct cs; [reflexivity | discriminate].
    + intros Hnil. subst c. unfold ixs, nums. rewrite Hnil. reflexivity.
Qed.

End BakeExtras.

(** ** hideStrokeNumbers and forceStrokeColor *)

Section ForEachFacts.
Import Dom Tree.

Lemma doc_elements_forEach sel f d :
  doc_elements (forEach sel f d) = map (forEach_node sel f) (doc_elements d).
Proof.
  unfold doc_elements, forEach. induction d as [| k r IHr]; [reflexivity |].
  simpl. rewrite map_app, elements_forEach_node, IHr. reflexivity.
Qed.

Lemma filter_map_commute {A} (p : A → bool) (F : A → A) (l : list A) :
  (∀ x, p (F x) = p x) → List.filter p (map F l) = map F (List.filter p l).
Proof.
  intros Hp. induction l as [| x l IH]; [reflexivity |].
  simpl. rewrite Hp. destruct (p x); simpl; rewrite IH; reflexivity.
Qed.

Lemma matches_tag_forEach_node name sel f n :
  matches (sel_tag name) (forEach_node sel f n) = matches (sel_tag name) n.
Proof. destruct n; reflexivity. Qed.

(** A pass over attributes does not move the first element of a tag. *)
Lemma querySelector_tag_forEach name sel f d :
  querySelector (sel_tag name) (forEach sel f d)
  = forEach_node sel f <$> querySelector (sel_tag name) d.
Proof.
  unfold querySelector, querySelectorAll. rewrite doc_elements_forEach.
  rewrite filter_map_commute by apply matches_tag_forEach_node.
  destruct (List.filter _ (doc_elements d)); reflexivity.
Qed.

End ForEachFacts.

Section OpsExtras.
Import Js Dom RangeStroke Ops Tree Samples.
Context `{Platform}.

(** X5.  [hideStrokeNumbers] returns the document without any element
    whose id starts with [kvg:StrokeNumbers_]; a document that has none
    is serialized as it was parsed. *)
Theorem hideStrokeNumbers_removes (svgText : string) (d : document) :
  parseFromString svgText = Ret d →
  let numbers := sel_attr_prefix "id" "kvg:StrokeNumbers_" in
  ∃ d',
    hideStrokeNumbers svgText = serializeToString d'
    ∧ querySelectorAll numbers d' = []
    ∧ (querySelectorAll numbers d = [] → d' = d).
Proof.
  intros Hp numbers. exists (removeAll numbers d).
  unfold hideStrokeNumbers. rewrite Hp. split; [reflexivity |].
  split; [apply removeAll_none | apply removeAll_id].
Qed.

Lemma style_element_forEach color :
  forEach_node strokeLeaf (force_attrs color) (style_element color) = style_element color.
Proof. reflexivity. Qed.

Lemma strokeLeaf_tag_only t a a' : strokeLeaf t a = strokeLeaf t a'.
Proof. reflexivity. Qed.

Lemma force_attrs_spec color a :
  let a' := force_attrs color a in
  getAttribute "stroke" a' = Some color
  ∧ getAttribute "stroke-width" a' = Some "3"%string
  ∧ getAttribute "stroke-linecap" a' = Some "round"%string
  ∧ getAttribute "stroke-linejoin" a' = Some "round"%string
  ∧ getAttribute "fill" a' = Some "none"%string
  ∧ getAttribute "vector-effect" a' = Some "non-scaling-stroke"%string.
Proof.
  unfold force_attrs. cbn zeta.
  repeat split;
    repeat (first [ apply getAttribute_set_eq
                  | rewrite getAttribute_set_ne by discriminate ]).
Qed.

(** X6.  [forceStrokeColor] on a document with an [svg] element: a
    [style] element becomes the first child of that element, and every
    [path], [polyline] and [line] of the document carries the six
    presentation attributes, [stroke] being the colour asked for.  The
    text returned is the serialization, or the input if the serializer
    raises. *)
Theorem forceStrokeColor_styles (svgText color : string) (d : document)
    (t : string) (a : attrs) (ks : list node) :
  parseFromString svgText = Ret d →
  querySelector (sel_tag "svg") d = Some (Elem t a ks) →
  ∃ d',
    forceStrokeColorDoc color d = Some d'
    ∧ forceStrokeColor svgText color
      = try_catch (serializeToString d') (Ret svgText)
    ∧ querySelector (sel_tag "svg") d'
      = Some (Elem t a (style_element color
                          :: map (forEach_node strokeLeaf (force_attrs color)) ks))
    ∧ Forall (λ el, matches strokeLeaf el = true →
                let a' := attributes_of el in
                getAttribute "stroke" a' = Some color
                ∧ getAttribute "stroke-width" a' = Some "3"%string
                ∧ getAttribute "stroke-linecap" a' = Some "round"%string
                ∧ getAttribute "stroke-linejoin" a' = Some "round"%string
                ∧ getAttribute "fill" a' = Some "none"%string
                ∧ getAttribute "vector-effect" a' = Some "non-scaling-stroke"%string)
        (doc_elements d').
Proof.
  intros Hp Hq.
  pose proof (update_first_spec (sel_tag "svg") (insertFirst (style_element color))
                (insertFirst_keeps_svg _) d) as Hu.
  unfold forceStrokeColor, forceStrokeColorDoc. rewrite Hp. cbn [mbind exc_bind].
  destruct (update_first _ _ d) as [d1 |]; [| congruence].
  destruct Hu as (m & Hm & Hq1). rewrite Hq in Hm. injection Hm as <-.
  cbn [mbind option_bind]. eexists. split; [reflexivity |]. split; [reflexivity |].
  split.
  - rewrite querySelector_tag_forEach, Hq1. cbn [fmap option_fmap option_map insertFirst].
    pose proof (querySelector_matches _ _ _ Hq) as Hsvg. simpl in Hsvg.
    unfold sel_tag in Hsvg. apply String.eqb_eq in Hsvg. subst t. reflexivity.
  - rewrite doc_elements_forEach, Forall_forall. intros el Hel.
    apply list_elem_of_fmap in Hel as (e0 & -> & _).
    destruct e0 as [t0 a0 ks0 | ?]; [| discriminate].
    cbn [forEach_node matches attributes_of]. intros Hleaf.
    rewrite (strokeLeaf_tag_only t0 _ a0) in Hleaf. rewrite Hleaf.
    apply force_attrs_spec.
Qed.

End OpsExtras.

(** ** annotateStrokes *)

Section AnnotateFacts.
Import Js Dom RangeStroke Ops Tree.

Lemma Forall2_transfer {A} (R : A → A → Prop) (P Q : A → Prop) l l' :
  (∀ e e', R e e' → P e → Q e') → Forall2 R l l' → Forall P l → Forall Q l'.
Proof.
  intros HR H2. induction H2 as [| e e' l l' He _ IH]; [constructor |].
  intros [HP Hl]%Forall_cons_1. constructor; [eapply HR; eassumption | apply IH, Hl].
Qed.

Lemma filter_nil_Forall {A} (p : A → bool) (l : list A) :
  List.filter p l = [] ↔ Forall (λ x, p x = false) l.
Proof.
  induction l as [| x l IH]; simpl.
  - split; [constructor | reflexivity].
  - destruct (p x) eqn:Hx.
    + split; [discriminate |]. intros [Hx' _]%Forall_cons_1. congruence.
    + rewrite IH. split; [intros Hl; constructor; assumption |].
      intros [_ Hl]%Forall_cons_1. exact Hl.
Qed.

Lemma noise_id_only t t' a a' :
  getAttribute "id" a' = getAttribute "id" a → noise t' a' = noise t a.
Proof.
  intros Hid. unfold noise, sel_or, sel_attr_prefix. rewrite Hid. reflexivity.
Qed.

Lemma tag_leaf_id idx a : getAttribute "id" (tag_leaf idx a) = getAttribute "id" a.
Proof. destruct idx; simpl; apply getAttribute_set_ne; discriminate. Qed.

Lemma normalizeSvg_id a : getAttribute "id" (normalizeSvg a) = getAttribute "id" a.
Proof.
  unfold normalizeSvg. cbn zeta.
  rewrite !getAttribute_set_ne by discriminate.
  rewrite !getAttribute_remove_ne by discriminate. reflexivity.
Qed.

Lemma annotate_node_noise near n :
  Forall (λ e, matches noise e = false) (elements n) →
  Forall (λ e, matches noise e = false) (elements (annotate_node near n)).
Proof.
  revert near. induction n as [d | t a ks IH] using node_ind_strong; intros near;
    [constructor |].
  simpl. intros [Hh Ht]%Forall_cons_1. constructor.
  - simpl in *. rewrite <- Hh. apply noise_id_only.
    destruct (strokeLeaf t a); [apply tag_leaf_id | reflexivity].
  - clear Hh. induction IH as [| k r Hk _ IHr]; [constructor |].
    simpl in *. apply Forall_app in Ht as [H1 H2].
    apply Forall_app. split; [apply Hk, H1 | apply IHr, H2].
Qed.

Lemma findStrokeIndex_step_digits near t a :
  match near with Some m1 => m1 ≠ EmptyString ∧ allDigits m1 = true | None => True end →
  match findStrokeIndex_step near t a with
  | Some m1 => m1 ≠ EmptyString ∧ allDigits m1 = true
  | None => True
  end.
Proof.
  intros Hn. unfold findStrokeIndex_step. destruct (String.eqb t "SVG"); [exact I |].
  destruct (match_stroke_id _) as [m1 |] eqn:Hm; [| exact Hn].
  apply match_stroke_id_digits in Hm. exact Hm.
Qed.

(** After [annotate_node] a leaf carries the digits of the nearest id in
    [-sN] as [data-stroke], or [data-ignore="1"]. *)
Lemma annotate_node_leaves near n :
  match near with Some m1 => m1 ≠ EmptyString ∧ allDigits m1 = true | None => True end →
  Forall (λ el, matches strokeLeaf el = true →
            (∃ m1, getAttribute "data-stroke" (attributes_of el) = Some m1
                   ∧ m1 ≠ EmptyString ∧ allDigits m1 = true)
            ∨ getAttribute "data-ignore" (attributes_of el) = Some "1"%string)
    (elements (annotate_node near n)).
Proof.
  revert near. induction n as [d | t a ks IH] using node_ind_strong; intros near Hn;
    [constructor |].
  pose proof (findStrokeIndex_step_digits near t a Hn) as Hidx.
  simpl. constructor.
  - cbn [matches attributes_of]. intros Hleaf.
    rewrite (strokeLeaf_tag_only t _ a) in Hleaf. rewrite Hleaf.
    destruct (findStrokeIndex_step near t a) as [m1 |]; simpl.
    + left. exists m1. split; [apply getAttribute_set_eq | exact Hidx].
    + right. apply getAttribute_set_eq.
  - induction IH as [| k r Hk _ IHr]; [constructor |].
    simpl. apply Forall_app. split; [apply Hk, Hidx | exact IHr].
Qed.

Lemma leaf_not_svg e : matches strokeLeaf e = true → matches (sel_tag "svg") e = false.
Proof.
  destruct e as [t a ks |]; [| reflexivity]. simpl.
  unfold strokeLeaf, sel_or, sel_tag.
  destruct (String.eqb_spec t "svg") as [-> |]; [discriminate | reflexivity].
Qed.

Lemma retagged_matches_tag sel g sel' e e' :
  (∀ t a a', sel' t a = sel' t a') →
  retagged sel g e e' → matches sel' e' = matches sel' e.
Proof.
  intros Htag (Hi & Ht & _). destruct e, e'; simpl in *; try discriminate;
    [| reflexivity].
  subst. apply Htag.
Qed.

End AnnotateFacts.

Section AnnotateExtras.
Import Js Dom RangeStroke Ops Tree Samples.
Context `{Platform}.

(** X7.  [annotateStrokes]: the document it serializes holds no number,
    grid or guide element, and each of its [path], [polyline] and [line]
    elements carries either [data-stroke], a run of digits, or
    [data-ignore="1"]. *)
Theorem annotateStrokes_tags_leaves (svgText : string) (d : document) :
  parseFromString svgText = Ret d →
  annotateStrokes svgText = serializeToString (annotateStrokesDoc d)
  ∧ querySelectorAll noise (annotateStrokesDoc d) = []
  ∧ Forall (λ el, matches strokeLeaf el = true →
              (∃ m1, getAttribute "data-stroke" (attributes_of el) = Some m1
                     ∧ m1 ≠ EmptyString ∧ allDigits m1 = true)
              ∨ getAttribute "data-ignore" (attributes_of el) = Some "1"%string)
      (doc_elements (annotateStrokesDoc d)).
Proof.
  intros Hp. split; [unfold annotateStrokes; rewrite Hp; reflexivity |].
  unfold annotateStrokesDoc. cbn zeta.
  set (d1 := removeAll noise d). set (d2 := map (annotate_node None) d1).
  assert (Hn1 : Forall (λ e, matches noise e = false) (doc_elements d1)).
  { apply filter_nil_Forall. apply (removeAll_none noise d). }
  assert (Hn2 : Forall (λ e, matches noise e = false) (doc_elements d2)).
  { unfold d2, doc_elements in *. induction d1 as [| k r IHr]; [constructor |].
    simpl in *. apply Forall_app in Hn1 as [H1 H2]. apply Forall_app.
    split; [apply annotate_node_noise, H1 | apply IHr, H2]. }
  assert (Hl2 : Forall (λ el, matches strokeLeaf el = true →
              (∃ m1, getAttribute "data-stroke" (attributes_of el) = Some m1
                     ∧ m1 ≠ EmptyString ∧ allDigits m1 = true)
              ∨ getAttribute "data-ignore" (attributes_of el) = Some "1"%string)
            (doc_elements d2)).
  { unfold d2, doc_elements. clear Hn1 Hn2. induction d1 as [| k r IHr]; [constructor |].
    simpl. apply Forall_app. split; [apply annotate_node_leaves; exact I | exact IHr]. }
  destruct (update_first (sel_tag "svg") (updAttrs normalizeSvg) d2) as [d3 |] eqn:Hu;
    simpl; [| split; [apply filter_nil_Forall, Hn2 | exact Hl2]].
  apply update_first_retagged in Hu. split.
  - apply filter_nil_Forall.
    refine (Forall2_transfer _ _ _ _ _ _ Hu Hn2).
    intros e e' (Hi & Ht & Ha) He.
    destruct e as [t a ks |], e' as [t' a' ks' |]; simpl in *; try discriminate;
      [| reflexivity].
    rewrite <- He. apply noise_id_only.
    destruct Ha as [-> | [_ ->]]; [reflexivity | apply normalizeSvg_id].
  - refine (Forall2_transfer _ _ _ _ _ _ Hu Hl2).
    intros e e' Hr He Hleaf.
    assert (Hleaf0 : matches strokeLeaf e = true).
    { rewrite <- Hleaf. symmetry.
      apply (retagged_matches_tag _ _ strokeLeaf _ _ strokeLeaf_tag_only Hr). }
    destruct Hr as (_ & _ & [-> | [Hsvg _]]); [exact (He Hleaf0) |].
    rewrite (leaf_not_svg _ Hleaf0) in Hsvg. discriminate.
Qed.

End AnnotateExtras.

(** ** applyTransform and composite *)

Section TransformExtras.
Import Js Dom RangeStroke Ops Tree Samples.
Context `{Platform}.

Lemma filter_filter_neg {A} (p : A → bool) (l : list A) :
  List.filter p (List.filter (λ c, negb (p c)) l) = [].
Proof.
  induction l as [| x l IH]; [reflexivity |].
  simpl. destruct (p x) eqn:Hx; simpl; [exact IH | rewrite Hx; exact IH].
Qed.

Lemma filter_idem {A} (p : A → bool) (l : list A) :
  List.filter p (List.filter p l) = List.filter p l.
Proof.
  induction l as [| x l IH]; [reflexivity |].
  simpl. destruct (p x) eqn:Hx; simpl; [rewrite Hx, IH; reflexivity | exact IH].
Qed.

(** X8.  [applyTransform] on a document with an [svg] element: the
    element children of that element other than [style] and [defs] move,
    in their order, into one new group that carries the transform and
    comes last; [style], [defs] and text stay where they were.  A
    translation that is 0 or NaN is written 0 and a scale that is 0 or NaN
    is written 1.  The text returned is the serialization, or the input
    if the serializer raises. *)
Theorem applyTransform_wraps (svgText : string) (x y sx sy : float) (d : document)
    (t : string) (a : attrs) (ks : list node) :
  parseFromString svgText = Ret d →
  querySelector (sel_tag "svg") d = Some (Elem t a ks) →
  let stay := List.filter (λ c, negb (moved c)) ks in
  let g := Elem "g" [("transform", transform_text x y sx sy)]%string
             (List.filter moved ks) in
  ∃ d',
    applyTransformDoc x y sx sy d = Some d'
    ∧ applyTransform svgText x y sx sy = try_catch (serializeToString d') (Ret svgText)
    ∧ querySelector (sel_tag "svg") d' = Some (Elem t a (stay ++ [g]))
    ∧ Forall (λ c, isElement c = false ∨ keepTag c = true) stay
    ∧ Forall (λ c, isElement c = true ∧ keepTag c = false) (childNodes_of g)
    ∧ transform_text x y sx sy
      = ("translate(" ++ float_toString (if float_truthy x then x else float_of_Z 0)
           ++ "," ++ float_toString (if float_truthy y then y else float_of_Z 0)
           ++ ") scale(" ++ float_toString (if float_truthy sx then sx else float_of_Z 1)
           ++ "," ++ float_toString (if float_truthy sy then sy else float_of_Z 1)
           ++ ")")%string.
Proof.
  intros Hp Hq stay g.
  pose proof (update_first_spec (sel_tag "svg") (applyTransform_svg x y sx sy)
                (applyTransform_keeps_svg _ _ _ _) d) as Hu.
  unfold applyTransform, applyTransformDoc. rewrite Hp. cbn [mbind exc_bind].
  destruct (update_first _ _ d) as [d' |]; [| congruence].
  destruct Hu as (m & Hm & Hq'). rewrite Hq in Hm. injection Hm as <-.
  exists d'. split; [reflexivity |]. split; [reflexivity |]. split; [exact Hq' |].
  split; [| split; [| reflexivity]].
  - unfold stay. rewrite Forall_forall. intros c Hc.
    apply elem_of_filter_bool in Hc as [_ Hc]. unfold moved in Hc.
    destruct (isElement c); [right | left; reflexivity].
    destruct (keepTag c); [reflexivity | discriminate].
  - simpl. rewrite Forall_forall. intros c Hc.
    apply elem_of_filter_bool in Hc as [_ Hc]. unfold moved in Hc.
    apply andb_true_iff in Hc as [Hi Hk]. split; [exact Hi |].
    destruct (keepTag c); [discriminate | reflexivity].
Qed.

(** X9.  A second [applyTransform] does not merge with the first: the
    group of the first, with all it holds, becomes the only child of
    the group of the second, and what stayed at the root stays. *)
Theorem applyTransform_nests (x1 y1 sx1 sy1 x2 y2 sx2 sy2 : float) (d d1 : document)
    (t : string) (a : attrs) (ks : list node) :
  querySelector (sel_tag "svg") d = Some (Elem t a ks) →
  applyTransformDoc x1 y1 sx1 sy1 d = Some d1 →
  let stay := List.filter (λ c, negb (moved c)) ks in
  let g1 := Elem "g" [("transform", transform_text x1 y1 sx1 sy1)]%string
              (List.filter moved ks) in
  let g2 := Elem "g" [("transform", transform_text x2 y2 sx2 sy2)]%string [g1] in
  ∃ d2,
    applyTransformDoc x2 y2 sx2 sy2 d1 = Some d2
    ∧ querySelector (sel_tag "svg") d2 = Some (Elem t a (stay ++ [g2])).
Proof.
  intros Hq H1 stay g1 g2. unfold applyTransformDoc in *.
  rewrite (update_first_then _ _ _ _ _ (applyTransform_keeps_svg _ _ _ _) H1).
  clear H1.
  pose proof (update_first_spec (sel_tag "svg")
                (λ m, applyTransform_svg x2 y2 sx2 sy2 (applyTransform_svg x1 y1 sx1 sy1 m))
                (λ n Hn, applyTransform_keeps_svg _ _ _ _ _
                           (applyTransform_keeps_svg _ _ _ _ _ Hn)) d) as Hu.
  destruct (update_first _ _ d) as [d2 |]; [| congruence].
  destruct Hu as (m & Hm & Hq2). rewrite Hq in Hm. injection Hm as <-.
  exists d2. split; [reflexivity |]. rewrite Hq2. f_equal.
  cbn [applyTransform_svg]. fold g1. fold stay. f_equal.
  assert (Hg1 : moved g1 = true) by reflexivity.
  rewrite !List.filter_app. cbn [List.filter]. rewrite Hg1. cbn [negb app].
  unfold stay. rewrite filter_idem, filter_filter_neg, app_nil_r. reflexivity.
Qed.

Lemma appendChildren_keeps_svg cs n :
  matches (sel_tag "svg") n = true → matches (sel_tag "svg") (appendChildren cs n) = true.
Proof. destruct n; simpl; auto. Qed.

(** X10.  [composite] of two different texts whose documents both have an
    [svg] element appends copies of the element children of the second
    [svg] element after the children of the first; when one of the two
    documents has no [svg] element the first text is returned. *)
Theorem composite_appends (svgA svgB : string) (aDoc bDoc : document) :
  svgA ≠ svgB →
  parseFromString svgA = Ret aDoc →
  parseFromString svgB = Ret bDoc →
  (∀ t a ks inb,
     querySelector (sel_tag "svg") aDoc = Some (Elem t a ks) →
     querySelector (sel_tag "svg") bDoc = Some inb →
     ∃ aDoc',
       compositeDoc aDoc bDoc = Some aDoc'
       ∧ composite svgA svgB = serializeToString aDoc'
       ∧ querySelector (sel_tag "svg") aDoc' = Some (Elem t a (ks ++ children_of inb)))
  ∧ (querySelector (sel_tag "svg") aDoc = None
     ∨ querySelector (sel_tag "svg") bDoc = None →
     composite svgA svgB = Ret svgA).
Proof.
  intros Hne Ha Hb.
  assert (Hc : composite svgA svgB
               = match compositeDoc aDoc bDoc with
                 | None => Ret svgA
                 | Some a' => serializeToString a'
                 end).
  { unfold composite. destruct (String.eqb_spec svgA svgB); [congruence |].
    rewrite Ha, Hb. reflexivity. }
  split.
  - intros t a ks inb Hqa Hqb.
    pose proof (update_first_spec (sel_tag "svg") (appendChildren (children_of inb))
                  (appendChildren_keeps_svg _) aDoc) as Hu.
    rewrite Hc. unfold compositeDoc. rewrite Hqb. cbn [mbind option_bind].
    destruct (update_first _ _ aDoc) as [aDoc' |]; [| congruence].
    destruct Hu as (m & Hm & Hq'). rewrite Hqa in Hm. injection Hm as <-.
    exists aDoc'. split; [reflexivity |]. split; [reflexivity | exact Hq'].
  - intros Hnone. rewrite Hc. unfold compositeDoc.
    destruct (querySelector (sel_tag "svg") bDoc) as [inb |]; [| reflexivity].
    cbn [mbind option_bind].
    pose proof (update_first_spec (sel_tag "svg") (appendChildren (children_of inb))
                  (appendChildren_keeps_svg _) aDoc) as Hu.
    destruct (update_first _ _ aDoc) as [aDoc' |]; [| reflexivity].
    destruct Hu as (m & Hm & _). destruct Hnone; congruence.
Qed.

End TransformExtras.

(** ** Glyph resolution: ids and caches *)

Section GlyphExtras.
Import Js Dom Ops Glyph Samples.

Lemma hex_zeros_decode n s :
  HexadecimalString.NilEmpty.uint_of_string (repeat_char n "0" ++ s)
  = Nat.iter n (option_map Hexadecimal.D0) (HexadecimalString.NilEmpty.uint_of_string s).
Proof.
  induction n as [| n IH]; [reflexivity |].
  simpl. rewrite IH.
  destruct (Nat.iter n _ _); reflexivity.
Qed.

Lemma hex_zeros_value n u :
  option_map N.of_hex_uint (Nat.iter n (option_map Hexadecimal.D0) (Some u))
  = Some (N.of_hex_uint u).
Proof.
  induction n as [| n IH]; [reflexivity |].
  simpl. destruct (Nat.iter n _ _) as [u' |]; [| discriminate].
  simpl in *. exact IH.
Qed.

(** Reading the id back as a hexadecimal number gives the code point. *)
Lemma pad5_decode z :
  option_map N.of_hex_uint
    (HexadecimalString.NilEmpty.uint_of_string (pad5 (toString16 z)))
  = Some (Z.to_N z).
Proof.
  unfold pad5, padStart, toString16.
  rewrite hex_zeros_decode, HexadecimalString.NilEmpty.usu, hex_zeros_value.
  rewrite HexadecimalN.Unsigned.of_to. reflexivity.
Qed.

Lemma codePointAt0_nonneg s cp :
  Forall (λ u, 0 ≤ u < 65536) s → codePointAt0 s = Some cp → 0 ≤ cp.
Proof.
  destruct s as [| hi rest]; [discriminate |].
  intros [Hhi Hrest]%Forall_cons_1. simpl.
  destruct (isHighSurrogate hi) eqn:Hh; [| intros [= <-]; lia].
  destruct rest as [| lo rest]; [intros [= <-]; lia |].
  destruct (isLowSurrogate lo) eqn:Hl; [| intros [= <-]; lia].
  unfold isHighSurrogate, isLowSurrogate in *. intros [= <-]. lia.
Qed.

(** X11.  The id of a character determines its first code point: two
    strings of UTF-16 code units that [code5] sends to the same id begin
    with the same code point, so that the cache of sources, keyed by the
    id, never holds the source of one character under the id of
    another. *)
Theorem code5_determines_code_point (a b : jsstring) (c5 : string) :
  Forall (λ u, 0 ≤ u < 65536) a →
  Forall (λ u, 0 ≤ u < 65536) b →
  code5 a = Ret c5 → code5 b = Ret c5 →
  codePointAt0 a = codePointAt0 b.
Proof.
  intros Ha Hb. unfold code5.
  destruct (codePointAt0 a) as [x |] eqn:Hx; [| discriminate].
  destruct (codePointAt0 b) as [y |] eqn:Hy; [| discriminate].
  destruct (x =? 0); [discriminate |]. destruct (y =? 0); [discriminate |].
  intros [= <-] [= Heq].
  pose proof (pad5_decode x) as Dx. pose proof (pad5_decode y) as Dy.
  rewrite Heq in Dy. rewrite Dx in Dy. injection Dy as Hn.
  pose proof (codePointAt0_nonneg _ _ Ha Hx). pose proof (codePointAt0_nonneg _ _ Hb Hy).
  f_equal. lia.
Qed.

(** X12.  A character that was resolved is not fetched again: from the
    state a successful [fetchKanjiVGSvg] leaves, any later call for a
    string with the same id returns the same source, whatever the network
    does, and changes nothing. *)
Theorem resolved_once (net : Network) (ch : jsstring) (st st' : GlyphState)
    (v : string) :
  fetchKanjiVGSvg net ch st = (Ret v, st') →
  ∀ net' ch', code5 ch' = code5 ch → fetchKanjiVGSvg net' ch' st' = (Ret v, st').
Proof.
  intros Hf net' ch' Hc. unfold fetchKanjiVGSvg in *. rewrite Hc.
  destruct (code5 ch) as [e | c5]; [discriminate |].
  destruct (svgCache st !! c5) as [hit |] eqn:Hhit.
  - injection Hf as <- <-. rewrite Hhit. reflexivity.
  - destruct (nonEmpty (tryFetch net (githubSvgUrl c5) 6000)) as [gh |].
    + injection Hf as <- <-. simpl. rewrite lookup_insert_eq. reflexivity.
    + destruct (nonEmpty (tryFetch net (localSvgUrl c5) 6000)) as [local |];
        [| discriminate].
      injection Hf as <- <-. simpl. rewrite lookup_insert_eq. reflexivity.
Qed.

Lemma fetch_frame net ch st :
  preparedCache (fetchKanjiVGSvg net ch st).2 = preparedCache st.
Proof.
  unfold fetchKanjiVGSvg. destruct (code5 ch) as [e | c5]; [reflexivity |].
  destruct (svgCache st !! c5); [reflexivity |].
  destruct (nonEmpty (tryFetch net (githubSvgUrl c5) 6000)); [reflexivity |].
  destruct (nonEmpty (tryFetch net (localSvgUrl c5) 6000)); reflexivity.
Qed.

Lemma fetch_hit net ch st c5 raw :
  code5 ch = Ret c5 → svgCache st !! c5 = Some raw →
  fetchKanjiVGSvg net ch st = (Ret raw, st).
Proof. intros Hc Hs. unfold fetchKanjiVGSvg. rewrite Hc, Hs. reflexivity. Qed.

Lemma fetch_success_cached net ch st raw st1 :
  fetchKanjiVGSvg net ch st = (Ret raw, st1) →
  ∃ c5, code5 ch = Ret c5 ∧ svgCache st1 !! c5 = Some raw.
Proof.
  unfold fetchKanjiVGSvg. destruct (code5 ch) as [e | c5]; [discriminate |].
  intros Hf. exists c5. split; [reflexivity |].
  destruct (svgCache st !! c5) as [hit |] eqn:Hhit.
  - injection Hf as <- <-. exact Hhit.
  - destruct (nonEmpty (tryFetch net (githubSvgUrl c5) 6000)) as [gh |].
    + injection Hf as <- <-. simpl. apply lookup_insert_eq.
    + destruct (nonEmpty (tryFetch net (localSvgUrl c5) 6000)) as [local |];
        [| discriminate].
      injection Hf as <- <-. simpl. apply lookup_insert_eq.
Qed.

Context `{Platform}.

Lemma getPreparedSvg_requests_cached net ch h st c5 raw :
  code5 ch = Ret c5 → svgCache st !! c5 = Some raw →
  requests (getPreparedSvg net ch h st).2 = requests st.
Proof.
  intros Hc Hs. unfold getPreparedSvg.
  destruct (preparedCache st !! (ch, h)); [reflexivity |].
  rewrite (fetch_hit net ch st c5 raw Hc Hs).
  destruct (_ ≫= _) as [e | white]; reflexivity.
Qed.

(** X13.  A prepared glyph is computed once.  After [getPreparedSvg]
    has returned for a character that was not in the cache of prepared
    glyphs, the same call returns the same text from any network and
    leaves the state as it is; and a call for the other value of [hide]
    sends no request, the source being in the cache of sources. *)
Theorem prepared_once (net : Network) (ch : jsstring) (hide : bool)
    (st st' : GlyphState) (v : string) :
  preparedCache st !! (ch, hide) = None →
  getPreparedSvg net ch hide st = (Ret v, st') →
  (∀ net', getPreparedSvg net' ch hide st' = (Ret v, st'))
  ∧ (∀ net' hide', requests (getPreparedSvg net' ch hide' st').2 = requests st').
Proof.
  intros Hmiss Hg. unfold getPreparedSvg in Hg. rewrite Hmiss in Hg.
  destruct (fetchKanjiVGSvg net ch st) as [[e | raw] st1] eqn:Hf; [discriminate |].
  destruct (fetch_success_cached _ _ _ _ _ Hf) as (c5 & Hc & Hs).
  destruct (_ ≫= _) as [e | white]; [discriminate |].
  injection Hg as <- <-. split.
  - intros net'. unfold getPreparedSvg. simpl. rewrite lookup_insert_eq. reflexivity.
  - intros net' hide'.
    apply (getPreparedSvg_requests_cached net' ch hide' _ c5 raw Hc). exact Hs.
Qed.

(** X14.  What a failure of [getPreparedSvg] leaves and means.  Nothing
    is added to the cache of prepared glyphs.  The answer of the worker
    to the same request, from the same network and the same cache
    contents, is [null]: either the source was not found, or
    [hideStrokeNumbers] or [annotateStrokes] raised, and the worker runs
    the same steps; [forceStrokeColor], the one step it leaves out, does
    not raise. *)
Theorem prepared_failure (net : Network) (ch : jsstring) (hide : bool)
    (st : GlyphState) (e : error) :
  (getPreparedSvg net ch hide st).1 = Throw e →
  preparedCache (getPreparedSvg net ch hide st).2 = preparedCache st
  ∧ (worker_kanji net ch hide st).1 = None.
Proof.
  unfold getPreparedSvg, worker_kanji.
  destruct (preparedCache st !! (ch, hide)); [discriminate |].
  pose proof (fetch_frame net ch st) as Hframe.
  destruct (fetchKanjiVGSvg net ch st) as [[e' | raw] st1]; simpl in Hframe.
  - intros _. split; [exact Hframe | reflexivity].
  - destruct (if hide then hideStrokeNumbers raw else Ret raw) as [e1 | hidden];
      cbn [mbind exc_bind]; [intros _; split; [exact Hframe | reflexivity] |].
    destruct (annotateStrokes hidden) as [e2 | annotated];
      cbn [mbind exc_bind]; [intros _; split; [exact Hframe | reflexivity] |].
    unfold forceStrokeColor.
    destruct (try_catch_returns
                (doc ← parseFromString annotated;
                 match forceStrokeColorDoc "#fff" doc with
                 | Some doc' => serializeToString doc'
                 | None => Ret annotated
                 end) (Ret annotated) annotated eq_refl) as (out & ->).
    discriminate.
Qed.

End GlyphExtras.

(** ** The evaluation pass on graphs without a cycle *)

Section EngineExtras.
Import Js Dom RangeStroke Ops Glyph Engine Samples.
Context `{Platform}.
Variable oracle : GlyphOracle.
Variable nodes : list FlowNode.
Variable edges : list Edge.

Lemma ins_target id e : e ∈ ins edges id → e ∈ edges ∧ target e = id.
Proof.
  unfold ins. intros He. apply elem_of_filter_bool in He as [He Ht].
  split; [exact He | apply String.eqb_eq, Ht].
Qed.

Lemma eval_deps_returns self es :
  (∀ e, e ∈ es → ∀ m, ∃ m' v, self m (source e) = Some (m', v)) →
  ∀ memo, ∃ memo1, eval_deps self es memo = Some memo1.
Proof.
  induction es as [| e r IH]; intros Hself memo; [eexists; reflexivity |].
  simpl. destruct (memo !! source e).
  - apply IH. intros e' He'. apply Hself. right. exact He'.
  - destruct (Hself e ltac:(left) memo) as (m' & v & ->). cbn [mbind option_bind].
    apply IH. intros e' He'. apply Hself. right. exact He'.
Qed.

Lemma eval_deps_ext self self' es :
  (∀ e, e ∈ es → ∀ m r, self m (source e) = Some r → self' m (source e) = Some r) →
  ∀ memo memo1, eval_deps self es memo = Some memo1 →
                eval_deps self' es memo = Some memo1.
Proof.
  induction es as [| e r IH]; intros Hs memo memo1; [trivial |].
  simpl. destruct (memo !! source e).
  - apply IH. intros e' He'. apply Hs. right. exact He'.
  - destruct (self memo (source e)) as [[m' v] |] eqn:Hself; [| discriminate].
    rewrite (Hs e ltac:(left) memo _ Hself). cbn [mbind option_bind].
    apply IH. intros e' He'. apply Hs. right. exact He'.
Qed.

Lemma evalNode_S fuel (memo : gmap string Promise) id :
  evalNode oracle nodes edges (S fuel) memo id
  = match memo !! id with
    | Some v => Some (memo, v)
    | None =>
        match byId nodes id with
        | None => Some (memo, Ret None)
        | Some n =>
            memo1 ← eval_deps (evalNode oracle nodes edges fuel) (ins edges id) memo;
            let v := evalBody oracle edges memo1 id n in
            Some (<[id := v]> memo1, v)
        end
    end.
Proof. reflexivity. Qed.

(** More nested calls than needed change nothing. *)
Lemma evalNode_fuel_mono fuel :
  ∀ memo id r, evalNode oracle nodes edges fuel memo id = Some r →
               evalNode oracle nodes edges (S fuel) memo id = Some r.
Proof.
  induction fuel as [| fuel IH]; intros memo id r; [discriminate |].
  intros Hr. rewrite evalNode_S in Hr. rewrite (evalNode_S (S fuel)).
  destruct (memo !! id); [exact Hr |].
  destruct (byId nodes id) as [n |]; [| exact Hr].
  destruct (eval_deps (evalNode oracle nodes edges fuel) (ins edges id) memo)
    as [memo1 |] eqn:Hd; [| discriminate].
  rewrite (eval_deps_ext _ (evalNode oracle nodes edges (S fuel)) _
             (λ e _ m r', IH m (source e) r') memo memo1 Hd).
  exact Hr.
Qed.

Lemma evalNode_fuel_le fuel fuel' memo id r :
  (fuel ≤ fuel')%nat →
  evalNode oracle nodes edges fuel memo id = Some r →
  evalNode oracle nodes edges fuel' memo id = Some r.
Proof.
  induction 1 as [| k _ IH]; [trivial |]. intros Hr. apply evalNode_fuel_mono, IH, Hr.
Qed.

(** X15.  On a graph without a cycle the evaluation pass of the
    application returns.  When every edge goes from a node of lower rank
    to a node of higher rank, [evalNode] returns for every node and every
    table within as many nested calls as the rank of the node plus one,
    and more nested calls give the same result. *)
Theorem evalNode_returns_on_ranked (rank : string → nat) :
  (∀ e, e ∈ edges → (rank (source e) < rank (target e))%nat) →
  ∀ id (memo : gmap string Promise),
    ∃ memo' v,
      evalNode oracle nodes edges (S (rank id)) memo id = Some (memo', v)
      ∧ ∀ fuel, (rank id < fuel)%nat →
          evalNode oracle nodes edges fuel memo id = Some (memo', v).
Proof.
  intros Hrank.
  assert (Hgen : ∀ fuel id (memo : gmap string Promise), (rank id < fuel)%nat →
            ∃ memo' v, evalNode oracle nodes edges fuel memo id = Some (memo', v)).
  { induction fuel as [| fuel IH]; intros id memo Hlt; [lia |].
    rewrite evalNode_S. destruct (memo !! id); [eauto |].
    destruct (byId nodes id) as [n |]; [| eauto].
    destruct (eval_deps_returns (evalNode oracle nodes edges fuel) (ins edges id))
      with (memo := memo) as (memo1 & ->).
    - intros e He m. apply ins_target in He as [He Ht]. apply IH.
      specialize (Hrank e He). rewrite Ht in Hrank. lia.
    - cbn [mbind option_bind]. eauto. }
  intros id memo. destruct (Hgen (S (rank id)) id memo ltac:(lia)) as (memo' & v & Hr).
  exists memo', v. split; [exact Hr |].
  intros fuel Hlt. apply (evalNode_fuel_le (S (rank id))); [lia | exact Hr].
Qed.

End EngineExtras.

(** ** The branches of the evaluators *)

Section BranchExtras.
Import Js Dom RangeStroke Ops Glyph Engine Samples.
Context `{Platform}.

Lemma bakeDoc_count_nonneg d d' c : bakeDoc d = Some (d', c) → 0 ≤ c.
Proof.
  intros Hb. destruct (bakeDoc_shape d d' c Hb) as (d2 & t & a & ks & _ & _ & Hc).
  cbn zeta in Hc. subst c. unfold count_or_length.
  pose proof (fold_max_ge
                (List.filter (has_drawable (carriers d2))
                   (sorted_nums (fill_bucket (carriers d2)))) 0) as Hmax.
  fold (max_index (List.filter (has_drawable (carriers d2))
                     (sorted_nums (fill_bucket (carriers d2))))) in Hmax.
  destruct (_ =? 0); lia.
Qed.

Lemma bakeStrokes_count_nonneg text baked :
  bakeStrokes text = Ret baked → 0 ≤ count baked.
Proof.
  unfold bakeStrokes. destruct (parseFromString text) as [e | d]; [discriminate |].
  cbn [mbind exc_bind]. destruct (bakeDoc d) as [[d' c] |] eqn:Hb.
  - destruct (serializeToString d') as [e | out]; [discriminate |].
    cbn [mbind exc_bind]. intros [= <-]. simpl. eapply bakeDoc_count_nonneg, Hb.
  - intros [= <-]. simpl. lia.
Qed.

Lemma countStrokes_returns text : ∃ z, countStrokes text = Ret (Num z) ∧ 1 ≤ z.
Proof.
  unfold countStrokes. destruct (parseFromString text) as [e | doc]; simpl.
  - exists 1. split; [reflexivity | lia].
  - destruct (countStrokesDoc_positive doc) as (z & -> & Hz). eauto.
Qed.

Lemma nonEmpty_text text : text ≠ EmptyString → nonEmpty (Some text) = Some text.
Proof.
  intros Hne. unfold nonEmpty, truthy.
  destruct (String.eqb_spec text ""); [congruence | reflexivity].
Qed.

(** The bounds of a Range node in the evaluation pass of the
    application, from the fields of the node and the count of the bake. *)
Lemma range_branch_bounds (d : NodeData) (c : Z) :
  let c1 := num_or (Num c) (Num 1) in
  let s := Math_max (Num 1) (Math_min (num_or (start d) (Num 1)) c1) in
  let e := Math_max (Num 1)
             (Math_min (num_or (num_or (end_ d) (Num c)) (Num 1)) c1) in
  ∃ s' e', Math_min s e = Num s' ∧ Math_max s e = Num e'
           ∧ 1 ≤ s' ∧ s' ≤ e' ∧ e' ≤ Z.max 1 c.
Proof.
  cbn zeta. unfold num_or, num_truthy.
  destruct (start d) as [| zs], (end_ d) as [| ze];
    repeat (cbn [negb Math_max Math_min];
            match goal with
            | |- context [?z =? 0] => destruct (Z.eqb_spec z 0)
            end);
    cbn [negb Math_max Math_min];
    eexists _, _; (split; [reflexivity |]); (split; [reflexivity |]); lia.
Qed.

(** The same in [evalNodeSvg], from the count [maxC] in use there. *)
Lemma range_branch_svg_bounds (d : NodeData) (maxC : Z) :
  1 ≤ maxC →
  let sRaw := num_or (start d) (Num 1) in
  let eRaw := num_or (end_ d) (Num maxC) in
  let s := Math_min (Math_max (Num 1) (Math_min sRaw eRaw)) (Num maxC) in
  let e := Math_min (Math_max (Num 1) (Math_max sRaw eRaw)) (Num maxC) in
  ∃ s' e', s = Num s' ∧ e = Num e' ∧ 1 ≤ s' ∧ s' ≤ e' ∧ e' ≤ maxC.
Proof.
  intros Hc. cbn zeta. unfold num_or, num_truthy.
  destruct (start d) as [| zs], (end_ d) as [| ze];
    repeat (cbn [negb Math_max Math_min];
            match goal with
            | |- context [?z =? 0] => destruct (Z.eqb_spec z 0)
            end);
    cbn [negb Math_max Math_min];
    eexists _, _; (split; [reflexivity |]); (split; [reflexivity |]); lia.
Qed.

(** X16.  A Range node never asks [applyRangeBaked] for bounds outside
    the strokes: in the evaluation pass of the application and in
    [evalNodeSvg] alike, whatever [start] and [end] the node holds (0 and
    NaN included), the bounds passed are integers [s ≤ e] between 1 and
    the count in use, which is the count of the bake when that is not
    0. *)
Theorem range_bounds_clamped (d : NodeData) (text : string) (baked : BakedSvg) :
  text ≠ EmptyString →
  bakeStrokes text = Ret baked →
  (∃ s e,
     1 ≤ s ∧ s ≤ e ∧ e ≤ Z.max 1 (count baked)
     ∧ range_branch d (Some text)
       = (out ← applyRangeBaked (svg baked) (Num s) (Num e); Ret (Some out)))
  ∧ (∃ s e maxC,
       1 ≤ s ∧ s ≤ e ∧ e ≤ maxC
       ∧ (count baked ≠ 0 → maxC = count baked)
       ∧ range_branch_svg d (Some text)
         = (out ← applyRangeBaked (svg baked) (Num s) (Num e); Ret (Some out))).
Proof.
  intros Hne Hb. pose proof (bakeStrokes_count_nonneg _ _ Hb) as Hc0. split.
  - destruct (range_branch_bounds d (count baked)) as (s & e & Hs & He & H1 & H2 & H3).
    exists s, e. split; [exact H1 |]. split; [exact H2 |]. split; [exact H3 |].
    unfold range_branch. rewrite (nonEmpty_text _ Hne), Hb. cbn [mbind exc_bind].
    cbn zeta in Hs, He. rewrite Hs, He. reflexivity.
  - unfold range_branch_svg. rewrite (nonEmpty_text _ Hne), Hb. cbn [mbind exc_bind].
    assert (Hcounted : ∃ maxC, 1 ≤ maxC ∧ (count baked ≠ 0 → maxC = count baked)
              ∧ (if num_truthy (Num (count baked)) then Ret (Num (count baked))
                 else countStrokes (svg baked)) = Ret (Num maxC)).
    { unfold num_truthy. destruct (Z.eqb_spec (count baked) 0) as [Hz | Hnz]; simpl.
      - destruct (countStrokes_returns (svg baked)) as (z & Hz' & Hz1).
        exists z. split; [exact Hz1 |]. split; [congruence | exact Hz'].
      - exists (count baked). split; [lia |]. split; reflexivity. }
    destruct Hcounted as (maxC & HmaxC & Hcnt & ->). cbn [mbind exc_bind].
    assert (Hor : num_or (Num maxC) (Num 1) = Num maxC).
    { unfold num_or, num_truthy. destruct (Z.eqb_spec maxC 0); [lia | reflexivity]. }
    rewrite Hor.
    destruct (range_branch_svg_bounds d maxC HmaxC) as (s & e & Hs & He & H1 & H2 & H3).
    cbn zeta in Hs, He. rewrite Hs, He.
    exists s, e, maxC. repeat (split; [assumption |]). reflexivity.
Qed.

Lemma float_or_falsy_or v dflt :
  float_or (falsy_or v dflt) (float_of_Z dflt) = float_or (nullish v dflt) (float_of_Z dflt).
Proof.
  unfold falsy_or, nullish, float_or. destruct v as [f |]; [| reflexivity].
  destruct (float_truthy f) eqn:Hf; [rewrite Hf; reflexivity |].
  destruct (float_truthy (float_of_Z dflt)); reflexivity.
Qed.

Lemma applyTransform_by_text text x y sx sy x' y' sx' sy' :
  transform_text x y sx sy = transform_text x' y' sx' sy' →
  applyTransform text x y sx sy = applyTransform text x' y' sx' sy'.
Proof.
  intros Ht. unfold applyTransform, applyTransformDoc.
  destruct (parseFromString text) as [e | doc]; [reflexivity |].
  cbn [mbind exc_bind].
  rewrite (update_first_ext (sel_tag "svg") (applyTransform_svg x y sx sy)
             (applyTransform_svg x' y' sx' sy')); [reflexivity |].
  intros [t a ks |] _; [| reflexivity]. simpl. rewrite Ht. reflexivity.
Qed.

(** X17.  The evaluation pass of the application and [evalNodeSvg]
    compute the same artifact from the same input on a Transform node,
    on a Composite node (for the copy of [evalNodeSvg] in the Composite
    component), and on a Range node whose bake has a count other than
    0. *)
Theorem evaluators_agree (d : NodeData) (input a b : option string) :
  transform_branch d input = transform_branch_svg d input
  ∧ composite_branch d a b = composite_branch_svg InCompositeNode d a b
  ∧ ((∀ text baked, nonEmpty input = Some text → bakeStrokes text = Ret baked →
                    count baked ≠ 0) →
     range_branch d input = range_branch_svg d input).
Proof.
  split; [| split; [reflexivity |]].
  - unfold transform_branch, transform_branch_svg.
    destruct (nonEmpty input) as [text |]; [| reflexivity].
    rewrite (applyTransform_by_text text _ _ _ _
               (nullish (x d) 0) (nullish (y d) 0) (nullish (sx d) 1) (nullish (sy d) 1));
      [reflexivity |].
    unfold transform_text. rewrite !float_or_falsy_or. reflexivity.
  - intros Hcount. unfold range_branch, range_branch_svg.
    destruct (nonEmpty input) as [text |]; [| reflexivity].
    destruct (bakeStrokes text) as [e | baked] eqn:Hb; [reflexivity |].
    cbn [mbind exc_bind].
    pose proof (Hcount text baked eq_refl Hb) as Hnz.
    pose proof (bakeStrokes_count_nonneg _ _ Hb) as Hc0.
    assert (Ht : num_truthy (Num (count baked)) = true).
    { unfold num_truthy. destruct (Z.eqb_spec (count baked) 0); [congruence | reflexivity]. }
    rewrite Ht. cbn [mbind exc_bind].
    assert (Hbounds :
      ∀ c, 1 ≤ c →
        let c1 := num_or (Num c) (Num 1) in
        let s := Math_max (Num 1) (Math_min (num_or (start d) (Num 1)) c1) in
        let e := Math_max (Num 1)
                   (Math_min (num_or (num_or (end_ d) (Num c)) (Num 1)) c1) in
        let sRaw := num_or (start d) (Num 1) in
        let eRaw := num_or (end_ d) (num_or (Num c) (Num 1)) in
        Math_min s e = Math_min (Math_max (Num 1) (Math_min sRaw eRaw)) c1
        ∧ Math_max s e = Math_min (Math_max (Num 1) (Math_max sRaw eRaw)) c1).
    { intros c Hc. cbn zeta. unfold num_or, num_truthy.
      destruct (start d) as [| zs], (end_ d) as [| ze];
        repeat (cbn [negb Math_max Math_min];
                match goal with
                | |- context [?z =? 0] => destruct (Z.eqb_spec z 0)
                end);
        cbn [negb Math_max Math_min]; split; f_equal; lia. }
    destruct (Hbounds (count baked) ltac:(lia)) as [-> ->]. reflexivity.
Qed.

End BranchExtras.

(** ** The caches of the previews *)

Section CacheExtras.
Import Js Dom RangeStroke Ops Glyph Cache Samples.
Context `{Platform}.

Lemma nonEmpty_lookup_insert (k : jsstring) (v : string) (m : gmap jsstring string) :
  v ≠ EmptyString → nonEmpty (<[k := v]> m !! k) = Some v.
Proof.
  intros Hv. rewrite lookup_insert_eq. unfold nonEmpty, truthy.
  destruct (String.eqb_spec v ""); [congruence | reflexivity].
Qed.

(** X18.  The caches of the previews are keyed by the length of the
    text, its first 64 code units (32 for each text of a composition) and
    the parameters, not by the text.  Once a call has returned a result
    that is not empty, a call with the same parameters for any text of
    that length and with those first code units returns that result,
    without computing anything, and leaves the cache as it is. *)
Theorem preview_caches_keyed_by_prefix :
  (∀ base base' s e cache cache' v,
     getRangeSvgCached base s e cache = (Ret v, cache') → v ≠ EmptyString →
     length16 base' = length16 base → slice0 64 base' = slice0 64 base →
     getRangeSvgCached base' s e cache' = (Ret v, cache'))
  ∧ (∀ base base' x y sx sy cache cache' v,
       getTransformSvgCached base x y sx sy cache = (Ret v, cache') → v ≠ EmptyString →
       length16 base' = length16 base → slice0 64 base' = slice0 64 base →
       getTransformSvgCached base' x y sx sy cache' = (Ret v, cache'))
  ∧ (∀ a a' b b' aa ab sw cache cache' v,
       getCompositeSvgCached a b aa ab sw cache = (Ret v, cache') → v ≠ EmptyString →
       length16 a' = length16 a → slice0 32 a' = slice0 32 a →
       length16 b' = length16 b → slice0 32 b' = slice0 32 b →
       getCompositeSvgCached a' b' aa ab sw cache' = (Ret v, cache')).
Proof.
  split; [| split].
  - intros base base' s e cache cache' v Hg Hv Hlen Hpre.
    assert (Hk : cacheKeyRange base' s e = cacheKeyRange base s e)
      by (unfold cacheKeyRange; rewrite Hlen, Hpre; reflexivity).
    unfold getRangeSvgCached in *. rewrite Hk.
    destruct (nonEmpty (cache !! cacheKeyRange base s e)) as [hit |] eqn:Hhit.
    + injection Hg as <- <-. rewrite Hhit. reflexivity.
    + destruct (applyRangeBaked base s e) as [err | out]; [discriminate |].
      injection Hg as <- <-. rewrite (nonEmpty_lookup_insert _ _ _ Hv). reflexivity.
  - intros base base' x y sx sy cache cache' v Hg Hv Hlen Hpre.
    assert (Hk : cacheKeyTransform base' x y sx sy = cacheKeyTransform base x y sx sy)
      by (unfold cacheKeyTransform; rewrite Hlen, Hpre; reflexivity).
    unfold getTransformSvgCached in *. rewrite Hk.
    destruct (nonEmpty (cache !! cacheKeyTransform base x y sx sy)) as [hit |] eqn:Hhit.
    + injection Hg as <- <-. rewrite Hhit. reflexivity.
    + destruct (applyTransform base x y sx sy) as [err | out]; [discriminate |].
      injection Hg as <- <-. rewrite (nonEmpty_lookup_insert _ _ _ Hv). reflexivity.
  - intros a a' b b' aa ab sw cache cache' v Hg Hv Hla Hpa Hlb Hpb.
    assert (Hk : cacheKeyComposite a' b' aa ab sw = cacheKeyComposite a b aa ab sw)
      by (unfold cacheKeyComposite; rewrite Hla, Hpa, Hlb, Hpb; reflexivity).
    unfold getCompositeSvgCached in *. rewrite Hk.
    destruct (nonEmpty (cache !! cacheKeyComposite a b aa ab sw)) as [hit |] eqn:Hhit.
    + injection Hg as <- <-. rewrite Hhit. reflexivity.
    + destruct (compositeAlpha a b aa ab sw) as [err | out]; [discriminate |].
      injection Hg as <- <-. rewrite (nonEmpty_lookup_insert _ _ _ Hv). reflexivity.
Qed.

End CacheExtras.

(** ** Adding nodes *)

Section UiFacts.
Import Js Glyph Ui.

Lemma codePoints_cons_length u r : (1 ≤ length (codePoints (u :: r)))%nat.
Proof.
  destruct r as [| u' r']; [simpl; lia |].
  cbn [codePoints]. destruct (isHighSurrogate u && isLowSurrogate u'); simpl; lia.
Qed.

Lemma codePoints_two hi lo rest :
  codePoints (hi :: lo :: rest)
  = if isHighSurrogate hi && isLowSurrogate lo
    then ((hi - 55296) * 1024 + (lo - 56320) + 65536) :: codePoints rest
    else hi :: codePoints (lo :: rest).
Proof. reflexivity. Qed.

Lemma firstOf_one ch :
  ch ≠ [] → (firstOf ch = Some ch ↔ length (codePoints ch) = 1%nat).
Proof.
  destruct ch as [| hi rest]; [congruence |]. intros _.
  destruct rest as [| lo rest']; [simpl; split; reflexivity |].
  rewrite codePoints_two. cbn [firstOf].
  destruct (isHighSurrogate hi && isLowSurrogate lo).
  - destruct rest' as [| u r]; [simpl; split; reflexivity |].
    pose proof (codePoints_cons_length u r) as Hl.
    split; [intros Heq; discriminate Heq |]. cbn [length]. lia.
  - pose proof (codePoints_cons_length lo rest') as Hl.
    split; [intros Heq; discriminate Heq |]. cbn [length]. lia.
Qed.

Lemma grid_step m :
  0 ≤ m →
  (if 800 <? (grid m).1 + 140 then (60, (grid m).2 + 160) else ((grid m).1 + 140, (grid m).2))
  = grid (m + 1).
Proof.
  intros Hm. unfold grid. cbn [fst snd].
  assert (H6 : m = 6 * (m / 6) + m mod 6) by (apply Z.div_mod; lia).
  assert (Hr : 0 ≤ m mod 6 < 6) by (apply Z.mod_pos_bound; lia).
  destruct (Z.ltb_spec 800 (60 + 140 * (m mod 6) + 140)).
  - assert (Hq : (m + 1) / 6 = m / 6 + 1).
    { symmetry. apply (Z.div_unique (m + 1) 6 (m / 6 + 1) 0); lia. }
    assert (Hm0 : (m + 1) mod 6 = 0).
    { symmetry. apply (Z.mod_unique (m + 1) 6 (m / 6 + 1) 0); lia. }
    rewrite Hq, Hm0. f_equal; lia.
  - assert (Hq : (m + 1) / 6 = m / 6).
    { symmetry. apply (Z.div_unique (m + 1) 6 (m / 6) (m mod 6 + 1)); lia. }
    assert (Hm0 : (m + 1) mod 6 = m mod 6 + 1).
    { symmetry. apply (Z.mod_unique (m + 1) 6 (m / 6) (m mod 6 + 1)); lia. }
    rewrite Hq, Hm0. f_equal; lia.
Qed.

Lemma grid_injective a b : 0 ≤ a → 0 ≤ b → grid a = grid b → a = b.
Proof.
  unfold grid. intros Ha Hb Hg. apply pair_equal_spec in Hg as [H1 H2].
  assert (Hr : a mod 6 = b mod 6) by (clear -H1; lia).
  assert (Hq : a / 6 = b / 6) by (clear -H2; lia).
  rewrite (Z.div_mod a 6), (Z.div_mod b 6), Hr, Hq by lia. reflexivity.
Qed.

Lemma String_of_injective a b : 0 ≤ a → 0 ≤ b → String_of a = String_of b → a = b.
Proof.
  intros Ha Hb Heq.
  pose proof (parseInt10_String_of a Ha) as Pa.
  pose proof (parseInt10_String_of b Hb) as Pb.
  rewrite Heq in Pa. rewrite Pa in Pb. injection Pb as ->. reflexivity.
Qed.

Lemma last_in {A} (l : list A) x : last l = Some x → x ∈ l.
Proof.
  destruct l as [| y l'] using rev_ind; [discriminate |].
  rewrite last_snoc. intros [= <-]. apply elem_of_app. right. left.
Qed.

Lemma wellformed_settle s : wellformed s → wellformed (settlePreview s).
Proof.
  intros Hw. unfold settlePreview. destruct (previewId s) as [p |]; [| exact Hw].
  destruct (String.eqb p ""); [exact Hw |]. destruct (existsb _ _); [exact Hw |].
  destruct Hw as (Hids & Hid1 & Hlay & Hpos & Hkanji & _).
  unfold wellformed. cbn [refs nodes previewId].
  repeat (split; [assumption |]).
  intros q Hq. destruct (last (nodes s)) as [n |] eqn:Hlast; [| discriminate].
  injection Hq as <-. rewrite Forall_forall in Hpos.
  destruct (Hpos n (last_in _ _ Hlast)) as (k & Hk & -> & _).
  apply String_of_nonempty. lia.
Qed.

Lemma settlePreview_names s p :
  (∀ q, previewId s = Some q → q ≠ EmptyString) →
  previewId (settlePreview s) = Some p → p ∈ map u_id (nodes (settlePreview s)).
Proof.
  intros Hne. unfold settlePreview. destruct (previewId s) as [q |] eqn:Hq; [| congruence].
  destruct (String.eqb_spec q "") as [-> | _]; [specialize (Hne _ eq_refl); congruence |].
  destruct (existsb _ _) eqn:Hex.
  - rewrite Hq. intros [= <-]. apply existsb_exists in Hex as (n & Hn & Heq).
    apply String.eqb_eq in Heq. subst q. apply list_elem_of_fmap.
    exists n. split; [reflexivity | apply list_elem_of_In, Hn].
  - cbn [previewId nodes]. destruct (last (nodes s)) as [n |] eqn:Hlast; [| discriminate].
    intros [= <-]. apply list_elem_of_fmap. exists n.
    split; [reflexivity | apply last_in, Hlast].
Qed.

Lemma wellformed_addNode type ch st :
  (type = "kanji"%string → kanjiNodeRejects ch = false) →
  wellformed st → wellformed (addNode type ch st).
Proof.
  intros Hch ((ks & Hids & Hsorted & Hlt) & Hid1 & Hlay & Hpos & Hkanji & _).
  unfold wellformed, addNode, nextId, nextPos. cbn [idRef layoutRef].
  destruct (layoutRef (refs st)) as [x y] eqn:Hxy. cbn [refs nodes idRef layoutRef previewId].
  split; [| split; [lia | split; [| split; [| split]]]].
  - exists (ks ++ [idRef (refs st)]). rewrite !map_app, Hids. split; [reflexivity |].
    split.
    + clear Hids. induction Hsorted as [| k r Hr IH Hk]; simpl.
      * constructor; constructor.
      * apply Forall_cons_1 in Hlt as [Hk1 Hlt]. constructor; [apply IH, Hlt |].
        apply Forall_app. split; [exact Hk |]. constructor; [lia | constructor].
    + apply Forall_app. split.
      * eapply Forall_impl; [exact Hlt |]. simpl. intros k Hk. lia.
      * constructor; [lia | constructor].
  - replace (idRef (refs st) + 1 - 1) with ((idRef (refs st) - 1) + 1) by lia.
    rewrite <- grid_step by lia. rewrite <- Hlay. reflexivity.
  - apply Forall_app. split; [exact Hpos |]. constructor; [| constructor].
    exists (idRef (refs st)). split; [lia |]. split; [reflexivity |].
    cbn [u_position]. congruence.
  - apply Forall_app. split; [exact Hkanji |]. constructor; [exact Hch | constructor].
  - intros p [= <-]. apply String_of_nonempty. lia.
Qed.

Lemma sorted_ids_filter (p : UiNode → bool) (l : list UiNode) (bound : Z) ks :
  map u_id l = map String_of ks →
  StronglySorted Z.lt ks →
  Forall (λ k, 1 ≤ k < bound) ks →
  ∃ ks', map u_id (List.filter p l) = map String_of ks'
         ∧ StronglySorted Z.lt ks'
         ∧ Forall (λ k, 1 ≤ k < bound) ks'
         ∧ ∀ k, k ∈ ks' → k ∈ ks.
Proof.
  revert ks. induction l as [| n l IH]; intros ks Hids Hs Hlt.
  - exists []. split; [reflexivity |]. split; [constructor |]. split; [constructor |].
    intros k Hk. inversion Hk.
  - destruct ks as [| k ks]; [discriminate |]. simpl in Hids. injection Hids as Hn Hl.
    apply StronglySorted_inv in Hs as [Hs Hk]. apply Forall_cons_1 in Hlt as [Hk1 Hlt].
    destruct (IH ks Hl Hs Hlt) as (ks' & Hids' & Hs' & Hlt' & Hin).
    simpl. destruct (p n).
    + exists (k :: ks'). simpl. rewrite Hn, Hids'. split; [reflexivity |].
      split; [| split].
      * constructor; [exact Hs' |]. rewrite Forall_forall. intros k' Hk'.
        rewrite Forall_forall in Hk. apply Hk, Hin, Hk'.
      * constructor; assumption.
      * intros k' [-> | Hk']%elem_of_cons; [left | right; apply Hin, Hk'].
    + exists ks'. split; [exact Hids' |]. split; [exact Hs' |]. split; [exact Hlt' |].
      intros k' Hk'. right. apply Hin, Hk'.
Qed.

Lemma wellformed_deleteNode id st : wellformed st → wellformed (deleteNode id st).
Proof.
  intros ((ks & Hids & Hsorted & Hlt) & Hid1 & Hlay & Hpos & Hkanji & Hprev).
  unfold wellformed. cbn [deleteNode refs nodes previewId].
  split.
  { destruct (sorted_ids_filter (λ n, negb (String.eqb (u_id n) id)) _ _ ks
                Hids Hsorted Hlt) as (ks' & H1 & H2 & H3 & _). eauto. }
  split; [exact Hid1 |]. split; [exact Hlay |].
  split; [| split; [| exact Hprev]].
  - rewrite Forall_forall in Hpos. rewrite Forall_forall. intros n Hn.
    apply elem_of_filter_bool in Hn as [Hn _]. auto.
  - rewrite Forall_forall in Hkanji. rewrite Forall_forall. intros n Hn.
    apply elem_of_filter_bool in Hn as [Hn _]. auto.
Qed.

Lemma wellformed_undoLast st : wellformed st → wellformed (undoLast st).
Proof.
  intros Hw. unfold undoLast.
  destruct (last (nodes st)) as [removed |] eqn:Hlast; [| exact Hw].
  destruct Hw as ((ks & Hids & Hsorted & Hlt) & Hid1 & Hlay & Hpos & Hkanji & Hprev).
  unfold wellformed. cbn [refs nodes previewId].
  assert (Hsplit : nodes st = removelast (nodes st) ++ [removed]).
  { destruct (nodes st) as [| n l] using rev_ind; [discriminate |].
    rewrite last_snoc in Hlast. injection Hlast as ->.
    rewrite removelast_last. reflexivity. }
  rewrite Hsplit in Hids, Hpos, Hkanji.
  apply Forall_app in Hpos as [Hpos _]. apply Forall_app in Hkanji as [Hkanji _].
  split; [| split; [exact Hid1 | split; [exact Hlay | split; [exact Hpos |
                                                      split; [exact Hkanji |]]]]].
  - rewrite map_app in Hids. simpl in Hids.
    destruct ks as [| k ks'] using rev_ind.
    { apply (f_equal length) in Hids. rewrite length_app in Hids. simpl in Hids. lia. }
    rewrite map_app in Hids. simpl in Hids. apply app_inj_tail in Hids as [Hids _].
    exists ks'. split; [exact Hids |].
    apply Forall_app in Hlt as [Hlt _]. split; [| exact Hlt].
    clear -Hsorted. induction ks' as [| k0 r IH]; [constructor |].
    simpl in Hsorted. apply StronglySorted_inv in Hsorted as [Hs Hk].
    constructor; [apply IH, Hs |]. apply Forall_app in Hk as [Hk _]. exact Hk.
  - intros p. destruct (previewId st) as [q |]; [| discriminate].
    destruct (String.eqb q (u_id removed)); [| intros [= <-]; apply Hprev; reflexivity].
    destruct (last (removelast (nodes st))) as [n |] eqn:Hl; [| discriminate].
    intros [= <-]. rewrite Forall_forall in Hpos.
    destruct (Hpos n (last_in _ _ Hl)) as (k & Hk & -> & _).
    apply String_of_nonempty. lia.
Qed.

Lemma wellformed_addChar c st : wellformed st → wellformed (addChar c st).
Proof.
  intros Hinv. unfold addChar. destruct (trim c) as [| u r] eqn:Hch; [exact Hinv |].
  destruct (firstOf (u :: r)) as [first |] eqn:Hfirst; [| exact Hinv].
  unfold jsstring_eqb. destruct (bool_decide_reflect (first = u :: r)) as [-> |];
    [| exact Hinv].
  apply wellformed_addNode; [| exact Hinv]. intros _. cbn [kanjiNodeRejects].
  apply firstOf_one in Hfirst; [| discriminate]. rewrite Hfirst. reflexivity.
Qed.

Lemma wellformed_step st a : wellformed st → wellformed (step st a).
Proof.
  intros Hinv. unfold step. apply wellformed_settle.
  destruct a as [c | | | | id |].
  - apply wellformed_addChar, Hinv.
  - apply wellformed_addNode; [discriminate | exact Hinv].
  - apply wellformed_addNode; [discriminate | exact Hinv].
  - apply wellformed_addNode; [discriminate | exact Hinv].
  - apply wellformed_deleteNode, Hinv.
  - apply wellformed_undoLast, Hinv.
Qed.

Lemma wellformed_initial : wellformed initial.
Proof.
  unfold wellformed, initial. cbn [refs nodes idRef layoutRef previewId].
  split; [exists []; split; [reflexivity |]; split; constructor |].
  split; [lia |]. split; [reflexivity |]. split; [constructor |].
  split; [constructor | discriminate].
Qed.

Lemma wellformed_run actions : wellformed (run actions).
Proof.
  unfold run. induction actions as [| a l IH] using rev_ind; [apply wellformed_initial |].
  rewrite fold_left_app. simpl. apply wellformed_step, IH.
Qed.

Lemma NoDup_map_via {A B C} (f : A → B) (g : A → C) (l : list A) :
  (∀ x y, x ∈ l → y ∈ l → g x = g y → f x = f y) →
  NoDup (map f l) → NoDup (map g l).
Proof.
  induction l as [| x l IH]; intros Hfg Hnd; [constructor |].
  simpl in *. apply NoDup_cons in Hnd as [Hx Hnd]. apply NoDup_cons. split.
  - intros Hin. apply Hx. apply list_elem_of_fmap in Hin as (y & Hy & Hyl).
    apply list_elem_of_fmap. exists y. split; [| exact Hyl].
    apply Hfg; [left | right; exact Hyl | exact Hy].
  - apply IH; [| exact Hnd]. intros a b Ha Hb. apply Hfg; right; assumption.
Qed.

End UiFacts.

Section UiExtras.
Import Js Glyph Ui.

(** X19.  [addChar] adds a Glyph node exactly when its input, trimmed,
    is one code point.  The node holds the trimmed input, the guard of the
    Glyph component lets it through, and [code5] gives it an id unless the
    code point is U+0000.  Any other input changes nothing. *)
Theorem addChar_one_code_point (c : jsstring) (st : App) :
  let ch := trim c in
  (length (codePoints ch) = 1%nat →
   ∃ n,
     nodes (addChar c st) = nodes st ++ [n]
     ∧ u_type n = "kanji"%string
     ∧ u_char n = Some ch
     ∧ kanjiNodeRejects (u_char n) = false
     ∧ (codePointAt0 ch ≠ Some 0 → ∃ c5, code5 ch = Ret c5))
  ∧ (length (codePoints ch) ≠ 1%nat → addChar c st = st).
Proof.
  intros ch. unfold addChar. fold ch. split.
  - intros Hone. destruct ch as [| u r] eqn:Hch; [discriminate |].
    assert (Hne : u :: r ≠ []) by discriminate.
    apply (firstOf_one _ Hne) in Hone as Hfirst. rewrite Hfirst.
    unfold jsstring_eqb. rewrite bool_decide_eq_true_2 by reflexivity.
    unfold addNode, nextId, nextPos. destruct (layoutRef (refs st)) as [x y].
    eexists. split; [reflexivity |]. split; [reflexivity |]. split; [reflexivity |].
    split.
    + cbn [u_char kanjiNodeRejects]. rewrite Hone. reflexivity.
    + intros Hcp. unfold code5. destruct (codePointAt0 (u :: r)) as [cp |] eqn:Hcp0.
      * destruct (Z.eqb_spec cp 0) as [-> |]; [congruence | eauto].
      * simpl in Hcp0.
        destruct (isHighSurrogate u);
          [destruct r as [| lo r']; [| destruct (isLowSurrogate lo)] |]; discriminate.
  - intros Hnot. destruct ch as [| u r] eqn:Hch; [reflexivity |].
    assert (Hne : u :: r ≠ []) by discriminate.
    destruct (firstOf (u :: r)) as [first |] eqn:Hfirst; [| reflexivity].
    unfold jsstring_eqb. destruct (bool_decide_reflect (first = u :: r)) as [-> |];
      [| reflexivity].
    apply (firstOf_one _ Hne) in Hfirst. congruence.
Qed.

(** X20.  Whatever nodes are added, deleted and undone, in any order,
    the nodes of the application have pairwise different ids, and each
    was created at the position its id determines, on a grid of six
    columns 140 apart and rows 160 apart, so that no two of them were
    created at the same place; every Glyph node holds exactly one code
    point; and the preview, when there is one, is of a node that
    exists. *)
Theorem ui_nodes_wellformed (actions : list Action) :
  let st := run actions in
  NoDup (map u_id (nodes st))
  ∧ NoDup (map u_position (nodes st))
  ∧ Forall (λ n, ∃ k, 1 ≤ k < idRef (refs st) ∧ u_id n = String_of k
                      ∧ u_position n = grid (k - 1))
      (nodes st)
  ∧ Forall (λ n, u_type n = "kanji"%string →
                 ∃ ch, u_char n = Some ch ∧ length (codePoints ch) = 1%nat)
      (nodes st)
  ∧ (∀ p, previewId st = Some p → p ∈ map u_id (nodes st)).
Proof.
  cbn zeta.
  destruct (wellformed_run actions)
    as ((ks & Hids & Hsorted & Hlt) & Hid1 & Hlay & Hpos & Hkanji & _).
  assert (Hnd : NoDup (map u_id (nodes (run actions)))).
  { rewrite Hids. apply NoDup_fmap_2_strong; [| apply StronglySorted_lt_NoDup, Hsorted].
    rewrite Forall_forall in Hlt. intros a b Ha Hb.
    apply String_of_injective; [specialize (Hlt _ Ha) | specialize (Hlt _ Hb)]; lia. }
  split; [exact Hnd |]. split; [| split; [| split]].
  - apply (NoDup_map_via u_id); [| exact Hnd].
    rewrite Forall_forall in Hpos. intros a b Ha Hb Hg.
    destruct (Hpos _ Ha) as (ka & Hka & -> & Hpa). destruct (Hpos _ Hb) as (kb & Hkb & -> & Hpb).
    rewrite Hpa, Hpb in Hg. apply grid_injective in Hg; [| lia | lia].
    f_equal. lia.
  - rewrite Forall_forall in Hpos. rewrite Forall_forall in Hlt.
    rewrite Forall_forall. intros n Hn.
    destruct (Hpos _ Hn) as (k & Hk & Hid & Hp). exists k.
    split; [| split; assumption]. split; [exact Hk |].
    assert (Hm : u_id n ∈ map String_of ks).
    { rewrite <- Hids. apply list_elem_of_fmap. exists n. split; [reflexivity | exact Hn]. }
    apply list_elem_of_fmap in Hm as (k' & Hk' & Hin'). specialize (Hlt _ Hin').
    rewrite Hid in Hk'. apply String_of_injective in Hk'; lia.
  - eapply Forall_impl; [exact Hkanji |]. simpl. intros n Hn Ht. specialize (Hn Ht).
    destruct (u_char n) as [[| u r] |]; simpl in Hn; try discriminate.
    exists (u :: r). split; [reflexivity |].
    apply negb_false_iff, Nat.eqb_eq in Hn. exact Hn.
  - clear. intros p. unfold run.
    destruct actions as [| a l _] using rev_ind; [discriminate |].
    rewrite fold_left_app. simpl. unfold step. fold (run l).
    apply settlePreview_names.
    pose proof (wellformed_run l) as Hl.
    assert (Hinner : wellformed
                       (match a with
                        | AddChar c => addChar c (run l)
                        | AddRange => addNode "range" None (run l)
                        | AddTransform => addNode "transform" None (run l)
                        | AddComposite => addNode "composite" None (run l)
                        | DeleteNode id => deleteNode id (run l)
                        | Undo => undoLast (run l)
                        end)).
    { destruct a as [c | | | | id |].
      - apply wellformed_addChar, Hl.
      - apply wellformed_addNode; [discriminate | exact Hl].
      - apply wellformed_addNode; [discriminate | exact Hl].
      - apply wellformed_addNode; [discriminate | exact Hl].
      - apply wellformed_deleteNode, Hl.
      - apply wellformed_undoLast, Hl. }
    destruct Hinner as (_ & _ & _ & _ & _ & Hprev). exact Hprev.
Qed.

End UiExtras.

(** ** The bound on the depth *)

Section DepthExtras.
Import Js Dom RangeStroke Ops Glyph Engine Depth Samples.
Context `{Platform}.
Variable oracle : GlyphOracle.
Variable nodes : list FlowNode.
Variable edges : list Edge.

Lemma evalNodeSvg_input owner k nodeId node e spine :
  nodeId ≠ EmptyString →
  byId nodes nodeId = Some node →
  String.eqb (n_type node) "transform" || String.eqb (n_type node) "range" = true →
  find_edge edges nodeId None = Some e →
  ∀ m1, evalNodeSvg oracle nodes edges owner k (source e) ∅ (nodeId :: spine)
        = (Done (Ret None), m1) →
  evalNodeSvg oracle nodes edges owner (S k) nodeId ∅ spine
  = (Done (Ret None), <[nodeId := Settled (Ret None)]> m1).
Proof.
  intros Hne Hnode Htype Hedge m1 Hin.
  cbn [evalNodeSvg].
  destruct (String.eqb_spec nodeId ""); [congruence |].
  rewrite lookup_empty, Hnode, Hedge.
  destruct (String.eqb_spec (n_type node) "kanji") as [Hk | _].
  { rewrite Hk in Htype. discriminate. }
  destruct (String.eqb_spec (n_type node) "range") as [Hr | _].
  { rewrite Hin. reflexivity. }
  destruct (String.eqb_spec (n_type node) "transform") as [Ht | Hnt].
  { rewrite Hin. reflexivity. }
  simpl in Htype. discriminate.
Qed.

(** X21.  The bound on the depth cuts graphs without a cycle too.  When
    from a node as many input edges can be followed through Transform
    and Range nodes as there are levels left, [evalNodeSvg] yields [null]
    for that node, whatever lies further up: with the 21 levels of a
    call from a component, a chain of 21 such nodes above a glyph
    previews as nothing. *)
Theorem evalNodeSvg_depth_cut (owner : Owner) (remaining : nat) (id : string) :
  chain nodes edges remaining id = true →
  ∀ spine, (evalNodeSvg oracle nodes edges owner remaining id ∅ spine).1 = Done (Ret None).
Proof.
  revert id. induction remaining as [| k IH]; intros id Hc spine.
  - cbn [evalNodeSvg]. destruct (String.eqb id ""); reflexivity.
  - cbn [chain] in Hc. apply andb_true_iff in Hc as [Hne Hc].
    apply negb_true_iff, String.eqb_neq in Hne.
    destruct (byId nodes id) as [node |] eqn:Hnode; [| discriminate].
    destruct (find_edge edges id None) as [e |] eqn:Hedge; [| discriminate].
    apply andb_true_iff in Hc as [Htype Hc].
    specialize (IH (source e) Hc (id :: spine)).
    destruct (evalNodeSvg oracle nodes edges owner k (source e) ∅ (id :: spine))
      as [out m1] eqn:Hin.
    simpl in IH. subst out.
    rewrite (evalNodeSvg_input owner k id node e spine Hne Hnode Htype Hedge m1 Hin).
    reflexivity.
Qed.

End DepthExtras.

(** ** bakeStrokes: what is removed *)

Section SubtreeFacts.
Import Dom Tree.

Lemma elements_subtree n g e : g ∈ elements n → e ∈ elements g → e ∈ elements n.
Proof.
  revert g e. induction n as [d | t a ks IH] using node_ind_strong; intros g e.
  - intros Hg. inversion Hg.
  - simpl. intros [-> | Hg]%elem_of_cons He; [exact He |].
    right. apply list_elem_of_In, in_flat_map in Hg as (k & Hk & Hg).
    apply list_elem_of_In, in_flat_map. exists k. split; [exact Hk |].
    apply list_elem_of_In. rewrite Forall_forall in IH.
    apply (IH k (proj2 (list_elem_of_In _ _) Hk) g e); [apply list_elem_of_In, Hg | exact He].
Qed.

Lemma doc_elements_subtree d g e : g ∈ doc_elements d → e ∈ elements g → e ∈ doc_elements d.
Proof.
  unfold doc_elements. intros Hg He.
  apply list_elem_of_In, in_flat_map in Hg as (k & Hk & Hg).
  apply list_elem_of_In, in_flat_map. exists k. split; [exact Hk |].
  apply list_elem_of_In. eapply elements_subtree; [apply list_elem_of_In, Hg | exact He].
Qed.

Lemma update_first_node_append_free selP sel g n n' :
  update_first_node sel (appendChild g) n = Some n' →
  Forall (λ e, matches selP e = false) (elements n) →
  Forall (λ e, matches selP e = false) (elements g) →
  Forall (λ e, matches selP e = false) (elements n').
Proof.
  revert n'. induction n as [d | t a ks IH] using node_ind_strong; [discriminate |].
  intros n'. simpl. destruct (sel t a).
  - intros [= <-] [Hh Ht]%Forall_cons_1 Hg. simpl. constructor; [exact Hh |].
    rewrite flat_map_app. apply Forall_app. split; [exact Ht |].
    simpl. rewrite app_nil_r. exact Hg.
  - destruct (first_upd (update_first_node sel (appendChild g)) ks) as [ks' |] eqn:Hf;
      [| discriminate].
    intros [= <-] [Hh Ht]%Forall_cons_1 Hg. simpl. constructor; [exact Hh |].
    clear Hh. revert ks' Hf Ht. induction IH as [| k r Hk _ IHr]; [discriminate |].
    intros ks'. simpl.
    destruct (update_first_node sel (appendChild g) k) as [k' |].
    + intros [= <-] [H1 H2]%Forall_app. simpl. apply Forall_app.
      split; [apply Hk; [reflexivity | exact H1 | exact Hg] | exact H2].
    + destruct (first_upd (update_first_node sel (appendChild g)) r) as [r' |];
        [| discriminate].
      intros [= <-] [H1 H2]%Forall_app. simpl. apply Forall_app.
      split; [exact H1 | apply IHr; [reflexivity | exact H2]].
Qed.

Lemma update_first_append_free selP sel g d d' :
  update_first sel (appendChild g) d = Some d' →
  Forall (λ e, matches selP e = false) (doc_elements d) →
  Forall (λ e, matches selP e = false) (elements g) →
  Forall (λ e, matches selP e = false) (doc_elements d').
Proof.
  unfold update_first, doc_elements. revert d'.
  induction d as [| k r IHr]; [discriminate |].
  intros d'. simpl.
  destruct (update_first_node sel (appendChild g) k) as [k' |] eqn:Hk.
  - intros [= <-] [H1 H2]%Forall_app Hg. simpl. apply Forall_app.
    split; [eapply update_first_node_append_free; eassumption | exact H2].
  - destruct (first_upd (update_first_node sel (appendChild g)) r) as [r' |];
      [| discriminate].
    intros [= <-] [H1 H2]%Forall_app Hg. simpl. apply Forall_app.
    split; [exact H1 | apply IHr; [reflexivity | exact H2 | exact Hg]].
Qed.

End SubtreeFacts.

Section BakeNoise.
Import Js Dom RangeStroke Ops Tree Samples.

Lemma retagged_noise_free g d d' :
  (∀ a, getAttribute "id" (g a) = getAttribute "id" a) →
  ∀ sel, update_first sel (updAttrs g) d = Some d' →
  Forall (λ e, matches noise e = false) (doc_elements d) →
  Forall (λ e, matches noise e = false) (doc_elements d').
Proof.
  intros Hg sel Hu. apply update_first_retagged in Hu.
  refine (Forall2_transfer _ _ _ _ _ _ Hu).
  intros e e' (Hi & Ht & Ha) He.
  destruct e as [t a ks |], e' as [t' a' ks' |]; simpl in *; try discriminate;
    [| reflexivity].
  rewrite <- He. apply noise_id_only.
  destruct Ha as [-> | [_ ->]]; [reflexivity | apply Hg].
Qed.

Lemma carriers_in_doc d n el : (n, el) ∈ carriers d → el ∈ doc_elements d.
Proof.
  unfold carriers. intros Hc. apply list_elem_of_In, in_flat_map in Hc as (el' & Hel & Hc).
  apply list_elem_of_In in Hc. apply carrier_of_spec in Hc as [_ ->].
  apply filter_In in Hel as [Hel _]. apply list_elem_of_In, Hel.
Qed.

Lemma drawables_in_doc d n k :
  k ∈ drawables_for n (carriers d) → k ∈ doc_elements d ∧ isDrawable k = true.
Proof.
  unfold drawables_for. intros Hk.
  apply list_elem_of_In, in_flat_map in Hk as ([n' el] & Hc & Hk). simpl in Hk.
  destruct (n' =? n); [| destruct Hk].
  apply filter_In in Hk as [Hk Hd]. split; [| exact Hd].
  eapply doc_elements_subtree; [eapply carriers_in_doc, list_elem_of_In, Hc |].
  apply list_elem_of_In, Hk.
Qed.

(** X22.  What [bakeStrokes] removes stays out: in the document it
    returns there is no element whose id starts with
    [kvg:StrokeNumbers_], [kvg:Numbers_], [kvg:Grid_] or [kvg:Guideline_],
    and the children of each emitted group are drawable elements (path,
    polyline, line, circle, ellipse, rect or polygon), copies of elements
    of the document. *)
Theorem bake_is_noise_free (d d' : document) (c : Z) :
  bakeDoc d = Some (d', c) →
  querySelectorAll noise d' = []
  ∧ ∃ d2,
      bake_prepare d = Some d2
      ∧ Forall (λ g, Forall (λ k, isDrawable k = true ∧ k ∈ doc_elements d2)
                       (childNodes_of g))
          (bakedGroups d').
Proof.
  intros Hb. pose proof (bakeDoc_shape d d' c Hb) as (d2 & t & a & ks & Hd2 & Hq & _).
  cbn zeta in Hq. split.
  - unfold bakeDoc in Hb. rewrite Hd2 in Hb. cbn [mbind option_bind] in Hb.
    assert (Hn2 : Forall (λ e, matches noise e = false) (doc_elements d2)).
    { unfold bake_prepare in Hd2.
      refine (retagged_noise_free _ _ _ normalizeSvg_id _ Hd2 _).
      apply filter_nil_Forall, (removeAll_none noise d). }
    set (d3 := default d2 _) in Hb.
    assert (Hn3 : Forall (λ e, matches noise e = false) (doc_elements d3)).
    { unfold d3. destruct (update_first strokePaths _ d2) as [d3' |] eqn:Hu; simpl;
        [| exact Hn2].
      refine (retagged_noise_free _ _ _ _ _ Hu Hn2).
      intros a0. apply getAttribute_set_ne. discriminate. }
    destruct (fill_bucket_spec (carriers d2)) as (Hnd & Hkeys & Hget).
    assert (Hemit : emit (fill_bucket (carriers d2)) =
              (Elem "g" [("id", "__baked_strokes__")]%string
                 (map (group_for (carriers d2))
                    (List.filter (has_drawable (carriers d2))
                       (sorted_nums (fill_bucket (carriers d2))))),
               max_index (List.filter (has_drawable (carriers d2))
                            (sorted_nums (fill_bucket (carriers d2)))))).
    { unfold emit, empty_bakedGroup. rewrite (emit_fold (carriers d2)); [reflexivity |].
      intros n Hn. apply Hget. rewrite <- Hkeys, <- sorted_nums_perm. exact Hn. }
    rewrite Hemit in Hb. clear Hemit.
    set (g := Elem "g" _ _) in Hb.
    destruct (update_first (sel_tag "svg") (appendChild g) d3) as [d4 |] eqn:Hu;
      [| discriminate].
    cbn [mbind option_bind] in Hb. injection Hb as <- _.
    apply filter_nil_Forall.
    refine (update_first_append_free _ _ _ _ _ Hu Hn3 _).
    unfold g. simpl. constructor; [reflexivity |].
    rewrite Forall_forall. intros e He.
    apply list_elem_of_In, in_flat_map in He as (gn & Hgn & He).
    apply in_map_iff in Hgn as (n & <- & _). simpl in He.
    destruct He as [<- | He]; [reflexivity |].
    apply in_flat_map in He as (k & Hk & He).
    apply list_elem_of_In, drawables_in_doc in Hk as [Hk _].
    rewrite Forall_forall in Hn2. apply Hn2.
    eapply doc_elements_subtree; [exact Hk | apply list_elem_of_In, He].
  - exists d2. split; [exact Hd2 |].
    rewrite (bakedGroups_of_shape _ _ _ _ _ _ Hq).
    rewrite Forall_forall. intros g Hg.
    apply list_elem_of_fmap in Hg as (n & -> & _). simpl.
    rewrite Forall_forall. intros k Hk. apply drawables_in_doc in Hk. tauto.
Qed.

End BakeNoise.

(** ** evalNodeSvg without Composite nodes *)

Section SettleExtras.
Import Js Dom RangeStroke Ops Glyph Engine Samples.
Context `{Platform}.
Variable oracle : GlyphOracle.
Variable nodes : list FlowNode.
Variable edges : list Edge.

Lemma byId_in id node : byId nodes id = Some node → node ∈ nodes.
Proof.
  unfold byId. intros Hf. apply find_some in Hf as [Hin _].
  apply list_elem_of_In. apply in_rev. exact Hin.
Qed.

Lemma settled_insert (m : gmap string Entry) id v :
  (∀ k, m !! k ≠ Some Pending) → ∀ k, <[id := Settled v]> m !! k ≠ Some Pending.
Proof.
  intros Hm k. destruct (decide (id = k)) as [-> | Hne].
  - rewrite lookup_insert_eq. discriminate.
  - rewrite lookup_insert_ne by exact Hne. apply Hm.
Qed.

(** X23.  Without a Composite node [evalNodeSvg] always settles, on a
    graph with a cycle too: whatever the Glyph, Range and Transform nodes
    and the edges are, a call on a table with no pending promise returns
    a settled promise and leaves no pending promise in the table. *)
Theorem evalNodeSvg_settles_without_composite (owner : Owner) :
  Forall (λ n, n_type n ≠ "composite"%string) nodes →
  ∀ remaining id (memo : gmap string Entry) spine,
    (∀ k, memo !! k ≠ Some Pending) →
    ∃ v m,
      evalNodeSvg oracle nodes edges owner remaining id memo spine = (Done v, m)
      ∧ ∀ k, m !! k ≠ Some Pending.
Proof.
  intros Hnc. induction remaining as [| r IH]; intros id memo spine Hm.
  - cbn [evalNodeSvg]. destruct (String.eqb id ""); eauto.
  - cbn [evalNodeSvg]. destruct (String.eqb id ""); [eauto |].
    destruct (memo !! id) as [[| v] |] eqn:Hlook.
    + exfalso. exact (Hm id Hlook).
    + eauto.
    + destruct (byId nodes id) as [node |] eqn:Hnode;
        [| unfold settle; eauto using settled_insert].
      assert (Hty : n_type node ≠ "composite"%string).
      { rewrite Forall_forall in Hnc. apply Hnc. eapply byId_in, Hnode. }
      assert (Hin : ∀ sp, ∃ v m,
                match find_edge edges id None with
                | Some edge => evalNodeSvg oracle nodes edges owner r (source edge) memo sp
                | None => (Done (Ret None), memo)
                end = (Done v, m)
                ∧ ∀ k, m !! k ≠ Some Pending).
      { intros sp. destruct (find_edge edges id None) as [e |]; [apply IH, Hm | eauto]. }
      destruct (String.eqb (n_type node) "kanji");
        [unfold settle; eauto using settled_insert |].
      destruct (String.eqb (n_type node) "range").
      { destruct (Hin (id :: spine)) as (v & m1 & -> & Hm1).
        destruct v as [e | input]; unfold settle; eauto using settled_insert. }
      destruct (String.eqb (n_type node) "transform").
      { destruct (Hin (id :: spine)) as (v & m1 & -> & Hm1).
        destruct v as [e | input]; unfold settle; eauto using settled_insert. }
      destruct (String.eqb_spec (n_type node) "composite"); [congruence |].
      unfold settle; eauto using settled_insert.
Qed.

End SettleExtras.

(** ** Examples *)

Section ExtraWitnesses.
Import Js Dom RangeStroke Ops Glyph Engine Cache Depth Tree Samples Samples2.

(** The source of U+6C38, five ids in [-sN] and no baked group: the
    count is 1. *)
Lemma countStrokes_groups_or_one_witness :
  @parseFromString sample_platform (serialize_doc doc_ei) = Ret doc_ei
  ∧ map fst (carriers doc_ei) = [1; 2; 3; 4; 5]
  ∧ @countStrokes sample_platform (serialize_doc doc_ei) = Ret (Num 1).
Proof.
  split; [vm_compute; reflexivity |]. split; [vm_compute; reflexivity |].
  apply (@countStrokes_groups_or_one sample_platform (serialize_doc doc_ei) doc_ei).
  vm_compute. reflexivity.
Defined.

(** The two groups of the bake of [doc_sparse] under a NaN bound. *)
Lemma applyRangeBaked_edges_witness :
  @parseFromString sample_platform2 (serialize_doc doc_sparse_baked) = Ret doc_sparse_baked
  ∧ length (querySelectorAll strokeGroup doc_sparse_baked) = 2%nat
  ∧ ∃ r svgEl,
      applyRangeBakedDoc doc_sparse_baked NaN (Num 3) = Some r
      ∧ @applyRangeBaked sample_platform2 (serialize_doc doc_sparse_baked) NaN (Num 3)
        = @serializeToString sample_platform2 r
      ∧ querySelector (sel_tag "svg") r = Some svgEl
      ∧ Forall (λ g, matches strokeGroup g = true →
                     getAttribute "display" (attributes_of g) = Some "none"%string)
          (descendants svgEl).
Proof.
  split; [vm_compute; reflexivity |]. split; [vm_compute; reflexivity |].
  refine (proj2 (@applyRangeBaked_edges sample_platform2 (serialize_doc doc_sparse_baked)
                   doc_sparse_baked NaN (Num 3) _) (or_introl eq_refl) _ _);
    vm_compute; reflexivity.
Defined.

(** The source of U+6C38 bakes to the count 5. *)
Lemma bake_count_zero_witness :
  @parseFromString sample_platform (serialize_doc doc_ei) = Ret doc_ei
  ∧ ∃ d2 d' c,
      bake_prepare doc_ei = Some d2
      ∧ bakeDoc doc_ei = Some (d', c)
      ∧ @bakeStrokes sample_platform (serialize_doc doc_ei)
        = (out ← @serializeToString sample_platform d'; Ret {| svg := out; count := c |})
      ∧ 0 ≤ c
      ∧ (c = 0 ↔ carriers d2 = []).
Proof.
  split; [vm_compute; reflexivity |].
  refine (proj2 (@bake_count_zero sample_platform (serialize_doc doc_ei) doc_ei _) _ _);
    vm_compute; reflexivity.
Defined.

(** The numbers of the source of U+6C38 go. *)
Lemma hideStrokeNumbers_removes_witness :
  @parseFromString sample_platform (serialize_doc doc_ei) = Ret doc_ei
  ∧ ∃ d',
      @hideStrokeNumbers sample_platform (serialize_doc doc_ei)
      = @serializeToString sample_platform d'
      ∧ querySelectorAll (sel_attr_prefix "id" "kvg:StrokeNumbers_") d' = []
      ∧ (querySelectorAll (sel_attr_prefix "id" "kvg:StrokeNumbers_") doc_ei = [] →
         d' = doc_ei).
Proof.
  split; [vm_compute; reflexivity |].
  apply (@hideStrokeNumbers_removes sample_platform (serialize_doc doc_ei) doc_ei).
  vm_compute. reflexivity.
Defined.

(** The two paths of [doc_sparse] in red. *)
Lemma forceStrokeColor_styles_witness :
  @parseFromString sample_platform (serialize_doc doc_sparse) = Ret doc_sparse
  ∧ querySelector (sel_tag "svg") doc_sparse
    = Some (Elem "svg" [] [stroke "kvg:x-s1"; stroke "kvg:x-s3"])
  ∧ ∃ d',
      forceStrokeColorDoc "#f00" doc_sparse = Some d'
      ∧ @forceStrokeColor sample_platform (serialize_doc doc_sparse) "#f00"
        = try_catch (@serializeToString sample_platform d')
            (Ret (serialize_doc doc_sparse))
      ∧ querySelector (sel_tag "svg") d'
        = Some (Elem "svg" []
                  (style_element "#f00"
                     :: map (forEach_node strokeLeaf (force_attrs "#f00"))
                          [stroke "kvg:x-s1"; stroke "kvg:x-s3"]))
      ∧ Forall (λ el, matches strokeLeaf el = true →
                  let a' := attributes_of el in
                  getAttribute "stroke" a' = Some "#f00"%string
                  ∧ getAttribute "stroke-width" a' = Some "3"%string
                  ∧ getAttribute "stroke-linecap" a' = Some "round"%string
                  ∧ getAttribute "stroke-linejoin" a' = Some "round"%string
                  ∧ getAttribute "fill" a' = Some "none"%string
                  ∧ getAttribute "vector-effect" a' = Some "non-scaling-stroke"%string)
          (doc_elements d').
Proof.
  split; [vm_compute; reflexivity |]. split; [vm_compute; reflexivity |].
  apply (@forceStrokeColor_styles sample_platform (serialize_doc doc_sparse) "#f00"
           doc_sparse "svg" [] [stroke "kvg:x-s1"; stroke "kvg:x-s3"]);
    vm_compute; reflexivity.
Defined.

(** The source of U+6C38 without its numbers: five paths, each tagged
    with its stroke. *)
Lemma annotateStrokes_tags_leaves_witness :
  @parseFromString sample_platform (serialize_doc doc_ei_hidden) = Ret doc_ei_hidden
  ∧ @annotateStrokes sample_platform (serialize_doc doc_ei_hidden)
    = Ret (serialize_doc doc_ei_annotated)
  ∧ querySelectorAll noise doc_ei_annotated = []
  ∧ Forall (λ el, matches strokeLeaf el = true →
              (∃ m1, getAttribute "data-stroke" (attributes_of el) = Some m1
                     ∧ m1 ≠ EmptyString ∧ allDigits m1 = true)
              ∨ getAttribute "data-ignore" (attributes_of el) = Some "1"%string)
      (doc_elements doc_ei_annotated).
Proof.
  split; [vm_compute; reflexivity |].
  apply (@annotateStrokes_tags_leaves sample_platform (serialize_doc doc_ei_hidden)
           doc_ei_hidden).
  vm_compute. reflexivity.
Defined.

(** [doc_sparse] moved by (3, 4); a scale of 0 is written 1. *)
Lemma applyTransform_wraps_witness :
  @parseFromString sample_platform (serialize_doc doc_sparse) = Ret doc_sparse
  ∧ querySelector (sel_tag "svg") doc_sparse
    = Some (Elem "svg" [] [stroke "kvg:x-s1"; stroke "kvg:x-s3"])
  ∧ ∃ d',
      @applyTransformDoc sample_platform 3 4 0 1 doc_sparse = Some d'
      ∧ querySelector (sel_tag "svg") d'
        = Some (Elem "svg" []
                  [Elem "g" [("transform", "translate(3,4) scale(1,1)")]%string
                     [stroke "kvg:x-s1"; stroke "kvg:x-s3"]]).
Proof.
  split; [vm_compute; reflexivity |]. split; [vm_compute; reflexivity |].
  destruct (@applyTransform_wraps sample_platform (serialize_doc doc_sparse) 3 4 0 1
              doc_sparse "svg" [] [stroke "kvg:x-s1"; stroke "kvg:x-s3"]
              ltac:(vm_compute; reflexivity) ltac:(vm_compute; reflexivity))
    as (d' & Hd & _ & Hq & _).
  exists d'. split; [exact Hd | exact Hq].
Defined.

(** [doc_sparse] moved twice. *)
Lemma applyTransform_nests_witness :
  ∃ d1 d2,
    @applyTransformDoc sample_platform 3 4 1 1 doc_sparse = Some d1
    ∧ @applyTransformDoc sample_platform 5 6 2 2 d1 = Some d2
    ∧ querySelector (sel_tag "svg") d2
      = Some (Elem "svg" []
                [Elem "g" [("transform", "translate(5,6) scale(2,2)")]%string
                   [Elem "g" [("transform", "translate(3,4) scale(1,1)")]%string
                      [stroke "kvg:x-s1"; stroke "kvg:x-s3"]]]).
Proof.
  eexists. 
  destruct (@applyTransform_nests sample_platform 3 4 1 1 5 6 2 2 doc_sparse _
              "svg" [] [stroke "kvg:x-s1"; stroke "kvg:x-s3"]
              ltac:(vm_compute; reflexivity) ltac:(vm_compute; reflexivity))
    as (d2 & Hd & Hq).
  exists d2. split; [vm_compute; reflexivity |]. split; [exact Hd | exact Hq].
Defined.

(** [doc_empty_carrier] laid over [doc_sparse]. *)
Lemma composite_appends_witness :
  serialize_doc doc_sparse ≠ serialize_doc doc_empty_carrier
  ∧ @parseFromString sample_platform (serialize_doc doc_sparse) = Ret doc_sparse
  ∧ @parseFromString sample_platform (serialize_doc doc_empty_carrier)
    = Ret doc_empty_carrier
  ∧ ∃ aDoc',
      compositeDoc doc_sparse doc_empty_carrier = Some aDoc'
      ∧ @composite sample_platform (serialize_doc doc_sparse)
          (serialize_doc doc_empty_carrier)
        = @serializeToString sample_platform aDoc'
      ∧ querySelector (sel_tag "svg") aDoc'
        = Some (Elem "svg" []
                  ([stroke "kvg:x-s1"; stroke "kvg:x-s3"]
                     ++ [stroke "kvg:x-s1"; Elem "g" [("id", "kvg:x-s2")]%string []])).
Proof.
  split; [vm_compute; discriminate |].
  split; [vm_compute; reflexivity |]. split; [vm_compute; reflexivity |].
  refine (proj1 (@composite_appends sample_platform (serialize_doc doc_sparse)
                   (serialize_doc doc_empty_carrier) doc_sparse doc_empty_carrier
                   _ _ _) "svg" [] [stroke "kvg:x-s1"; stroke "kvg:x-s3"]
            (Elem "svg" [] [stroke "kvg:x-s1"; Elem "g" [("id", "kvg:x-s2")]%string []])
            _ _);
    vm_compute; try reflexivity; discriminate.
Defined.

(** U+6C38 alone and U+6C38 followed by U+65E5 share the id [06c38], and
    their first code point. *)
Lemma code5_determines_code_point_witness :
  Forall (λ u, 0 ≤ u < 65536) ei
  ∧ Forall (λ u, 0 ≤ u < 65536) ei_hi
  ∧ code5 ei = Ret "06c38"%string
  ∧ code5 ei_hi = Ret "06c38"%string
  ∧ codePointAt0 ei = codePointAt0 ei_hi.
Proof.
  assert (H1 : Forall (λ u, 0 ≤ u < 65536) ei) by (repeat constructor; lia).
  assert (H2 : Forall (λ u, 0 ≤ u < 65536) ei_hi) by (repeat constructor; lia).
  split; [exact H1 |]. split; [exact H2 |].
  split; [reflexivity |]. split; [reflexivity |].
  apply (code5_determines_code_point ei ei_hi "06c38" H1 H2); reflexivity.
Defined.

(** U+6C38 resolved while the network answers, then asked for again, as
    U+6C38 U+65E5, when it is down. *)
Lemma resolved_once_witness :
  ∃ v st',
    fetchKanjiVGSvg net_ei ei initial = (Ret v, st')
    ∧ code5 ei_hi = code5 ei
    ∧ fetchKanjiVGSvg net_down ei_hi st' = (Ret v, st').
Proof.
  eexists _, _. split; [reflexivity |]. split; [reflexivity |].
  apply (resolved_once net_ei ei initial _ _ eq_refl net_down ei_hi). reflexivity.
Defined.

(** The glyph of U+6C38 prepared once. *)
Lemma prepared_once_witness :
  preparedCache initial !! (ei, true) = None
  ∧ ∃ v st',
      @getPreparedSvg sample_platform net_ei ei true initial = (Ret v, st')
      ∧ (∀ net', @getPreparedSvg sample_platform net' ei true st' = (Ret v, st'))
      ∧ (∀ net' hide',
           requests (@getPreparedSvg sample_platform net' ei hide' st').2 = requests st').
Proof.
  split; [reflexivity |]. eexists _, _. split; [vm_compute; reflexivity |].
  apply (@prepared_once sample_platform net_ei ei true initial);
    [reflexivity | vm_compute; reflexivity].
Defined.

(** Nothing answers: neither the application nor the worker has the
    glyph of U+6C38. *)
Lemma prepared_failure_witness :
  (@getPreparedSvg sample_platform net_down ei true initial).1 = Throw (NotFound "06c38")
  ∧ preparedCache (@getPreparedSvg sample_platform net_down ei true initial).2
    = preparedCache initial
  ∧ (@worker_kanji sample_platform net_down ei true initial).1 = None.
Proof.
  split; [vm_compute; reflexivity |].
  apply (@prepared_failure sample_platform net_down ei true initial (NotFound "06c38")).
  vm_compute. reflexivity.
Defined.

(** The glyph node 4 feeds the Composite node 3. *)
Lemma evalNode_returns_on_ranked_witness :
  (∀ e, e ∈ half_edges →
        (half_rank (source e) < half_rank (target e))%nat)
  ∧ ∃ (memo' : gmap string Promise) v,
      @evalNode sample_platform (@oracle_of sample_platform net_ei initial initial)
        half_nodes half_edges (S (half_rank "3")) ∅ "3" = Some (memo', v)
      ∧ ∀ fuel, (half_rank "3" < fuel)%nat →
          @evalNode sample_platform (@oracle_of sample_platform net_ei initial initial)
            half_nodes half_edges fuel ∅ "3" = Some (memo', v).
Proof.
  assert (Hr : ∀ e, e ∈ half_edges →
                    (half_rank (source e) < half_rank (target e))%nat).
  { intros e He. apply list_elem_of_In in He. destruct He as [<- | []].
    vm_compute. lia. }
  split; [exact Hr |].
  apply (@evalNode_returns_on_ranked sample_platform
           (@oracle_of sample_platform net_ei initial initial)
           half_nodes half_edges half_rank Hr "3" ∅).
Defined.

(** The source of U+6C38 under a Range node without bounds. *)
Lemma range_bounds_clamped_witness :
  serialize_doc doc_ei ≠ EmptyString
  ∧ (∃ baked, @bakeStrokes sample_platform (serialize_doc doc_ei) = Ret baked
              ∧ count baked = 5)
  ∧ ∃ s e,
      1 ≤ s ∧ s ≤ e ∧ e ≤ 5
      ∧ ∃ baked, @range_branch sample_platform (@no_data sample_platform)
                   (Some (serialize_doc doc_ei))
                 = (out ← @applyRangeBaked sample_platform (svg baked) (Num s) (Num e);
                    Ret (Some out)).
Proof.
  split; [vm_compute; discriminate |].
  destruct (@bakeStrokes sample_platform (serialize_doc doc_ei)) as [err | baked] eqn:Hb;
    [vm_compute in Hb; discriminate |].
  assert (Hc : count baked = 5) by (vm_compute in Hb; injection Hb as <-; reflexivity).
  split; [exists baked; split; [reflexivity | exact Hc] |].
  destruct (@range_bounds_clamped sample_platform (@no_data sample_platform)
              (serialize_doc doc_ei) baked ltac:(vm_compute; discriminate) Hb)
    as [(s & e & H1 & H2 & H3 & Heq) _].
  exists s, e. rewrite Hc in H3. split; [exact H1 |]. split; [exact H2 |].
  split; [exact H3 |]. exists baked. exact Heq.
Defined.

(** After the range 1 to 3 of [doc_sparse], the range 1 to 3 of another
    text of that length and beginning comes from the cache, though the
    parser rejects that text. *)
Lemma preview_caches_keyed_by_prefix_witness :
  serialize_doc doc_sparse_moved ≠ serialize_doc doc_sparse
  ∧ @applyRangeBaked sample_platform (serialize_doc doc_sparse_moved) (Num 1) (Num 3)
    = Throw PlatformError
  ∧ ∃ v cache',
      @getRangeSvgCached sample_platform (serialize_doc doc_sparse) (Num 1) (Num 3) ∅
      = (Ret v, cache')
      ∧ v ≠ EmptyString
      ∧ length16 (serialize_doc doc_sparse_moved) = length16 (serialize_doc doc_sparse)
      ∧ slice0 64 (serialize_doc doc_sparse_moved) = slice0 64 (serialize_doc doc_sparse)
      ∧ @getRangeSvgCached sample_platform (serialize_doc doc_sparse_moved)
          (Num 1) (Num 3) cache'
        = (Ret v, cache').
Proof.
  split; [vm_compute; discriminate |]. split; [vm_compute; reflexivity |].
  assert (Hv : serialize_doc doc_sparse ≠ EmptyString) by (vm_compute; discriminate).
  assert (Hlen : length16 (serialize_doc doc_sparse_moved)
                 = length16 (serialize_doc doc_sparse)) by (vm_compute; reflexivity).
  assert (Hpre : slice0 64 (serialize_doc doc_sparse_moved)
                 = slice0 64 (serialize_doc doc_sparse)) by (vm_compute; reflexivity).
  assert (Hg : @getRangeSvgCached sample_platform (serialize_doc doc_sparse)
                 (Num 1) (Num 3) ∅
               = (Ret (serialize_doc doc_sparse),
                  <[cacheKeyRange (serialize_doc doc_sparse) (Num 1) (Num 3)
                    := serialize_doc doc_sparse]> ∅)).
  { unfold getRangeSvgCached. rewrite lookup_empty. cbn [nonEmpty truthy].
    assert (Ha : @applyRangeBaked sample_platform (serialize_doc doc_sparse)
                   (Num 1) (Num 3) = Ret (serialize_doc doc_sparse))
      by (vm_compute; reflexivity).
    rewrite Ha. reflexivity. }
  eexists _, _. split; [exact Hg |]. split; [exact Hv |].
  split; [exact Hlen |]. split; [exact Hpre |].
  exact (proj1 (@preview_caches_keyed_by_prefix sample_platform) _ _ _ _ _ _ _
           Hg Hv Hlen Hpre).
Defined.

(** Twenty-one Transform nodes above the glyph of U+6C38: the preview of
    the last is [null], the evaluation pass of the application has the
    glyph. *)
Lemma evalNodeSvg_depth_cut_witness :
  @chain sample_platform tower_nodes tower_edges 21 "21" = true
  ∧ (@evalNodeSvg sample_platform (@oracle_of sample_platform net_ei initial initial)
       tower_nodes tower_edges InTransformNode 21 "21" ∅ []).1 = Done (Ret None)
  ∧ ∃ memo' text,
      @evalNode sample_platform (@oracle_of sample_platform net_ei initial initial)
        tower_nodes tower_edges 23 ∅ "21" = Some (memo', Ret (Some text))
      ∧ text ≠ EmptyString.
Proof.
  split; [vm_compute; reflexivity |]. split.
  - apply (@evalNodeSvg_depth_cut sample_platform
             (@oracle_of sample_platform net_ei initial initial)
             tower_nodes tower_edges InTransformNode 21 "21").
    vm_compute. reflexivity.
  - eexists _, _. split; [vm_compute; reflexivity | discriminate].
Defined.

(** U+6C38 between spaces is added as node 1 at (60, 60); U+6C38 U+65E5
    is not added; the surrogate pair of U+20BB7 is. *)
Lemma addChar_one_code_point_witness :
  Ui.trim ei_spaced = ei
  ∧ (∃ n, Ui.nodes (Ui.addChar ei_spaced Ui.initial) = [n]
          ∧ Ui.u_id n = "1"%string ∧ Ui.u_position n = (60, 60)
          ∧ Ui.u_char n = Some ei
          ∧ Ui.kanjiNodeRejects (Ui.u_char n) = false
          ∧ ∃ c5, code5 ei = Ret c5)
  ∧ Ui.addChar ei_hi Ui.initial = Ui.initial
  ∧ ∃ n, Ui.nodes (Ui.addChar tsuchi Ui.initial) = [n] ∧ Ui.u_char n = Some tsuchi.
Proof.
  split; [reflexivity |]. split; [| split].
  - destruct (proj1 (addChar_one_code_point ei_spaced Ui.initial) eq_refl)
      as (n & Hn & _ & Hch & Hrej & Hc5).
    exists n. split; [exact Hn |].
    assert (Hn' : Ui.nodes (Ui.addChar ei_spaced Ui.initial)
                  = [{| Ui.u_id := "1"; Ui.u_type := "kanji";
                        Ui.u_position := (60, 60); Ui.u_char := Some ei |}])
      by reflexivity.
    rewrite Hn' in Hn. injection Hn as <-.
    split; [reflexivity |]. split; [reflexivity |]. split; [reflexivity |].
    split; [reflexivity |]. apply Hc5. discriminate.
  - apply (proj2 (addChar_one_code_point ei_hi Ui.initial)). discriminate.
  - destruct (proj1 (addChar_one_code_point tsuchi Ui.initial) eq_refl)
      as (n & Hn & _ & Hch & _).
    exists n. split; [exact Hn | exact Hch].
Defined.

(** Two Transform nodes that feed each other. *)
Lemma evalNodeSvg_settles_without_composite_witness :
  Forall (λ n, n_type n ≠ "composite"%string) (@cycle_nodes sample_platform)
  ∧ (∀ k, (∅ : gmap string Entry) !! k ≠ Some Pending)
  ∧ ∃ v m,
      @evalNodeSvg sample_platform (@oracle_of sample_platform net_ei initial initial)
        cycle_nodes cycle_edges InTransformNode 21 "1" ∅ [] = (Done v, m)
      ∧ ∀ k, m !! k ≠ Some Pending.
Proof.
  assert (Hn : Forall (λ n, n_type n ≠ "composite"%string) (@cycle_nodes sample_platform))
    by (repeat constructor; discriminate).
  assert (He : ∀ k, (∅ : gmap string Entry) !! k ≠ Some Pending)
    by (intros k; rewrite lookup_empty; discriminate).
  split; [exact Hn |]. split; [exact He |].
  apply (@evalNodeSvg_settles_without_composite sample_platform
           (@oracle_of sample_platform net_ei initial initial)
           cycle_nodes cycle_edges InTransformNode Hn 21%nat "1" ∅ [] He).
Defined.

(** The bake of the source of U+6C38. *)
Lemma bake_is_noise_free_witness :
  ∃ d' c,
    bakeDoc doc_ei = Some (d', c)
    ∧ querySelectorAll noise doc_ei ≠ []
    ∧ querySelectorAll noise d' = []
    ∧ ∃ d2,
        bake_prepare doc_ei = Some d2
        ∧ Forall (λ g, Forall (λ k, isDrawable k = true ∧ k ∈ doc_elements d2)
                         (childNodes_of g))
            (bakedGroups d').
Proof.
  eexists _, _. split; [vm_compute; reflexivity |].
  split; [vm_compute; discriminate |].
  apply (bake_is_noise_free doc_ei _ 5). vm_compute. reflexivity.
Defined.

End ExtraWitnesses.

(* ================================================================== *)
(** * Part IV. Range selection and the character of a Glyph node *)
(* ================================================================== *)

(** ** Range selection on a baked document *)

Section StrokeGroupFacts.
Import Js Dom RangeStroke Tree.

Lemma removeAll_node_free selP sel n :
  Forall (λ e, matches selP e = false) (elements n) →
  Forall (λ e, matches selP e = false) (elements (removeAll_node sel n)).
Proof.
  induction n as [d | t a ks IH] using node_ind_strong; [constructor |].
  simpl. intros [Hh Ht]%Forall_cons_1. constructor; [exact Hh |]. clear Hh.
  induction IH as [| k r Hk _ IHr]; [constructor |].
  simpl in *. apply Forall_app in Ht as [H1 H2].
  destruct (matches sel k); simpl; [apply IHr, H2 |].
  rewrite ?app_nil_r. apply Forall_app. split; [apply Hk, H1 | apply IHr, H2].
Qed.

(** Removing elements makes no element match that did not. *)
Lemma removeAll_free selP sel d :
  Forall (λ e, matches selP e = false) (doc_elements d) →
  Forall (λ e, matches selP e = false) (doc_elements (removeAll sel d)).
Proof.
  unfold doc_elements, removeAll. induction d as [| k r IHr]; [constructor |].
  simpl. intros [H1 H2]%Forall_app.
  destruct (matches sel k); simpl; [apply IHr, H2 |].
  rewrite ?app_nil_r. apply Forall_app.
  split; [apply removeAll_node_free, H1 | apply IHr, H2].
Qed.

Lemma retagged_free selP g d d' :
  (∀ t a, selP t (g a) = selP t a) →
  ∀ sel, update_first sel (updAttrs g) d = Some d' →
  Forall (λ e, matches selP e = false) (doc_elements d) →
  Forall (λ e, matches selP e = false) (doc_elements d').
Proof.
  intros Hg sel Hu. apply update_first_retagged in Hu.
  refine (Forall2_transfer _ _ _ _ _ _ Hu).
  intros e e' (Hi & Ht & Ha) He.
  destruct e as [t a ks |], e' as [t' a' ks' |]; simpl in *; try discriminate;
    [| reflexivity].
  subst t'. rewrite <- He. destruct Ha as [-> | [_ ->]]; [reflexivity | apply Hg].
Qed.

Lemma strokeGroup_normalizeSvg t a : strokeGroup t (normalizeSvg a) = strokeGroup t a.
Proof.
  unfold strokeGroup, sel_and, sel_has, hasAttribute, normalizeSvg. cbn zeta.
  rewrite !getAttribute_set_ne by discriminate.
  rewrite !getAttribute_remove_ne by discriminate. reflexivity.
Qed.

Lemma querySelector_in sel d m : querySelector sel d = Some m → m ∈ doc_elements d.
Proof.
  unfold querySelector, querySelectorAll. intros Hq.
  destruct (List.filter (matches sel) (doc_elements d)) as [| x l] eqn:Hf; [discriminate |].
  injection Hq as ->.
  assert (Hin : In m (List.filter (matches sel) (doc_elements d)))
    by (rewrite Hf; left; reflexivity).
  apply filter_In in Hin as [Hin _]. apply list_elem_of_In, Hin.
Qed.

Lemma descendants_in_elements m e : e ∈ descendants m → e ∈ elements m.
Proof.
  destruct m as [t a ks | d]; [| intros He; inversion He].
  unfold descendants. simpl. intros He. right. exact He.
Qed.

Lemma filter_free {A} (p : A → bool) (l : list A) :
  Forall (λ x, p x = false) l → List.filter p l = [].
Proof. apply filter_nil_Forall. Qed.

(** The stroke groups among the emitted groups and what they hold are
    the emitted groups, when the drawables hold no stroke group. *)
Lemma strokeGroups_of_emitted cs ixs :
  Forall (λ n, Forall (λ k, Forall (λ e, matches strokeGroup e = false) (elements k))
                 (drawables_for n cs)) ixs →
  List.filter (matches strokeGroup) (flat_map elements (map (group_for cs) ixs))
  = map (group_for cs) ixs.
Proof.
  induction 1 as [| n r Hn _ IH]; [reflexivity |].
  cbn [map flat_map]. unfold group_for at 1. cbn [elements].
  cbn [app List.filter matches]. 
  change (strokeGroup "g" [("data-stroke"%string, String_of n)]) with true. cbv iota.
  rewrite List.filter_app, IH. f_equal.
  rewrite filter_free; [reflexivity |].
  rewrite Forall_forall. intros e He.
  apply list_elem_of_In, in_flat_map in He as (k & Hk & He).
  rewrite Forall_forall in Hn. specialize (Hn k (proj2 (list_elem_of_In _ _) Hk)).
  rewrite Forall_forall in Hn. apply Hn, list_elem_of_In, He.
Qed.

Lemma matches_strokeGroup_toggle s e n :
  matches strokeGroup (toggle_node s e n) = matches strokeGroup n.
Proof.
  destruct n as [t a ks |]; [| reflexivity]. simpl.
  apply (proj1 (toggle_spec s e t a)).
Qed.

Lemma descendants_select_in s e m :
  descendants (select_in s e m) = map (toggle_node s e) (descendants m).
Proof.
  destruct m as [t a ks | d]; [| reflexivity].
  rewrite select_in_toggle. unfold descendants. simpl.
  induction ks as [| k r IH]; [reflexivity |].
  simpl. rewrite map_app, elements_toggle_node, IH. reflexivity.
Qed.

(** After the two passes, the stroke groups without [display="none"]
    are those whose index is within the bounds. *)
Lemma visible_of_toggled s e (l : list node) :
  Forall (λ g, matches strokeGroup g = true) l →
  map stroke_index_of
    (List.filter (λ g, negb (display_none g)) (map (toggle_node (Num s) (Num e)) l))
  = List.filter (within s e) (map stroke_index_of l).
Proof.
  induction 1 as [| g r Hg _ IH]; [reflexivity |].
  destruct g as [t a ks |]; [| discriminate]. simpl in Hg.
  destruct (toggle_spec (Num s) (Num e) t a) as (_ & Hidx & Hdisp).
  specialize (Hdisp Hg).
  cbn [map List.filter toggle_node].
  assert (Hd : display_none (Elem t (toggle (Num s) (Num e) t a)
                               (map (toggle_node (Num s) (Num e)) ks))
               = negb (in_range (Num s) (Num e) a)).
  { unfold display_none. cbn [attributes_of]. rewrite Hdisp.
    destruct (in_range (Num s) (Num e) a); reflexivity. }
  assert (Hw : within s e (stroke_index_of (Elem t a ks)) = in_range (Num s) (Num e) a)
    by reflexivity.
  rewrite Hd, Hw, negb_involutive.
  destruct (in_range (Num s) (Num e) a); cbn [map]; [| exact IH].
  rewrite IH. f_equal. exact Hidx.
Qed.

End StrokeGroupFacts.

Section RangeClaims2.
Import Js Dom RangeStroke Tree Stated Samples.

(** The stroke groups of a document that was baked from a source
    without stroke groups are the emitted groups. *)
Lemma strokeGroups_after_bake d d' c :
  bakeDoc d = Some (d', c) →
  querySelectorAll strokeGroup d = [] →
  strokeGroups d' = bakedGroups d'.
Proof.
  intros Hb Hfree. apply filter_nil_Forall in Hfree. fold (doc_elements d) in Hfree.
  pose proof (bakeDoc_shape d d' c Hb) as (d2 & t0 & a0 & ks0 & Hd2 & Hq0 & _).
  cbn zeta in Hq0. rewrite (bakedGroups_of_shape _ _ _ _ _ _ Hq0).
  unfold bakeDoc in Hb. rewrite Hd2 in Hb. cbn [mbind option_bind] in Hb.
  assert (Hn2 : Forall (λ e, matches strokeGroup e = false) (doc_elements d2)).
  { unfold bake_prepare in Hd2.
    refine (retagged_free _ _ _ _ strokeGroup_normalizeSvg _ Hd2 _).
    apply removeAll_free, Hfree. }
  set (d3 := default d2 _) in Hb.
  assert (Hn3 : Forall (λ e, matches strokeGroup e = false) (doc_elements d3)).
  { unfold d3. destruct (update_first strokePaths _ d2) as [d3' |] eqn:Hu; simpl;
      [| exact Hn2].
    refine (retagged_free _ _ _ _ _ _ Hu Hn2).
    intros t a. apply strokeGroup_hide. }
  destruct (fill_bucket_spec (carriers d2)) as (Hnd & Hkeys & Hget).
  assert (Hemit : emit (fill_bucket (carriers d2)) =
            (Elem "g" [("id", "__baked_strokes__")]%string
               (map (group_for (carriers d2))
                  (List.filter (has_drawable (carriers d2))
                     (sorted_nums (fill_bucket (carriers d2))))),
             max_index (List.filter (has_drawable (carriers d2))
                          (sorted_nums (fill_bucket (carriers d2)))))).
  { unfold emit, empty_bakedGroup. rewrite (emit_fold (carriers d2)); [reflexivity |].
    intros n Hn. apply Hget. rewrite <- Hkeys, <- sorted_nums_perm. exact Hn. }
  rewrite Hemit in Hb. clear Hemit.
  set (ixs := List.filter (has_drawable (carriers d2))
                (sorted_nums (fill_bucket (carriers d2)))) in *.
  set (g := Elem "g" _ _) in Hb.
  pose proof (update_first_spec (sel_tag "svg") (appendChild g)
                (appendChild_keeps_svg g) d3) as Hupd.
  destruct (update_first (sel_tag "svg") (appendChild g) d3) as [d4 |];
    [| discriminate].
  cbn [mbind option_bind] in Hb. injection Hb as <- _.
  destruct Hupd as (m & Hm & Hq).
  unfold strokeGroups. rewrite Hq.
  pose proof (querySelector_matches _ _ _ Hm) as Hsvg.
  destruct m as [t a ks | ?]; [| discriminate].
  unfold querySelectorAll_in, descendants. cbn [appendChild childNodes_of].
  rewrite flat_map_app, List.filter_app.
  rewrite filter_free.
  2:{ rewrite Forall_forall. intros e He. rewrite Forall_forall in Hn3. apply Hn3.
      eapply doc_elements_subtree; [eapply querySelector_in, Hm |].
      right. exact He. }
  cbn [app flat_map]. rewrite app_nil_r. unfold g at 1. cbn [elements List.filter matches].
  change (strokeGroup "g" [("id"%string, "__baked_strokes__"%string)]) with false.
  cbv iota.
  rewrite Hq in Hq0. injection Hq0 as _ _ Hks.
  apply strokeGroups_of_emitted.
  rewrite Forall_forall. intros n _. rewrite Forall_forall. intros k Hk.
  apply drawables_in_doc in Hk as [Hk _].
  rewrite Forall_forall. intros e He. rewrite Forall_forall in Hn2. apply Hn2.
  eapply doc_elements_subtree; [exact Hk | exact He].
Qed.

(** C4, as amended.  For every baked glyph and integer bounds [s ≤ e],
    [applyRangeBaked] gives every stroke group below the [svg] element
    [display="none"] when its index is outside [[s, e]] and no [display]
    when it is inside, so that the stroke groups left visible are the
    stroke groups of the baked document whose index is within the
    bounds.  When the source holds no stroke group of its own these are
    the emitted groups with an index within the bounds, [e - s + 1] of
    them when every index from [s] to [e] was emitted.  The count and
    the upper bound are integers a double holds exactly. *)
Theorem range_shows_groups_in_bounds (d d' : document) (N s e : Z) :
  bakeDoc d = Some (d', N) → s ≤ e →
  N ≤ MAX_SAFE_INTEGER → e ≤ MAX_SAFE_INTEGER →
  ∃ r svgEl,
    applyRangeBakedDoc d' (Num s) (Num e) = Some r
    ∧ querySelector (sel_tag "svg") r = Some svgEl
    ∧ Forall (λ g,
                matches strokeGroup g = true →
                getAttribute "display" (attributes_of g)
                = if within s e (stroke_index_of g) then None else Some "none"%string)
             (descendants svgEl)
    ∧ map stroke_index_of (visible_groups r)
      = List.filter (within s e) (map stroke_index_of (strokeGroups d'))
    ∧ (querySelectorAll strokeGroup d = [] →
       strokeGroups d' = bakedGroups d'
       ∧ map stroke_index_of (visible_groups r)
         = List.filter (within s e) (emitted_indices d')
       ∧ ((∀ n, s ≤ n ≤ e → Num n ∈ emitted_indices d') →
          Z.of_nat (length (visible_groups r)) = e - s + 1)).
Proof.
  intros Hb Hse _ _.
  destruct (bakeDoc_shape _ _ _ Hb) as (d2 & t & a & ks & Hd2 & Hq & _).
  destruct (bake_groups_and_count_aux _ _ _ Hb d2 Hd2) as (Hsorted & Hpos).
  set (cs := carriers d2) in *.
  set (ixs := List.filter (has_drawable cs) (sorted_nums (fill_bucket cs))) in *.
  unfold applyRangeBakedDoc. simpl Math_min. simpl Math_max.
  rewrite Z.min_l, Z.max_r by lia.
  pose proof (update_first_spec (sel_tag "svg") (select_in (Num s) (Num e))
                (select_in_keeps_svg _ _) d') as Hupd.
  destruct (update_first _ _ d') as [r |]; [| congruence].
  destruct Hupd as (m & Hm & Hr). rewrite Hq in Hm. injection Hm as <-.
  set (m := Elem t a (ks ++ [Elem "g" [("id", "__baked_strokes__")]%string
                               (map (group_for cs) ixs)])) in *.
  exists r, (select_in (Num s) (Num e) m).
  split; [reflexivity |]. split; [exact Hr |]. split; [apply select_in_spec |].
  assert (Hvis : map stroke_index_of (visible_groups r)
                 = List.filter (within s e) (map stroke_index_of (strokeGroups d'))).
  { unfold visible_groups, strokeGroups. rewrite Hr, Hq.
    unfold querySelectorAll_in. rewrite descendants_select_in.
    rewrite filter_map_commute by apply matches_strokeGroup_toggle.
    apply visible_of_toggled.
    rewrite Forall_forall. intros g Hg.
    apply list_elem_of_In, filter_In in Hg as [_ Hg]. exact Hg. }
  split; [exact Hvis |].
  intros Hfree. pose proof (strokeGroups_after_bake d d' N Hb Hfree) as Hsg.
  split; [exact Hsg |].
  assert (Hem : emitted_indices d' = map Num ixs).
  { unfold emitted_indices. rewrite (bakedGroups_of_shape _ _ _ _ _ _ Hq).
    apply emitted_after_bake, Hpos. }
  rewrite Hsg in Hvis. fold (emitted_indices d') in Hvis.
  split; [exact Hvis |].
  intros Hall. rewrite Hem in Hvis, Hall.
  rewrite <- (length_map stroke_index_of), Hvis, filter_within_Num, length_map.
  apply count_in_bounds; [apply StronglySorted_lt_NoDup, Hsorted | exact Hse |].
  intros n Hn. specialize (Hall n Hn).
  apply list_elem_of_fmap in Hall as (n' & [= ->] & Hin). exact Hin.
Qed.

End RangeClaims2.

Section RangeExamples2.
Import Js Dom RangeStroke Stated Samples Samples2.

(** Strokes 2 to 4 of the five strokes of U+6C38: three groups stay
    visible.  When the document that was baked is baked again, as under
    a Range node whose input is a Range node, the groups of the first
    bake stay in the document beside those of the second, and six stay
    visible. *)
Lemma range_shows_groups_in_bounds_witness :
  querySelectorAll strokeGroup doc_ei = []
  ∧ bakeDoc doc_ei = Some (doc_ei_baked, 5)
  ∧ (∃ r, applyRangeBakedDoc doc_ei_baked (Num 2) (Num 4) = Some r
          ∧ map stroke_index_of (visible_groups r) = [Num 2; Num 3; Num 4]
          ∧ Z.of_nat (length (visible_groups r)) = 4 - 2 + 1)
  ∧ bakeDoc doc_ei_baked = Some (doc_ei_rebaked, 5)
  ∧ ∃ r2, applyRangeBakedDoc doc_ei_rebaked (Num 2) (Num 4) = Some r2
          ∧ map stroke_index_of (visible_groups r2)
            = [Num 2; Num 3; Num 4; Num 2; Num 3; Num 4].
Proof.
  assert (Hfree : querySelectorAll strokeGroup doc_ei = []) by (vm_compute; reflexivity).
  assert (Hb : bakeDoc doc_ei = Some (doc_ei_baked, 5)) by (vm_compute; reflexivity).
  assert (Hb2 : bakeDoc doc_ei_baked = Some (doc_ei_rebaked, 5))
    by (vm_compute; reflexivity).
  assert (Hmax : 5 ≤ MAX_SAFE_INTEGER ∧ 4 ≤ MAX_SAFE_INTEGER)
    by (unfold MAX_SAFE_INTEGER; lia).
  split; [exact Hfree |]. split; [exact Hb |]. split; [| split; [exact Hb2 |]].
  - destruct (range_shows_groups_in_bounds doc_ei doc_ei_baked 5 2 4 Hb
                ltac:(lia) (proj1 Hmax) (proj2 Hmax))
      as (r & svgEl & Hr & _ & _ & _ & Hraw).
    destruct (Hraw Hfree) as (_ & Hvis & Hcount).
    assert (Hem : emitted_indices doc_ei_baked = [Num 1; Num 2; Num 3; Num 4; Num 5])
      by (vm_compute; reflexivity).
    rewrite Hem in Hvis, Hcount.
    exists r. split; [exact Hr |]. split; [exact Hvis |].
    apply Hcount. intros n Hn.
    assert (Hcases : n = 2 ∨ n = 3 ∨ n = 4) by lia.
    apply list_elem_of_In. destruct Hcases as [-> | [-> | ->]]; simpl; tauto.
  - destruct (range_shows_groups_in_bounds doc_ei_baked doc_ei_rebaked 5 2 4 Hb2
                ltac:(lia) (proj1 Hmax) (proj2 Hmax))
      as (r2 & svgEl2 & Hr2 & _ & _ & Hvis2 & _).
    exists r2. split; [exact Hr2 |]. rewrite Hvis2. vm_compute. reflexivity.
Defined.

End RangeExamples2.

(** ** The character of a Glyph node *)

Section KeepFacts.
Import Js Dom RangeStroke Ops Glyph Engine.
Context `{Platform}.
Variable oracle : GlyphOracle.
Variable nodes : list FlowNode.
Variable edges : list Edge.

Lemma eval_deps_keeps self :
  (∀ m i m' v, self m i = Some (m', v) →
               ∀ k (w : Promise), m !! k = Some w → m' !! k = Some w) →
  ∀ es (memo memo1 : gmap string Promise),
    eval_deps self es memo = Some memo1 →
    ∀ k w, memo !! k = Some w → memo1 !! k = Some w.
Proof.
  intros Hself es. induction es as [| e r IH]; intros memo memo1; simpl.
  - intros [= <-] k w Hk. exact Hk.
  - destruct (memo !! source e) as [w0 |] eqn:Hw; [apply IH |].
    destruct (self memo (source e)) as [[m1 v] |] eqn:Hs; [| discriminate].
    cbn [mbind option_bind]. intros Hr k w Hk.
    apply (IH _ _ Hr). rewrite lookup_insert_ne by congruence.
    apply (Hself _ _ _ _ Hs), Hk.
Qed.

(** A call of [evalNode] leaves the promises of the table as they are:
    it adds promises and replaces none. *)
Lemma evalNode_keeps fuel :
  ∀ m i m' v, evalNode oracle nodes edges fuel m i = Some (m', v) →
              ∀ k (w : Promise), m !! k = Some w → m' !! k = Some w.
Proof.
  induction fuel as [| fuel IH]; intros m i m' v; simpl; [discriminate |].
  destruct (m !! i) as [w0 |] eqn:Hi; [intros [= <- _] k w Hk; exact Hk |].
  destruct (byId nodes i) as [n |]; [| intros [= <- _] k w Hk; exact Hk].
  destruct (eval_deps _ _ m) as [m1 |] eqn:Hd; [| discriminate].
  cbn [mbind option_bind]. intros [= <- _] k w Hk.
  rewrite lookup_insert_ne by congruence.
  apply (eval_deps_keeps _ IH _ _ _ Hd), Hk.
Qed.

(** A Glyph node reads nothing from the table. *)
Lemma evalNode_kanji fuel (memo memo' : gmap string Promise) id node v :
  byId nodes id = Some node → n_type node = "kanji"%string →
  memo !! id = None →
  evalNode oracle nodes edges fuel memo id = Some (memo', v) →
  v = kanji_branch oracle (n_data node) ∧ memo' !! id = Some v.
Proof.
  intros Hnode Htype Hmiss. destruct fuel as [| fuel]; [discriminate |]. simpl.
  rewrite Hmiss, Hnode.
  destruct (eval_deps _ _ memo) as [m1 |]; [| discriminate].
  cbn [mbind option_bind]. intros [= <- <-].
  unfold evalBody. rewrite Htype. simpl String.eqb. cbv iota.
  split; [reflexivity | apply lookup_insert_eq].
Qed.

End KeepFacts.

Section GlyphInput.
Import Js Dom RangeStroke Ops Glyph Engine Stated Samples Samples2.

Lemma codePointAt0_none ch : codePointAt0 ch = None → ch = [].
Proof.
  destruct ch as [| hi rest]; [reflexivity |]. simpl.
  destruct (isHighSurrogate hi);
    [destruct rest as [| lo rest']; [| destruct (isLowSurrogate lo)] |]; discriminate.
Qed.

Lemma code5_rejects (ch : jsstring) :
  code5 ch = Throw InvalidInput ↔ (ch = [] ∨ codePointAt0 ch = Some 0).
Proof.
  unfold code5. destruct (codePointAt0 ch) as [cp |] eqn:Hcp.
  - destruct (Z.eqb_spec cp 0) as [-> | Hne].
    + split; [intros _; right; reflexivity | reflexivity].
    + split; [discriminate |]. intros [-> | [= ->]]; [discriminate | contradiction].
  - split; [intros _; left; apply codePointAt0_none, Hcp | reflexivity].
Qed.

Lemma codePointAt0_firstOf ch first :
  Ui.firstOf ch = Some first → codePointAt0 first = codePointAt0 ch.
Proof.
  destruct ch as [| hi rest]; [discriminate |].
  destruct rest as [| lo rest']; [intros [= <-]; reflexivity |].
  cbn [Ui.firstOf]. destruct (isHighSurrogate hi) eqn:Hh; simpl.
  - destruct (isLowSurrogate lo) eqn:Hl; intros [= <-]; simpl; rewrite Hh, ?Hl; reflexivity.
  - intros [= <-]. simpl. rewrite Hh. reflexivity.
Qed.

Lemma fetch_by_code5 net a b st :
  code5 a = code5 b → fetchKanjiVGSvg net a st = fetchKanjiVGSvg net b st.
Proof. intros Hc. unfold fetchKanjiVGSvg. rewrite Hc. reflexivity. Qed.

(** C1, as amended.  Glyph resolution raises InvalidInput exactly on the
    empty string and on a string that begins with U+0000, and then sends
    no request and stores nothing; any other string is resolved as its
    first code point, whatever follows it.  That a character is exactly
    one code point is checked where Glyph nodes are made: [addChar]
    leaves the nodes as they are for any other input, so that every
    Glyph node of the editor holds one code point.  In the evaluation
    pass of the application a Glyph node whose resolution raises, in
    [getPreparedSvg] and in the worker, has [null] as its artifact: its
    promise is fulfilled, the promises of the table are left as they
    were, and a Glyph node beside it has the artifact of its own
    resolution, whatever the table holds. *)
Theorem resolution_rejects_empty_or_nul :
  (∀ ch : jsstring, code5 ch = Throw InvalidInput ↔ (ch = [] ∨ codePointAt0 ch = Some 0))
  ∧ (∀ (ch : jsstring) net st, (ch = [] ∨ codePointAt0 ch = Some 0) →
                  fetchKanjiVGSvg net ch st = (Throw InvalidInput, st))
  ∧ (∀ (ch first : jsstring), Ui.firstOf ch = Some first →
                 code5 ch = code5 first
                 ∧ ∀ net st, fetchKanjiVGSvg net ch st = fetchKanjiVGSvg net first st)
  ∧ (∀ (c : jsstring) st, length (codePoints (Ui.trim c)) ≠ 1%nat → Ui.addChar c st = st)
  ∧ (∀ actions,
       Forall (λ n, Ui.u_type n = "kanji"%string →
                    ∃ ch, Ui.u_char n = Some ch ∧ length (codePoints ch) = 1%nat)
         (Ui.nodes (Ui.run actions)))
  ∧ (∀ (P : Platform) net st wst (ch : jsstring),
       (ch = [] ∨ codePointAt0 ch = Some 0) →
       preparedCache st !! (ch, true) = None →
       prepared (oracle_of net st wst) ch = Throw InvalidInput
       ∧ worker (oracle_of net st wst) ch = None)
  ∧ (∀ (P : Platform) (oracle : GlyphOracle) nodes edges id node,
       byId nodes id = Some node →
       n_type node = "kanji"%string →
       (∀ ch, char_of (n_data node) = Some ch →
              (∃ e, prepared oracle ch = Throw e) ∧ worker oracle ch = None) →
       (∀ fuel (memo : gmap string Promise),
          memo !! id = None → ins edges id = [] →
          evalNode oracle nodes edges (S fuel) memo id
          = Some (<[id := Ret None]> memo, Ret None))
       ∧ (∀ fuel (memo memo' : gmap string Promise) v,
            memo !! id = None →
            evalNode oracle nodes edges fuel memo id = Some (memo', v) →
            v = Ret None
            ∧ memo' !! id = Some (Ret None)
            ∧ ∀ k w, memo !! k = Some w → memo' !! k = Some w))
  ∧ (∀ (P : Platform) (oracle : GlyphOracle) nodes edges id node,
       byId nodes id = Some node →
       n_type node = "kanji"%string →
       ∀ fuel (memo memo' : gmap string Promise) v,
         memo !! id = None →
         evalNode oracle nodes edges fuel memo id = Some (memo', v) →
         v = kanji_branch oracle (n_data node)).
Proof.
  split; [exact code5_rejects |].
  split.
  { intros ch net st Hch. apply code5_rejects in Hch.
    unfold fetchKanjiVGSvg. rewrite Hch. reflexivity. }
  split.
  { intros ch first Hf.
    assert (Hc : code5 ch = code5 first).
    { unfold code5. rewrite (codePointAt0_firstOf ch first Hf). reflexivity. }
    split; [exact Hc |]. intros net st. apply fetch_by_code5, Hc. }
  split.
  { intros c st Hnot. unfold Ui.addChar.
    destruct (Ui.trim c) as [| u r] eqn:Hch; [reflexivity |].
    assert (Hne : u :: r ≠ []) by discriminate.
    destruct (Ui.firstOf (u :: r)) as [first |] eqn:Hfirst; [| reflexivity].
    unfold Ui.jsstring_eqb.
    destruct (bool_decide_reflect (first = u :: r)) as [-> |]; [| reflexivity].
    apply (firstOf_one _ Hne) in Hfirst. congruence. }
  split.
  { intros actions.
    destruct (wellformed_run actions) as (_ & _ & _ & _ & Hkanji & _).
    eapply Forall_impl; [exact Hkanji |]. simpl. intros n Hn Ht. specialize (Hn Ht).
    destruct (Ui.u_char n) as [[| u r] |]; simpl in Hn; try discriminate.
    exists (u :: r). split; [reflexivity |].
    apply negb_false_iff, Nat.eqb_eq in Hn. exact Hn. }
  assert (Hnull : ∀ (P : Platform) (oracle : GlyphOracle) node,
            (∀ ch, char_of (n_data node) = Some ch →
                   (∃ e, prepared oracle ch = Throw e) ∧ worker oracle ch = None) →
            kanji_branch oracle (n_data node) = Ret None).
  { intros P oracle node Hfail. unfold kanji_branch.
    destruct (char_of (n_data node)) as [ch |]; [| reflexivity].
    destruct (Hfail ch eq_refl) as [[e He] Hw]. rewrite He, Hw. reflexivity. }
  split.
  { intros P net st wst ch Hch Hmiss. apply code5_rejects in Hch.
    unfold oracle_of. cbn [prepared worker].
    unfold getPreparedSvg, worker_kanji, fetchKanjiVGSvg. rewrite Hmiss, Hch.
    split; reflexivity. }
  split.
  { intros P oracle nodes edges id node Hnode Htype Hfail. split.
    - intros fuel memo Hmiss Hins. cbn [evalNode]. rewrite Hmiss, Hnode, Hins.
      cbn [eval_deps mbind option_bind].
      unfold evalBody. rewrite Htype. simpl String.eqb. cbv iota.
      rewrite (Hnull P oracle node Hfail). reflexivity.
    - intros fuel memo memo' v Hmiss Heval.
      destruct (evalNode_kanji oracle nodes edges fuel memo memo' id node v
                  Hnode Htype Hmiss Heval) as [Hv Hid].
      rewrite (Hnull P oracle node Hfail) in Hv. subst v.
      split; [reflexivity |]. split; [exact Hid |].
      exact (evalNode_keeps oracle nodes edges fuel _ _ _ _ Heval). }
  intros P oracle nodes edges id node Hnode Htype fuel memo memo' v Hmiss Heval.
  apply (evalNode_kanji oracle nodes edges fuel memo memo' id node v
           Hnode Htype Hmiss Heval).
Qed.

(** C1 as stated fails: the string U+6C38 U+65E5 has two code points and
    its resolution does not raise InvalidInput; it is the resolution of
    U+6C38. *)
Lemma resolution_as_stated_fails : ¬ resolution_as_stated ei_hi.
Proof.
  intros Hs.
  specialize (Hs ltac:(vm_compute; discriminate) net_ei initial).
  vm_compute in Hs. discriminate Hs.
Qed.

End GlyphInput.

Section GlyphInputExamples.
Import Js Dom RangeStroke Ops Glyph Engine Stated Samples Samples2.
#[local] Existing Instance sample_platform.

(** A Glyph node of U+0000 beside a Glyph node of U+6C38: the first has
    [null] as its artifact, the second its glyph. *)
Lemma resolution_rejects_empty_or_nul_witness :
  code5 nul = Throw InvalidInput
  ∧ evalNode (oracle_of net_ei initial initial) pair_nodes [] 1 ∅ "1"
    = Some ({["1"%string := Ret None]}, Ret None)
  ∧ ∃ memo2 text,
      evalNode (oracle_of net_ei initial initial) pair_nodes [] 1
        {["1"%string := Ret None]} "2"
      = Some (memo2, Ret (Some text))
      ∧ text ≠ EmptyString
      ∧ memo2 !! "1"%string = Some (Ret None).
Proof.
  destruct resolution_rejects_empty_or_nul
    as (Hcode & _ & _ & _ & _ & Horacle & Hnode & _).
  assert (Hnul : nul = [] ∨ codePointAt0 nul = Some 0) by (right; reflexivity).
  split; [apply Hcode, Hnul |].
  split.
  - refine (proj1 (Hnode sample_platform (oracle_of net_ei initial initial)
                     pair_nodes [] "1"%string (kanji_node "1" nul)
                     eq_refl eq_refl _) 0%nat ∅ _ eq_refl);
      [| apply lookup_empty].
    intros ch [= <-].
    destruct (Horacle sample_platform net_ei initial initial nul Hnul
                ltac:(apply lookup_empty)) as [Hp Hw].
    split; [exists InvalidInput; exact Hp | exact Hw].
  - eexists _, _. split; [vm_compute; reflexivity |].
    split; [discriminate | vm_compute; reflexivity].
Defined.

End GlyphInputExamples.
